(** * contract-decoder-extension: the local text pipeline of [content.js]

    A shallow embedding of the heuristics of [content.js]
    ([splitSentences], [localSummarize], [localRewrite], [localClassify],
    [localTranslate]) and of the orchestrating [runPipeline], together with
    the part of the JavaScript string and regular-expression semantics that
    these functions rely on.

    JavaScript strings are sequences of UTF-16 code units; they are modelled
    as lists of code units so that [length] is the JavaScript [.length]. *)

From Stdlib Require Import String Ascii.
From Stdlib Require Import List NArith Arith ZArith Bool Lia.
From Stdlib Require Import Permutation Sorted.
Import ListNotations.

Set Implicit Arguments.

(* ================================================================== *)
(** * JavaScript strings and regular expressions *)
(* ================================================================== *)

Module JS.

Definition code_unit := N.
Definition jsstring := list code_unit.

(** An ASCII string literal of the source as a list of code units. *)
Definition lit (s : string) : jsstring :=
  map N_of_ascii (list_ascii_of_string s).

Fixpoint str_eqb (a b : jsstring) : bool :=
  match a, b with
  | [], [] => true
  | x :: a', y :: b' => N.eqb x y && str_eqb a' b'
  | _, _ => false
  end.

(** [!text] on a string: only the empty string is falsy. *)
Definition falsy (s : jsstring) : bool :=
  match s with [] => true | _ :: _ => false end.

(** [s || d] on strings. *)
Definition or_else (s d : jsstring) : jsstring :=
  if falsy s then d else s.

(** White space and line terminators: the code units matched by [\s] and
    stripped by [String.prototype.trim]. *)
Definition is_white_space (c : code_unit) : bool :=
  ((9 <=? c) && (c <=? 13) || (c =? 32) || (c =? 160) || (c =? 5760)
   || (8192 <=? c) && (c <=? 8202) || (c =? 8232) || (c =? 8233)
   || (c =? 8239) || (c =? 8287) || (c =? 12288) || (c =? 65279))%N.

(** [\w]: the basic word characters [A-Za-z0-9_]. *)
Definition is_word_char (c : code_unit) : bool :=
  ((48 <=? c) && (c <=? 57) || (65 <=? c) && (c <=? 90) || (c =? 95)
   || (97 <=? c) && (c <=? 122))%N.

Fixpoint drop_while (p : code_unit -> bool) (s : jsstring) : jsstring :=
  match s with
  | [] => []
  | c :: tl => if p c then drop_while p tl else s
  end.

Fixpoint take_while (p : code_unit -> bool) (s : jsstring) : jsstring :=
  match s with
  | [] => []
  | c :: tl => if p c then c :: take_while p tl else []
  end.

Definition trim_start (s : jsstring) : jsstring := drop_while is_white_space s.
Definition trim_end (s : jsstring) : jsstring :=
  rev (drop_while is_white_space (rev s)).

(** [String.prototype.trim] *)
Definition trim (s : jsstring) : jsstring := trim_end (trim_start s).

(** [Array.prototype.join] on an array of strings *)
Fixpoint join (sep : jsstring) (l : list jsstring) : jsstring :=
  match l with
  | [] => []
  | [x] => x
  | x :: tl => x ++ sep ++ join sep tl
  end.

(** [arr.filter(Boolean)] on an array of strings *)
Definition filter_Boolean (l : list jsstring) : list jsstring :=
  filter (fun s => negb (falsy s)) l.

(** [arr.slice(0, n)] for a natural [n] *)
Definition slice0 {A} (n : nat) (l : list A) : list A := firstn n l.

(** ** [Array.prototype.sort]

    The specification of [sort] leaves the algorithm open but requires the
    result to be ordered by the comparator and, since ES2019, stable.  With
    a consistent comparator these two requirements determine the result;
    insertion from the right is one algorithm meeting them. *)
Section Sort.
Variable A : Type.
Variable comparefn : A -> A -> Z.

Fixpoint sort_insert (x : A) (l : list A) : list A :=
  match l with
  | [] => [x]
  | y :: tl =>
      if (comparefn x y <=? 0)%Z then x :: l else y :: sort_insert x tl
  end.

Fixpoint sort (l : list A) : list A :=
  match l with
  | [] => []
  | x :: tl => sort_insert x (sort tl)
  end.
End Sort.

(** ** Regular expressions

    The fragment of the pattern language used by [content.js]: pattern
    characters, classes, [\s], sequence, alternation, the greedy
    quantifiers [?] on a group and [+], [{n,}] on a single-character atom,
    the assertion [\b] and a look-behind on one character class.  Capture
    groups are not recorded: no replacement string of the program refers
    to one and [split] is used with a pattern without groups. *)

Inductive char_set : Type :=
| One (c : code_unit)            (* a pattern character *)
| Among (l : list code_unit)     (* a class [...] of listed characters *)
| WhiteSpace.                    (* \s *)

Inductive regex : Type :=
| Empty
| Chars (cs : char_set)
| Cat (r1 r2 : regex)
| Alt (r1 r2 : regex)
| Opt (r : regex)                    (* (r)? *)
| AtLeast (n : nat) (cs : char_set)  (* cs{n,} ; cs+ is AtLeast 1 cs *)
| WordBoundary                       (* \b *)
| LookBehind (cs : char_set).        (* (?<=cs) *)

Record RegExp : Type := mkRegExp {
  pattern : regex;
  ignoreCase : bool;   (* flag i *)
  global : bool        (* flag g *)
}.

(** Canonicalize of the specification, for patterns without the [u] flag:
    a code unit is mapped to its upper-case form, except that a code unit
    of 128 or more is never mapped below 128.  Every pattern character of
    the program is ASCII, so only the ASCII part of the mapping can decide
    a comparison; code units from 128 on are left as they are, which keeps
    them different from every canonicalized ASCII character. *)
Definition canonicalize (c : code_unit) : code_unit :=
  if ((97 <=? c) && (c <=? 122))%N then (c - 32)%N else c.

Definition same_char (ic : bool) (p c : code_unit) : bool :=
  if ic then N.eqb (canonicalize c) (canonicalize p) else N.eqb c p.

Definition in_set (ic : bool) (cs : char_set) (c : code_unit) : bool :=
  match cs with
  | One p => same_char ic p c
  | Among l => existsb (fun p => same_char ic p c) l
  | WhiteSpace => is_white_space c
  end.

(** A position in the subject: the text before it, reversed, and the text
    from it on. *)
Definition state := (jsstring * jsstring)%type.

Definition word_before (pre : jsstring) : bool :=
  match pre with c :: _ => is_word_char c | [] => false end.

(** The backtracking matcher as a list of successes: all end positions of
    a match of [r] starting at the given position, in the order in which
    backtracking tries them. *)
Fixpoint many (ic : bool) (cs : char_set) (n : nat) (pre suf : jsstring)
  : list state :=
  (match suf with
   | c :: tl => if in_set ic cs c then many ic cs (pred n) (c :: pre) tl else []
   | [] => []
   end) ++ (match n with O => [(pre, suf)] | S _ => [] end).

Fixpoint matcher (ic : bool) (r : regex) (pre suf : jsstring) : list state :=
  match r with
  | Empty => [(pre, suf)]
  | Chars cs =>
      match suf with
      | c :: tl => if in_set ic cs c then [(c :: pre, tl)] else []
      | [] => []
      end
  | Cat r1 r2 =>
      flat_map (fun st => matcher ic r2 (fst st) (snd st)) (matcher ic r1 pre suf)
  | Alt r1 r2 => matcher ic r1 pre suf ++ matcher ic r2 pre suf
  | Opt r1 =>
      (* an iteration that consumes nothing is rejected *)
      filter (fun st => negb (length (snd st) =? length suf))
             (matcher ic r1 pre suf) ++ [(pre, suf)]
  | AtLeast n cs => many ic cs n pre suf
  | WordBoundary =>
      if xorb (word_before pre) (word_before suf) then [(pre, suf)] else []
  | LookBehind cs =>
      match pre with
      | c :: _ => if in_set ic cs c then [(pre, suf)] else []
      | [] => []
      end
  end.

(** A match attempt at one position: the number of code units matched. *)
Definition exec_at (rx : RegExp) (pre suf : jsstring) : option nat :=
  match matcher (ignoreCase rx) (pattern rx) pre suf with
  | st :: _ => Some (length suf - length (snd st))
  | [] => None
  end.

(** [rx.test(s)] for a pattern without the [g] flag: is there a match at
    some position, tried from left to right. *)
Fixpoint test_from (rx : RegExp) (pre suf : jsstring) : bool :=
  match exec_at rx pre suf with
  | Some _ => true
  | None =>
      match suf with
      | [] => false
      | c :: tl => test_from rx (c :: pre) tl
      end
  end.

Definition test (rx : RegExp) (s : jsstring) : bool := test_from rx [] s.

(** [s.replace(rx, repl)] with a replacement string without [$].  With the
    [g] flag every match is replaced, scanning from left to right; after
    an empty match the scan moves on by one code unit.  [skip] counts the
    code units of the current match still to be passed over. *)
Fixpoint replace_all_from (rx : RegExp) (repl pre suf : jsstring) (skip : nat)
  : jsstring :=
  match suf with
  | [] =>
      match skip with
      | O => match exec_at rx pre [] with Some _ => repl | None => [] end
      | S _ => []
      end
  | c :: tl =>
      match skip with
      | S n => replace_all_from rx repl (c :: pre) tl n
      | O =>
          match exec_at rx pre suf with
          | Some O => repl ++ c :: replace_all_from rx repl (c :: pre) tl 0
          | Some (S n) => repl ++ replace_all_from rx repl (c :: pre) tl n
          | None => c :: replace_all_from rx repl (c :: pre) tl 0
          end
      end
  end.

Fixpoint replace_first_from (rx : RegExp) (repl pre suf : jsstring) : jsstring :=
  match exec_at rx pre suf with
  | Some n => repl ++ skipn n suf
  | None =>
      match suf with
      | [] => []
      | c :: tl => c :: replace_first_from rx repl (c :: pre) tl
      end
  end.

Definition replace (rx : RegExp) (repl : jsstring) (s : jsstring) : jsstring :=
  if global rx then replace_all_from rx repl [] s 0
  else replace_first_from rx repl [] s.

(** [s.split(rx)] for a separator pattern without capture groups and
    without a limit.  [cur] is the current piece, reversed; a match that
    ends where the current piece starts is passed over. *)
Fixpoint split_from (rx : RegExp) (pre suf : jsstring) (skip : nat)
  (cur : jsstring) : list jsstring :=
  match suf with
  | [] => [rev cur]
  | c :: tl =>
      match skip with
      | S n => split_from rx (c :: pre) tl n []
      | O =>
          match exec_at rx pre suf with
          | Some O =>
              match cur with
              | [] => split_from rx (c :: pre) tl 0 [c]
              | _ :: _ => rev cur :: split_from rx (c :: pre) tl 0 [c]
              end
          | Some (S n) => rev cur :: split_from rx (c :: pre) tl n []
          | None => split_from rx (c :: pre) tl 0 (c :: cur)
          end
      end
  end.

Definition split (rx : RegExp) (s : jsstring) : list jsstring :=
  match s with
  | [] => match exec_at rx [] [] with Some _ => [] | None => [[]] end
  | _ :: _ => split_from rx [] s 0 []
  end.

(** The pattern of a source text that has no syntax character: the
    sequence of its pattern characters. *)
Definition syntax_character (c : code_unit) : bool :=
  existsb (N.eqb c) (lit "^$\.*+?()[]{}|/").

Fixpoint literal (src : jsstring) : regex :=
  match src with
  | [] => Empty
  | c :: tl => Cat (Chars (One c)) (literal tl)
  end.

(** [new RegExp(src, 'g')], for a source text without syntax characters *)
Definition RegExp_new_g (src : jsstring) : RegExp :=
  {| pattern := literal src; ignoreCase := false; global := true |}.

(** Pattern building blocks *)
Definition word (s : string) : regex := literal (lit s).

Fixpoint seq (l : list regex) : regex :=
  match l with
  | [] => Empty
  | [r] => r
  | r :: tl => Cat r (seq tl)
  end.

Fixpoint alt (l : list regex) : regex :=
  match l with
  | [] => Empty
  | [r] => r
  | r :: tl => Alt r (alt tl)
  end.

End JS.

Import JS.

(* ================================================================== *)
(** * content.js *)
(* ================================================================== *)

Module ContentJs.

(** [/\n+/g] *)
Definition rx_newlines : RegExp :=
  {| pattern := AtLeast 1 (One 10%N); ignoreCase := false; global := true |}.

(** [/(?<=[.!?])\s+/] *)
Definition rx_sentence_gap : RegExp :=
  {| pattern := Cat (LookBehind (Among (lit ".!?"))) (AtLeast 1 WhiteSpace);
     ignoreCase := false; global := false |}.

Definition splitSentences (text : jsstring) : list jsstring :=
  filter_Boolean
    (map trim (split rx_sentence_gap (replace rx_newlines (lit " ") text))).

Record ranked_sentence : Type := mkRanked { sent : jsstring; len : nat }.

Definition localSummarize (text : jsstring) (maxSentences : nat) : jsstring :=
  if falsy text then []
  else
    let s := splitSentences text in
    if length s <=? maxSentences then join (lit " ") s
    else
      let ranked :=
        sort (fun a b => (Z.of_nat (len b) - Z.of_nat (len a))%Z)
             (map (fun sent => {| sent := sent; len := length sent |}) s) in
      let top := map sent (slice0 maxSentences ranked) in
      join [10%N; 10%N] top.


(** ** The plain-language rewriter *)

Definition rx_ig (r : regex) : RegExp :=
  {| pattern := r; ignoreCase := true; global := true |}.

Definition LEGAL_MAP : list (RegExp * jsstring) :=
  [ (* /\byou (?:agree|acknowledge|consent) to\b/ig *)
    (rx_ig (seq [WordBoundary; word "you ";
                 alt [word "agree"; word "acknowledge"; word "consent"];
                 word " to"; WordBoundary]),
     lit "you agree to");
    (* /\bhereby\b/ig *)
    (rx_ig (seq [WordBoundary; word "hereby"; WordBoundary]),
     lit "this means");
    (* /\bto the extent permitted by law\b/ig *)
    (rx_ig (seq [WordBoundary; word "to the extent permitted by law";
                 WordBoundary]),
     lit "if the law allows it");
    (* /\bin the event of\b/ig *)
    (rx_ig (seq [WordBoundary; word "in the event of"; WordBoundary]),
     lit "if");
    (* /\bmay (?:be )?liable for\b/ig *)
    (rx_ig (seq [WordBoundary; word "may "; Opt (word "be ");
                 word "liable for"; WordBoundary]),
     lit "could be responsible for");
    (* /\bthird[- ]?party( data| services| providers)?\b/ig *)
    (rx_ig (seq [WordBoundary; word "third"; Opt (Chars (Among (lit "- ")));
                 word "party";
                 Opt (alt [word " data"; word " services"; word " providers"]);
                 WordBoundary]),
     lit "other companies");
    (* /\bauto-?renew(a|al)?\b/ig *)
    (rx_ig (seq [WordBoundary; word "auto"; Opt (word "-"); word "renew";
                 Opt (alt [word "a"; word "al"]); WordBoundary]),
     lit "auto-renewal (automatic renewal of service or payment)");
    (* /\bterminate(ion|ing)?\b/ig *)
    (rx_ig (seq [WordBoundary; word "terminate";
                 Opt (alt [word "ion"; word "ing"]); WordBoundary]),
     lit "end/stop") ].

(** [/\s{2,}/g] *)
Definition rx_spaces : RegExp :=
  {| pattern := AtLeast 2 WhiteSpace; ignoreCase := false; global := true |}.

Definition localRewrite (text : jsstring) : jsstring :=
  if falsy text then []
  else
    let out :=
      fold_left (fun out rule => replace (fst rule) (snd rule) out)
                LEGAL_MAP text in
    (* collapse repeated whitespace *)
    trim (replace rx_spaces (lit " ") out).

(** ** The risk classifier *)

(** The level strings ['danger'], ['warning'] and ['safe']. *)
Inductive level : Type := danger | warning | safe.

Definition level_eqb (a b : level) : bool :=
  match a, b with
  | danger, danger | warning, warning | safe, safe => true
  | _, _ => false
  end.

Module Check.
Record t : Type := mk {
  key : jsstring; rx : RegExp; level : level; explain : jsstring }.
End Check.

Module Clause.
Record t : Type := mk { id : jsstring; level : level; explain : jsstring }.
End Clause.

Record classification : Type := mkClassification {
  overall : level;
  items : list Clause.t
}.

Definition rx_i (r : regex) : RegExp :=
  {| pattern := r; ignoreCase := true; global := false |}.

Definition checks : list Check.t :=
  [ Check.mk (lit "auto-renew")
      (* /auto-?renew|renewal/i *)
      (rx_i (alt [seq [word "auto"; Opt (word "-"); word "renew"];
                  word "renewal"]))
      danger (lit "Automatic renewal or subscription renewal clause");
    Check.mk (lit "fees")
      (* /fee|charge|cost|billing/i *)
      (rx_i (alt [word "fee"; word "charge"; word "cost"; word "billing"]))
      warning (lit "Mentions fees, charges or billing terms");
    Check.mk (lit "data-sharing")
      (* /share your data|third[- ]?party|personal data|process personal data/i *)
      (rx_i (alt [word "share your data";
                  seq [word "third"; Opt (Chars (Among (lit "- ")));
                       word "party"];
                  word "personal data"; word "process personal data"]))
      warning (lit "Mentions sharing or processing of personal data");
    Check.mk (lit "waiver")
      (* /waive|waiver|limit liability|limitation of liability/i *)
      (rx_i (alt [word "waive"; word "waiver"; word "limit liability";
                  word "limitation of liability"]))
      danger (lit "Limits your ability to sue or reduces liability");
    Check.mk (lit "dispute")
      (* /arbitration|dispute resolution|class action waiver/i *)
      (rx_i (alt [word "arbitration"; word "dispute resolution";
                  word "class action waiver"]))
      warning (lit "Requires arbitration or limits dispute options") ].

Definition clause_of (c : Check.t) : Clause.t :=
  Clause.mk (Check.key c) (Check.level c) (Check.explain c).

(** The unused binding [lowered = text.toLowerCase()] has no effect and is
    left out. *)
Definition localClassify (text : jsstring) : classification :=
  if falsy text then {| overall := safe; items := [] |}
  else
    let clauses :=
      map clause_of (filter (fun c => test (Check.rx c) text) checks) in
    let overall :=
      if existsb (fun c => level_eqb (Clause.level c) danger) clauses
      then danger
      else if negb (length clauses =? 0) then warning
      else safe in
    {| overall := overall; items := clauses |}.

(** ** The phrase translator *)

(** The object [TRANSLATIONS] as the list of its own properties, each the
    list of entries of the inner object in insertion order.  The Spanish
    texts hold the code units 225, 233 and 243 (a, e and o with acute
    accent). *)
Definition TRANSLATIONS : list (jsstring * list (jsstring * jsstring)) :=
  [ (lit "es",
     [ (lit "Automatic renewal or subscription renewal clause",
        lit "Cl" ++ [225%N] ++ lit "usula de renovaci" ++ [243%N]
          ++ lit "n autom" ++ [225%N] ++ lit "tica o suscripci" ++ [243%N]
          ++ lit "n");
       (lit "Mentions fees, charges or billing terms",
        lit "Menciona tarifas, cargos o t" ++ [233%N]
          ++ lit "rminos de facturaci" ++ [243%N] ++ lit "n");
       (lit "Mentions sharing or processing of personal data",
        lit "Menciona el intercambio o procesamiento de datos personales");
       (lit "Limits your ability to sue or reduces liability",
        lit "Limita su capacidad para demandar o reduce la responsabilidad");
       (lit "Requires arbitration or limits dispute options",
        lit "Requiere arbitraje o limita las opciones de disputa") ]) ].

(** [Object.entries(TRANSLATIONS[lang] || {})].  A [lang] that names a
    member inherited from [Object.prototype] yields an object without own
    enumerable properties, hence no entries either. *)
Fixpoint entries_for (lang : jsstring)
  (table : list (jsstring * list (jsstring * jsstring)))
  : list (jsstring * jsstring) :=
  match table with
  | [] => []
  | (l, m) :: tl => if str_eqb lang l then m else entries_for lang tl
  end.

(** The template [`\n\n[Translated to ${lang} (approx)]`] *)
Definition approx_marker (lang : jsstring) : jsstring :=
  [10%N; 10%N] ++ lit "[Translated to " ++ lang ++ lit " (approx)]".

Definition localTranslate (text lang : jsstring) : jsstring :=
  if falsy text then []
  else if str_eqb lang (lit "en") then text
  else
    let out :=
      fold_left (fun out kv => replace (RegExp_new_g (fst kv)) (snd kv) out)
                (entries_for lang TRANSLATIONS) text in
    out ++ (if str_eqb out text then approx_marker lang else []).

(** ** The orchestrator [runPipeline]

    [runPipeline] is an async function whose effects are: the call of
    [createSidebar], calls of the remote service (each may reject or
    throw), one read of the window selection, and writes to the fields of
    the sidebar element that [createSidebar] returned.  What follows the
    call of [createSidebar] is modelled in a state monad with exceptions.
    The state holds the world outside the page, the element [sb] ([None]
    when [createSidebar] returned null) and the frame of the function's
    own variables, so that an assignment made inside a [try] block before
    a failure is still there when the handler runs. *)

Inductive completion (A : Type) : Type :=
| Normal (a : A)
| Throw.
Arguments Throw {A}.

(** One rendered risk: the badge class, the badge text
    ([it.level.toUpperCase()]) and the explanation shown next to it. *)
Record risk_row : Type := mkRow {
  badge_class : jsstring; badge_text : jsstring; label : jsstring }.

(** The sidebar element as [createSidebar] builds it, with the five
    children that [runPipeline] writes to.  [cd_input] is what
    [#cd-input .value] reads; [cd_summary], [cd_plain] and [cd_confidence]
    are the strings last assigned to the [innerText] of their elements. *)
Record Sidebar : Type := mkSidebar {
  cd_input : jsstring;        (* #cd-input .value, as it reads *)
  cd_summary : jsstring;      (* assigned to #cd-summary .innerText *)
  cd_plain : jsstring;        (* assigned to #cd-plain .innerText *)
  cd_risks : list risk_row;   (* children of #cd-risks *)
  cd_confidence : jsstring    (* assigned to #cd-confidence .innerText *)
}.

(** The element right after [sb.innerHTML = ...] *)
Definition fresh_sidebar : Sidebar := mkSidebar [] [] [] [] [].

(** The value of a textarea reads with its newlines normalised: every
    pair CR LF, and every CR that is left, reads as one LF. *)
Fixpoint normalize_newlines (s : jsstring) : jsstring :=
  match s with
  | [] => []
  | c :: tl =>
      if (c =? 13)%N then
        10%N :: match tl with
                | d :: tl' =>
                    if (d =? 10)%N then normalize_newlines tl'
                    else normalize_newlines tl
                | [] => []
                end
      else c :: normalize_newlines tl
  end.

(** What [createSidebar] and [injectStyles] ask of the page, and the
    script's variable [sidebarInjected]. *)
Record Document : Type := mkDocument {
  sidebarInjected : bool;   (* let sidebarInjected *)
  styles_injected : bool;   (* getElementById('contract-decoder-styles')
                               finds an element *)
  has_head : bool;          (* document.head is not null *)
  has_body : bool           (* document.body is not null *)
}.

(** [injectStyles()]: nothing to do when the style element is there;
    otherwise [document.head.appendChild(s)], which throws without a
    head. *)
Definition injectStyles (d : Document) : completion unit * Document :=
  if styles_injected d then (Normal tt, d)
  else if has_head d
       then (Normal tt,
             mkDocument (sidebarInjected d) true (has_head d) (has_body d))
       else (Throw, d).

(** [createSidebar()].  [found] is what
    [document.getElementById('contract-decoder-sidebar')] finds, [None]
    for null; an element under this id is one that the script built.
    With the flag set the function returns just that, null
    included: the close button removes the element and clears the flag,
    but an element removed in any other way leaves the flag set.  With the
    flag clear it injects the styles, builds a new element, appends it to
    the body, which throws without a body, sets the flag and returns the
    new element. *)
Definition createSidebar (found : option Sidebar) (d : Document)
  : completion (option Sidebar) * Document :=
  if sidebarInjected d then (Normal found, d)
  else
    match injectStyles d with
    | (Throw, d') => (Throw, d')
    | (Normal _, d') =>
        if has_body d'
        then (Normal (Some fresh_sidebar),
              mkDocument true (styles_injected d') (has_head d') (has_body d'))
        else (Throw, d')
    end.

(** The variables of one call of [runPipeline]. *)
Record Frame : Type := mkFrame {
  v_text : jsstring;
  v_summary : jsstring;
  v_plain : jsstring;
  v_translatedSummary : jsstring;
  v_translatedPlain : jsstring;
  v_classification : option classification  (* [None] before its [const] *)
}.

Definition level_string (l : level) : jsstring :=
  match l with
  | danger => lit "danger" | warning => lit "warning" | safe => lit "safe"
  end.

Definition level_upper (l : level) : jsstring :=
  match l with
  | danger => lit "DANGER" | warning => lit "WARNING" | safe => lit "SAFE"
  end.

Definition badge_of (l : level) : jsstring :=
  match l with
  | danger => lit "cd-danger" | warning => lit "cd-warning"
  | safe => lit "cd-safe"
  end.

Definition confidence_of (l : level) : jsstring :=
  match l with
  | danger => lit "High risk detected" | warning => lit "Some issues"
  | safe => lit "Looks safe"
  end.

Definition render_risk (lang : jsstring) (it : Clause.t) : risk_row :=
  {| badge_class := badge_of (Clause.level it);
     badge_text := level_upper (Clause.level it);
     label := localTranslate (Clause.explain it) lang |}.

(** The em dash shown for an empty output. *)
Definition dash : jsstring := [8212%N].

Definition explain_prompt (text : jsstring) : jsstring :=
  lit "Please explain the following text in simple terms:"
    ++ [10%N; 10%N] ++ text.

Section Pipeline.

(** What lies outside the content script: the configuration, the remote
    service and the window selection. *)
Variable World : Type.
(** [window.__contractDecoder_config && ... API_KEY && ... googleAI] *)
Variable api_configured : World -> bool.
(** [window.getSelection().toString()] *)
Variable selection : World -> jsstring.
(** The three operations reached through [window.googleAI]; [Throw]
    stands for a rejected promise as well as for a call that throws. *)
Variable summarizeText : jsstring -> World -> completion jsstring * World.
Variable generateText : jsstring -> World -> completion jsstring * World.
Variable translateText :
  jsstring -> jsstring -> World -> completion jsstring * World.

(** [sidebar] is the element held in [const sb]: [None] is null. *)
Record Machine : Type := mkMachine {
  world : World;
  sidebar : option Sidebar;
  frame : Frame
}.

Definition M (A : Type) : Type := Machine -> completion A * Machine.

Definition ret {A} (a : A) : M A := fun m => (Normal a, m).

Definition bind {A B} (c : M A) (k : A -> M B) : M B :=
  fun m =>
    match c m with
    | (Normal a, m') => k a m'
    | (Throw, m') => (Throw, m')
    end.

Definition try_catch {A} (body handler : M A) : M A :=
  fun m =>
    match body m with
    | (Normal a, m') => (Normal a, m')
    | (Throw, m') => handler m'
    end.

Notation "'do' x <- c ; k" := (bind c (fun x => k))
  (at level 10, x name, c at level 100, k at level 200).
Notation "c ;; k" := (bind c (fun _ => k))
  (at level 100, k at level 200, right associativity).

Definition await {A} (call : World -> completion A * World) : M A :=
  fun m =>
    let (r, w) := call (world m) in
    (r, mkMachine w (sidebar m) (frame m)).

Definition read {A} (f : World -> A) : M A :=
  fun m => (Normal (f (world m)), m).

Definition var {A} (f : Frame -> A) : M A :=
  fun m => (Normal (f (frame m)), m).

Definition assign (f : Frame -> Frame) : M unit :=
  fun m => (Normal tt, mkMachine (world m) (sidebar m) (f (frame m))).

(** A write to an element of the sidebar, [sb.querySelector(...)... = x];
    when [sb] is null the lookup throws. *)
Definition write (f : Sidebar -> Sidebar) : M unit :=
  fun m =>
    match sidebar m with
    | Some sb => (Normal tt, mkMachine (world m) (Some (f sb)) (frame m))
    | None => (Throw, m)
    end.

Definition set_text x (f : Frame) :=
  mkFrame x (v_summary f) (v_plain f) (v_translatedSummary f)
          (v_translatedPlain f) (v_classification f).
Definition set_summary x (f : Frame) :=
  mkFrame (v_text f) x (v_plain f) (v_translatedSummary f)
          (v_translatedPlain f) (v_classification f).
Definition set_plain x (f : Frame) :=
  mkFrame (v_text f) (v_summary f) x (v_translatedSummary f)
          (v_translatedPlain f) (v_classification f).
Definition set_translatedSummary x (f : Frame) :=
  mkFrame (v_text f) (v_summary f) (v_plain f) x
          (v_translatedPlain f) (v_classification f).
Definition set_translatedPlain x (f : Frame) :=
  mkFrame (v_text f) (v_summary f) (v_plain f) (v_translatedSummary f)
          x (v_classification f).
Definition set_classification x (f : Frame) :=
  mkFrame (v_text f) (v_summary f) (v_plain f) (v_translatedSummary f)
          (v_translatedPlain f) (Some x).

Definition put_input x (sb : Sidebar) :=
  mkSidebar (normalize_newlines x) (cd_summary sb) (cd_plain sb) (cd_risks sb)
            (cd_confidence sb).
Definition put_summary x (sb : Sidebar) :=
  mkSidebar (cd_input sb) x (cd_plain sb) (cd_risks sb) (cd_confidence sb).
Definition put_plain x (sb : Sidebar) :=
  mkSidebar (cd_input sb) (cd_summary sb) x (cd_risks sb) (cd_confidence sb).
Definition put_risks x (sb : Sidebar) :=
  mkSidebar (cd_input sb) (cd_summary sb) (cd_plain sb) x (cd_confidence sb).
Definition put_confidence x (sb : Sidebar) :=
  mkSidebar (cd_input sb) (cd_summary sb) (cd_plain sb) (cd_risks sb) x.

(** The local branch of the first step *)
Definition local_summary_and_plain : M unit :=
  do text <- var v_text;
  assign (set_summary (localSummarize text 3)) ;;
  assign (set_plain (localRewrite text)).

(** [if (hasAPI) { try { ... } catch (e) { ... } } else { ... }] for the
    summary and the plain-language text *)
Definition summarize_and_explain (hasAPI : bool) : M unit :=
  if hasAPI then
    try_catch
      (do text <- var v_text;
       do s <- await (summarizeText text);
       assign (set_summary (or_else s [])) ;;
       do p <- await (generateText (explain_prompt text));
       assign (set_plain (or_else p [])))
      local_summary_and_plain
  else local_summary_and_plain.

Definition local_translation (lang : jsstring) : M unit :=
  do summary <- var v_summary;
  assign (set_translatedSummary (localTranslate summary lang)) ;;
  do plain <- var v_plain;
  assign (set_translatedPlain (localTranslate plain lang)).

(** [if (lang !== 'en') { ... } else { ... }] for the translation *)
Definition translate_outputs (hasAPI : bool) (lang : jsstring) : M unit :=
  if negb (str_eqb lang (lit "en")) then
    if hasAPI then
      try_catch
        (do summary <- var v_summary;
         do ts <- await (translateText summary lang);
         assign (set_translatedSummary ts) ;;
         do plain <- var v_plain;
         do tp <- await (translateText plain lang);
         assign (set_translatedPlain tp))
        (local_translation lang)
    else local_translation lang
  else
    (do summary <- var v_summary;
     assign (set_translatedSummary summary) ;;
     do plain <- var v_plain;
     assign (set_translatedPlain plain)).

(** The function from line 374 on, [sb] being in the machine *)
Definition runPipeline_body (lang : jsstring) : M unit :=
  do text0 <- var v_text;
  (if falsy text0
   then do sel <- read selection; assign (set_text (or_else sel []))
   else ret tt) ;;
  do text <- var v_text;
  write (put_input text) ;;
  do hasAPI <- read api_configured;
  summarize_and_explain hasAPI ;;
  translate_outputs hasAPI lang ;;
  do translatedSummary <- var v_translatedSummary;
  write (put_summary (or_else translatedSummary dash)) ;;
  do translatedPlain <- var v_translatedPlain;
  write (put_plain (or_else translatedPlain dash)) ;;
  let classification := localClassify text in
  assign (set_classification classification) ;;
  write (put_risks (map (render_risk lang) (items classification))) ;;
  write (put_confidence (confidence_of (overall classification))).

(** A call [runPipeline(text, lang)] in a world [w], with a page where
    the sidebar lookup finds [found] and [createSidebar] sees [d]: the
    completion of the returned promise, the machine at that point and
    what [createSidebar] left of [d].  An exception of [createSidebar]
    rejects the promise at once. *)
Definition runPipeline (text lang : jsstring) (w : World)
  (found : option Sidebar) (d : Document)
  : completion unit * Machine * Document :=
  match createSidebar found d with
  | (Normal sb, d') =>
      (runPipeline_body lang (mkMachine w sb (mkFrame text [] [] [] [] None)),
       d')
  | (Throw, d') => (Throw, mkMachine w None (mkFrame text [] [] [] [] None), d')
  end.

End Pipeline.

End ContentJs.

Import ContentJs.

(* ================================================================== *)
(** * The specification's wording, as definitions of their own *)
(* ================================================================== *)

Module Spec.

(** The sentence-terminal punctuation marks [.], [!] and [?]. *)
Definition is_terminal (c : code_unit) : bool :=
  ((c =? 46) || (c =? 33) || (c =? 63))%N.

Definition is_newline (c : code_unit) : bool := (c =? 10)%N.

(** "Collapse all newline run sequences to a single space": the first
    newline of a run becomes a space, the others disappear. *)
Fixpoint collapse_newlines (in_run : bool) (s : jsstring) : jsstring :=
  match s with
  | [] => []
  | c :: tl =>
      if is_newline c then
        if in_run then collapse_newlines true tl
        else 32%N :: collapse_newlines true tl
      else c :: collapse_newlines false tl
  end.

Definition ends_with_terminal (rev_piece : jsstring) : bool :=
  match rev_piece with c :: _ => is_terminal c | [] => false end.

(** "Split on whitespace immediately following a sentence-terminal
    punctuation mark": a piece is closed when white space follows a
    terminal mark, and the whole run of white space is the gap.  [cur] is
    the piece being read, reversed. *)
Fixpoint split_gaps (in_gap : bool) (cur : jsstring) (s : jsstring)
  : list jsstring :=
  match s with
  | [] => [rev cur]
  | c :: tl =>
      if is_white_space c then
        if in_gap then split_gaps true [] tl
        else if ends_with_terminal cur then rev cur :: split_gaps true [] tl
        else split_gaps false (c :: cur) tl
      else split_gaps false (c :: cur) tl
  end.

(** Section 4.1 *)
Definition segment (text : jsstring) : list jsstring :=
  filter (fun piece => negb (falsy piece))
    (map trim (split_gaps false [] (collapse_newlines false text))).

(** "Collapse any run of two or more whitespace characters to a single
    space"; a white-space character on its own stays as it is. *)
Fixpoint collapse_spaces (in_run : bool) (s : jsstring) : jsstring :=
  match s with
  | [] => []
  | c :: tl =>
      if is_white_space c then
        if in_run then collapse_spaces true tl
        else if (match tl with d :: _ => is_white_space d | [] => false end)
             then 32%N :: collapse_spaces true tl
             else c :: collapse_spaces false tl
      else c :: collapse_spaces false tl
  end.

(** A rule of section 4.3: the parts of its pattern and its replacement. *)
Definition rule : Type := (list regex * jsstring)%type.

(** The rule set as section 4.3 lists it. *)
Definition rules_as_listed : list rule :=
  [ ([word "you "; alt [word "agree"; word "acknowledge"; word "consent"];
      word " to"],
     lit "you agree to");
    ([word "hereby"], lit "this means");
    ([word "to the extent permitted by law"], lit "if the law allows it");
    ([word "in the event of"], lit "if");
    ([word "may "; Opt (word "be "); word "liable for"],
     lit "could be responsible for");
    ([word "third"; Opt (Chars (Among (lit "- "))); word "party";
      Opt (alt [word " data"; word " services"; word " providers"])],
     lit "other companies");
    ([word "auto"; Opt (word "-"); word "renew"; Opt (word "al")],
     lit "auto-renewal (automatic renewal of service or payment)");
    ([word "terminate"; Opt (alt [word "ion"; word "ing"])],
     lit "end/stop") ].

(** The same rule set with rule 7 reading [auto-?renew(a|al)?]. *)
Definition rules_as_coded : list rule :=
  [ ([word "you "; alt [word "agree"; word "acknowledge"; word "consent"];
      word " to"],
     lit "you agree to");
    ([word "hereby"], lit "this means");
    ([word "to the extent permitted by law"], lit "if the law allows it");
    ([word "in the event of"], lit "if");
    ([word "may "; Opt (word "be "); word "liable for"],
     lit "could be responsible for");
    ([word "third"; Opt (Chars (Among (lit "- "))); word "party";
      Opt (alt [word " data"; word " services"; word " providers"])],
     lit "other companies");
    ([word "auto"; Opt (word "-"); word "renew";
      Opt (alt [word "a"; word "al"])],
     lit "auto-renewal (automatic renewal of service or payment)");
    ([word "terminate"; Opt (alt [word "ion"; word "ing"])],
     lit "end/stop") ].

(** A pattern matched anywhere in the text, case-insensitively, every
    match replaced. *)
Definition anywhere (parts : list regex) : RegExp :=
  {| pattern := seq parts; ignoreCase := true; global := true |}.

(** The same, with a word boundary required on both sides of a match. *)
Definition whole_words (parts : list regex) : RegExp :=
  {| pattern := seq ([WordBoundary] ++ parts ++ [WordBoundary]);
     ignoreCase := true; global := true |}.

(** Section 4.3: the rules in sequence, each on the output of the ones
    before, then the white-space clean-up. *)
Definition rewrite_with (how : list regex -> RegExp) (rules : list rule)
  (text : jsstring) : jsstring :=
  trim (collapse_spaces false
          (fold_left (fun t r => replace (how (fst r)) (snd r) t) rules text)).

Definition rewrite (text : jsstring) : jsstring :=
  rewrite_with anywhere rules_as_listed text.

(** What it means for a pattern to match, said without reference to any
    search order: [matches ic r before w after] holds when the pattern [r]
    matches the code units [w] standing between the text [before]
    (reversed) and the text [after]. *)
Inductive matches (ic : bool) : regex -> jsstring -> jsstring -> jsstring -> Prop :=
| M_Empty before after :
    matches ic Empty before [] after
| M_Chars cs c before after :
    in_set ic cs c = true ->
    matches ic (Chars cs) before [c] after
| M_Cat r1 r2 w1 w2 before after :
    matches ic r1 before w1 (w2 ++ after) ->
    matches ic r2 (rev w1 ++ before) w2 after ->
    matches ic (Cat r1 r2) before (w1 ++ w2) after
| M_Alt_l r1 r2 w before after :
    matches ic r1 before w after ->
    matches ic (Alt r1 r2) before w after
| M_Alt_r r1 r2 w before after :
    matches ic r2 before w after ->
    matches ic (Alt r1 r2) before w after
| M_Opt_none r before after :
    matches ic (Opt r) before [] after
| M_Opt_some r w before after :
    matches ic r before w after ->
    w <> [] ->
    matches ic (Opt r) before w after
| M_AtLeast n cs w before after :
    n <= length w ->
    Forall (fun c => in_set ic cs c = true) w ->
    matches ic (AtLeast n cs) before w after
| M_WordBoundary before after :
    xorb (word_before before) (word_before after) = true ->
    matches ic WordBoundary before [] after
| M_LookBehind cs c before after :
    in_set ic cs c = true ->
    matches ic (LookBehind cs) (c :: before) [] after.

(** The text contains a match of the pattern. *)
Definition contains (rx : RegExp) (text : jsstring) : Prop :=
  exists a w b,
    text = a ++ w ++ b
    /\ matches (ignoreCase rx) (pattern rx) (rev a) w b.

(** The five categories of section 4.4 with their severities. *)
Definition categories : list (jsstring * level) :=
  [ (lit "auto-renew", danger); (lit "fees", warning);
    (lit "data-sharing", warning); (lit "waiver", danger);
    (lit "dispute", warning) ].

(** "Overall severity = danger if any finding is danger; else warning if
    any finding exists; else safe." *)
Definition overall_of (findings : list Clause.t) : level :=
  if existsb (fun f => level_eqb (Clause.level f) danger) findings then danger
  else match findings with [] => safe | _ :: _ => warning end.

(** How many findings carry a given category id. *)
Definition count_id (id : jsstring) (findings : list Clause.t) : nat :=
  length (filter (fun f => str_eqb (Clause.id f) id) findings).

(** Section 4.5: a phrase as a case-sensitive literal. *)
Fixpoint starts_with (k s : jsstring) : bool :=
  match k, s with
  | [], _ => true
  | a :: k', b :: s' => N.eqb b a && starts_with k' s'
  | _ :: _, [] => false
  end.

(** Replace all occurrences of the phrase [k] by [v], from left to right;
    [skip] counts the code units of the occurrence just replaced that are
    still to be passed over. *)
Fixpoint replace_phrase_from (k v s : jsstring) (skip : nat) : jsstring :=
  match s with
  | [] => []
  | c :: tl =>
      match skip with
      | S n => replace_phrase_from k v tl n
      | O =>
          if starts_with k s
          then v ++ replace_phrase_from k v tl (length k - 1)
          else c :: replace_phrase_from k v tl 0
      end
  end.

Definition replace_phrase (k v s : jsstring) : jsstring :=
  replace_phrase_from k v s 0.

(** The number of occurrences that [replace_phrase] replaces. *)
Fixpoint occurrences_from (k s : jsstring) (skip : nat) : nat :=
  match s with
  | [] => 0
  | c :: tl =>
      match skip with
      | S n => occurrences_from k tl n
      | O =>
          if starts_with k s
          then S (occurrences_from k tl (length k - 1))
          else occurrences_from k tl 0
      end
  end.

Definition occurrences (k s : jsstring) : nat := occurrences_from k s 0.

(** The fixed translation map: Spanish only. *)
Definition phrases (lang : jsstring) : list (jsstring * jsstring) :=
  if str_eqb lang (lit "es") then
    [ (lit "Automatic renewal or subscription renewal clause",
       lit "Cl" ++ [225%N] ++ lit "usula de renovaci" ++ [243%N]
         ++ lit "n autom" ++ [225%N] ++ lit "tica o suscripci" ++ [243%N]
         ++ lit "n");
      (lit "Mentions fees, charges or billing terms",
       lit "Menciona tarifas, cargos o t" ++ [233%N]
         ++ lit "rminos de facturaci" ++ [243%N] ++ lit "n");
      (lit "Mentions sharing or processing of personal data",
       lit "Menciona el intercambio o procesamiento de datos personales");
      (lit "Limits your ability to sue or reduces liability",
       lit "Limita su capacidad para demandar o reduce la responsabilidad");
      (lit "Requires arbitration or limits dispute options",
       lit "Requiere arbitraje o limita las opciones de disputa") ]
  else [].

(** The text after all phrase pairs have been applied in turn. *)
Definition substitute (ps : list (jsstring * jsstring)) (text : jsstring)
  : jsstring :=
  fold_left (fun t kv => replace_phrase (fst kv) (snd kv) t) ps text.

(** The number of substitutions made on the way. *)
Fixpoint substitutions (ps : list (jsstring * jsstring)) (text : jsstring)
  : nat :=
  match ps with
  | [] => 0
  | kv :: tl =>
      occurrences (fst kv) text
      + substitutions tl (replace_phrase (fst kv) (snd kv) text)
  end.

(** Section 4.5, as worded: no case for the empty text. *)
Definition translate (text lang : jsstring) : jsstring :=
  if str_eqb lang (lit "en") then text
  else
    let out := substitute (phrases lang) text in
    out ++ (if substitutions (phrases lang) text =? 0
            then approx_marker lang else []).

(** Ranking of section 4.2: by character length, longest first ... *)
Definition by_length_desc (l : list jsstring) : Prop :=
  StronglySorted (fun a b => length b <= length a) l.

(** ... sentences of equal length keeping the order they have in [s]. *)
Definition ties_in_order_of (s l : list jsstring) : Prop :=
  forall k, filter (fun x => length x =? k) l
            = filter (fun x => length x =? k) s.

(** [ranked] is the ranking of the sentence list [s]. *)
Definition ranking_of (s ranked : list jsstring) : Prop :=
  Permutation ranked s /\ by_length_desc ranked /\ ties_in_order_of s ranked.

End Spec.

(* ================================================================== *)
(** * content.js: the extraction half *)
(* ================================================================== *)

(** A state monad with exceptions over any state, for the scripts below. *)
Module Script.
Section WithState.
Variable S : Type.

Definition M (A : Type) : Type := S -> completion A * S.

Definition ret {A} (a : A) : M A := fun st => (Normal a, st).

Definition throw {A} : M A := fun st => (Throw, st).

Definition bind {A B} (c : M A) (k : A -> M B) : M B :=
  fun st =>
    match c st with
    | (Normal a, st') => k a st'
    | (Throw, st') => (Throw, st')
    end.

Definition try_catch {A} (body handler : M A) : M A :=
  fun st =>
    match body st with
    | (Normal a, st') => (Normal a, st')
    | (Throw, st') => handler st'
    end.

Definition get {A} (f : S -> A) : M A := fun st => (Normal (f st), st).

Definition modify (f : S -> S) : M unit := fun st => (Normal tt, f st).

End WithState.

Arguments ret {S A} a st.
Arguments throw {S A} st.
Arguments bind {S A B} c k st.
Arguments try_catch {S A} body handler st.
Arguments get {S A} f st.
Arguments modify {S} f st.

End Script.

Module ContentScript.

(** An element of the page as far as the script reads it.  [None] stands
    for a property that is undefined on the element. *)
Record Element : Type := mkElement {
  offsetWidth : option N;
  offsetHeight : option N;
  clientRects : nat;                    (* getClientRects().length *)
  innerText : option jsstring;
  innerHTML : jsstring;
  paragraphs : list (option jsstring)   (* innerText of each element of
                                           querySelectorAll('p') *)
}.

Definition number_truthy (o : option N) : bool :=
  match o with Some n => negb (n =? 0)%N | None => false end.

(** [c.offsetWidth || c.offsetHeight || c.getClientRects().length] *)
Definition visible (c : Element) : bool :=
  number_truthy (offsetWidth c) || number_truthy (offsetHeight c)
  || negb (clientRects c =? 0).

(** [o || ''] for a string or undefined *)
Definition text_or_empty (o : option jsstring) : jsstring :=
  match o with Some s => s | None => [] end.

(** [(c.innerText || '').trim()] *)
Definition trimmed_text (c : Element) : jsstring :=
  trim (text_or_empty (innerText c)).

(** The loop of [findLargestTextNode]: the pair of [best] and [bestLen]. *)
Definition largest_step (acc : option Element * nat) (c : Element)
  : option Element * nat :=
  if negb (visible c) then acc
  else
    let text := trimmed_text c in
    if snd acc <? length text then (Some c, length text) else acc.

(** [findLargestTextNode()], given the elements that
    [querySelectorAll('div, article, main, section, p')] returns *)
Definition findLargestTextNode (candidates : list Element) : option Element :=
  fst (fold_left largest_step candidates (None, 0)).

(** [p.innerText && p.innerText.trim()] *)
Definition paragraph_text (p : option jsstring) : option jsstring :=
  match p with
  | Some s => if falsy s then Some s else Some (trim s)
  | None => None
  end.

Definition truthy_text (o : option jsstring) : bool :=
  match o with Some s => negb (falsy s) | None => false end.

Definition extractParagraphsFromNode (node : option Element) : jsstring :=
  match node with
  | None => []
  | Some n =>
      let pList :=
        map text_or_empty
            (filter truthy_text (map paragraph_text (paragraphs n))) in
      if negb (length pList =? 0) then join [10%N; 10%N] pList
      else trim (text_or_empty (innerText n))
  end.

(** Patterns with the assertions [^] and [$] (no [m] flag) around
    patterns of the fragment above. *)
Inductive anchored : Type :=
| Plain (r : regex)
| AtStart                      (* ^ *)
| AtEnd                        (* $ *)
| Then (a b : anchored)
| Either (a b : anchored).

Fixpoint amatcher (ic : bool) (a : anchored) (pre suf : jsstring)
  : list state :=
  match a with
  | Plain r => matcher ic r pre suf
  | AtStart => match pre with [] => [(pre, suf)] | _ :: _ => [] end
  | AtEnd => match suf with [] => [(pre, suf)] | _ :: _ => [] end
  | Then a1 a2 =>
      flat_map (fun st => amatcher ic a2 (fst st) (snd st))
               (amatcher ic a1 pre suf)
  | Either a1 a2 => amatcher ic a1 pre suf ++ amatcher ic a2 pre suf
  end.

(** [rx.test(s)] for such a pattern with the flag [i] and without [g] *)
Fixpoint atest_from (a : anchored) (pre suf : jsstring) : bool :=
  match amatcher true a pre suf with
  | _ :: _ => true
  | [] =>
      match suf with
      | [] => false
      | c :: tl => atest_from a (c :: pre) tl
      end
  end.

Definition atest (a : anchored) (s : jsstring) : bool := atest_from a [] s.

(** [[/^\/legal(?:-and-conditions)?(?:\/|$)/i]] *)
Definition PATH_PATTERNS : list anchored :=
  [ Then AtStart
      (Then (Plain (seq [word "/legal"; Opt (word "-and-conditions")]))
            (Either (Plain (word "/")) AtEnd)) ].

Definition SELECTOR_CANDIDATES : list jsstring :=
  [ lit "main";
    (* [data-testid="terms"], with its two double quotes (34) *)
    [91; 100; 97; 116; 97; 45; 116; 101; 115; 116; 105; 100; 61;
                 34; 116; 101; 114; 109; 115; 34; 93]%N;
    lit ".terms, .terms-and-conditions, #terms"; lit "article";
    lit ".content"; lit "body" ].

(** The objects built by the script *)
Record ProcessedText : Type := mkProcessed {
  summary : jsstring; explanation : jsstring; originalText : jsstring }.

(** The value of [findAndExtract]; [None] is a property the object does
    not have. *)
Record Extracted : Type := mkExtracted {
  sourceSelector : jsstring;
  x_text : option jsstring;
  x_summary : option jsstring;
  x_explanation : option jsstring;
  x_originalText : option jsstring;
  x_html : jsstring
}.

Record Payload : Type := mkPayload {
  p_url : jsstring; p_path : jsstring; p_extracted : Extracted }.

Record Message : Type := mkMessage { action : jsstring; data : Payload }.

Section Extraction.

(** What lies outside the script *)
Variable World : Type.
(** [new URL(href).pathname]; [None] when the constructor throws *)
Variable URL_pathname : jsstring -> option jsstring.
(** The promise of [waitForSelector(sel)]: an element, or null after the
    timeout; [Throw] if it rejects. *)
Variable waitForSelector :
  jsstring -> World -> completion (option Element) * World.
(** Is [window.__contractDecoder_googleAI] there, and its operations *)
Variable googleAI_loaded : World -> bool.
Variable summarizeText : jsstring -> World -> completion jsstring * World.
Variable generateText : jsstring -> World -> completion jsstring * World.
(** [document.querySelectorAll('div, article, main, section, p')] and
    [document.body] *)
Variable candidates : World -> list Element.
Variable body : World -> option Element.
(** Does [chrome.runtime.sendMessage] go through, or does it throw *)
Variable runtime_available : World -> bool.
(** The world after the wait of [SPA_RENDER_DELAY] *)
Variable tick : World -> World.

(** The page-level state of the script: the world, the variable
    [lastProcessed], the messages sent so far and
    [window.__lastExtractedTerms]. *)
Record Page : Type := mkPage {
  pg_world : World;
  lastProcessed : option jsstring;
  outbox : list Message;
  lastExtractedTerms : option Payload
}.

Local Notation "'do' x <- c ; k" := (Script.bind c (fun x => k))
  (at level 10, x name, c at level 100, k at level 200).
Local Notation "c ;; k" := (Script.bind c (fun _ => k))
  (at level 100, k at level 200, right associativity).

Definition await {A} (call : World -> completion A * World)
  : Script.M Page A :=
  fun st =>
    let (r, w) := call (pg_world st) in
    (r, mkPage w (lastProcessed st) (outbox st) (lastExtractedTerms st)).

Definition pathMatches (href : jsstring) : bool :=
  match URL_pathname href with
  | Some pathname => existsb (fun rx => atest rx pathname) PATH_PATTERNS
  | None => false
  end.

(** [googleAI ? googleAI.op(arg) : Promise.reject(...)] *)
Definition if_loaded (op : World -> completion jsstring * World)
  : Script.M Page jsstring :=
  do loaded <- Script.get (fun st => googleAI_loaded (pg_world st));
  if loaded then await op else Script.throw.

Definition processText (text : jsstring) : Script.M Page ProcessedText :=
  Script.try_catch
    (do summary <- if_loaded (summarizeText text);
     do explanation <- if_loaded (generateText (explain_prompt text));
     Script.ret (mkProcessed summary explanation text))
    Script.throw.

(** The loop over the selectors; [None] when it ends without a return. *)
Fixpoint try_selectors (sels : list jsstring)
  : Script.M Page (option Extracted) :=
  match sels with
  | [] => Script.ret None
  | sel :: rest =>
      do node <- Script.try_catch (await (waitForSelector sel))
                                  (Script.ret None);
      match node with
      | Some n =>
          let text := extractParagraphsFromNode (Some n) in
          do processed <- processText text;
          Script.ret
            (Some (mkExtracted sel None (Some (summary processed))
                     (Some (explanation processed))
                     (Some (originalText processed)) (innerHTML n)))
      | None => try_selectors rest
      end
  end.

Definition body_text (b : option Element) : jsstring :=
  match b with
  | Some e =>
      match innerText e with
      | Some s => if falsy s then [] else trim s
      | None => []
      end
  | None => []
  end.

Definition body_html (b : option Element) : jsstring :=
  match b with
  | Some e => innerHTML e
  | None => []
  end.

Definition findAndExtract : Script.M Page Extracted :=
  do found <- try_selectors SELECTOR_CANDIDATES;
  match found with
  | Some e => Script.ret e
  | None =>
      do largest <- Script.get (fun st => findLargestTextNode
                                            (candidates (pg_world st)));
      match largest with
      | Some l =>
          Script.ret
            (mkExtracted (lit "largest-block")
               (Some (extractParagraphsFromNode (Some l))) None None None
               (innerHTML l))
      | None =>
          do b <- Script.get (fun st => body (pg_world st));
          Script.ret
            (mkExtracted (lit "body-fallback") (Some (body_text b))
               None None None (body_html b))
      end
  end.

Definition chrome_runtime_sendMessage (msg : Message) : Script.M Page unit :=
  fun st =>
    if runtime_available (pg_world st)
    then (Normal tt,
          mkPage (pg_world st) (lastProcessed st) (outbox st ++ [msg])
                 (lastExtractedTerms st))
    else (Throw, st).

Definition sendExtracted (payload : Payload) : Script.M Page unit :=
  Script.try_catch
    (chrome_runtime_sendMessage (mkMessage (lit "extractedContent") payload))
    (Script.ret tt).

Definition same_url (lp : option jsstring) (url : jsstring) : bool :=
  match lp with Some u => str_eqb u url | None => false end.

Definition handleIfTarget (url : jsstring) : Script.M Page unit :=
  if negb (pathMatches url) then Script.ret tt
  else
    do lp <- Script.get lastProcessed;
    if same_url lp url then Script.ret tt
    else
      Script.modify (fun st => mkPage (pg_world st) (Some url) (outbox st)
                                      (lastExtractedTerms st)) ;;
      Script.modify (fun st => mkPage (tick (pg_world st)) (lastProcessed st)
                                      (outbox st) (lastExtractedTerms st)) ;;
      do extracted <- findAndExtract;
      match URL_pathname url with
      | None => Script.throw
      | Some path =>
          let payload := mkPayload url path extracted in
          sendExtracted payload ;;
          Script.modify (fun st => mkPage (pg_world st) (lastProcessed st)
                                          (outbox st) (Some payload))
      end.

End Extraction.

End ContentScript.

(* ================================================================== *)
(** * popup.js *)
(* ================================================================== *)

Module Popup.

(** The message listener: the value of the input field after a message,
    given its value before. *)
Definition onMessage (msg : ContentScript.Message) (input : jsstring)
  : jsstring :=
  if str_eqb (ContentScript.action msg) (lit "extractedContent") then
    let txt :=
      ContentScript.text_or_empty
        (ContentScript.x_text
           (ContentScript.p_extracted (ContentScript.data msg))) in
    if falsy txt then input else txt
  else input.

End Popup.

(* ================================================================== *)
(** * modelApi/googleAI.js: reading the response *)
(* ================================================================== *)

Module GoogleAI.

Section Response.

(** JavaScript numbers are left abstract; all that the code asks of a
    number is whether it is truthy (not zero). *)
Variable number : Type.
Variable number_truthy : number -> bool.

(** The values that [response.json()] can yield, and [undefined] as the
    value of a property that is not there.  An object is the list of its
    properties. *)
Local Unset Elimination Schemes.
Inductive value : Type :=
| Undefined
| Null
| Bool (b : bool)
| Num (n : number)
| Str (s : jsstring)
| Arr (items : list value)
| Obj (props : list (jsstring * value)).
Local Set Elimination Schemes.

(** [JSON.stringify] on such a value *)
Variable JSON_stringify : value -> jsstring.

Definition truthy (v : value) : bool :=
  match v with
  | Undefined | Null => false
  | Bool b => b
  | Num n => number_truthy n
  | Str s => negb (falsy s)
  | Arr _ | Obj _ => true
  end.

Fixpoint lookup (key : jsstring) (props : list (jsstring * value)) : value :=
  match props with
  | [] => Undefined
  | (k, v) :: tl => if str_eqb k key then v else lookup key tl
  end.

(** What the code reads off a value *)
Inductive access : Type :=
| Prop_ (key : jsstring)    (* v.key, for the keys the function reads:
                               candidates, content, parts, text, output *)
| First.                    (* v[0] *)

(** Reading from [undefined] or [null] throws; the primitive values and
    the arrays have none of the five keys; a string has its first code
    unit at index 0, an array its first item. *)
Definition read (v : value) (a : access) : completion value :=
  match v with
  | Undefined | Null => Throw
  | Obj props =>
      Normal (lookup (match a with Prop_ k => k | First => lit "0" end) props)
  | Arr items =>
      Normal (match a with
              | First => match items with x :: _ => x | [] => Undefined end
              | Prop_ _ => Undefined
              end)
  | Str s =>
      Normal (match a with
              | First => match s with c :: _ => Str [c] | [] => Undefined end
              | Prop_ _ => Undefined
              end)
  | Bool _ | Num _ => Normal Undefined
  end.

(** A chain [v.a && v.a.b && ... ]: [Normal (Some x)] when every link is
    truthy, [x] being the last one; [Normal None] when a link is falsy. *)
Fixpoint chain (v : value) (path : list access) : completion (option value) :=
  match path with
  | [] => Normal (Some v)
  | a :: rest =>
      match read v a with
      | Throw => Throw
      | Normal v' => if truthy v' then chain v' rest else Normal None
      end
  end.

Definition parts_text : list access :=
  [Prop_ (lit "parts"); First; Prop_ (lit "text")].

Definition output_text : list access :=
  [Prop_ (lit "output"); First; Prop_ (lit "content"); First;
   Prop_ (lit "text")].

(** The loop over the items of [c.content]: [Normal (Some x)] is a
    return of [x] from inside the loop. *)
Fixpoint content_items (items : list value) : completion (option value) :=
  match items with
  | [] => Normal None
  | item :: rest =>
      match chain item parts_text with
      | Throw => Throw
      | Normal (Some x) => Normal (Some x)
      | Normal None =>
          match chain item [Prop_ (lit "text")] with
          | Throw => Throw
          | Normal (Some x) => Normal (Some x)
          | Normal None => content_items rest
          end
      end
  end.

(** [s.length > 1000 ? s.slice(0,1000) + '...' : s] *)
Definition clip (s : jsstring) : jsstring :=
  if 1000 <? length s then firstn 1000 s ++ lit "..." else s.

(** A step of the function that either returns or falls through *)
Definition or_next (step : completion (option value))
  (next : completion value) : completion value :=
  match step with
  | Throw => Throw
  | Normal (Some x) => Normal x
  | Normal None => next
  end.

(** The part of the function after the candidates *)
Definition after_candidates (d : value) : completion value :=
  or_next (chain d output_text)
    (match read d (Prop_ (lit "text")) with
     | Throw => Throw
     | Normal (Str s) => Normal (Str s)
     | Normal _ => Normal (Str (clip (JSON_stringify d)))
     end).

(** The body of the [try] block *)
Definition extract_body (d : value) : completion value :=
  if negb (truthy d) then Normal (Str [])
  else
    match chain d [Prop_ (lit "candidates"); First] with
    | Throw => Throw
    | Normal None => after_candidates d
    | Normal (Some c) =>
        or_next
          (match read c (Prop_ (lit "content")) with
           | Throw => Throw
           | Normal content =>
               if truthy content then
                 match content with
                 | Arr items => content_items items
                 | _ => chain content parts_text
                 end
               else Normal None
           end)
          (or_next (chain c output_text) (after_candidates d))
    end.

Definition _extractTextFromResponse (d : value) : value :=
  match extract_body d with
  | Normal v => v
  | Throw => Str []
  end.

End Response.

Arguments Undefined {number}.
Arguments Null {number}.
Arguments Bool {number} b.
Arguments Num {number} n.
Arguments Str {number} s.
Arguments Arr {number} items.
Arguments Obj {number} props.

End GoogleAI.

(* ================================================================== *)
(** * Auxiliary definitions for the proofs *)
(* ================================================================== *)

(** The comparator [(a, b) => b.len - a.len] on the sentences. *)
Definition longer_first (a b : jsstring) : Z :=
  (Z.of_nat (length b) - Z.of_nat (length a))%Z.

Definition rank_entry (x : jsstring) : ranked_sentence :=
  {| sent := x; len := length x |}.

Definition by_len (a b : ranked_sentence) : Z :=
  (Z.of_nat (len b) - Z.of_nat (len a))%Z.

(** Occurrences of a code unit in a text *)
Definition count (d : code_unit) (s : jsstring) : nat :=
  count_occ N.eq_dec s d.

Fixpoint distinct (l : list jsstring) : bool :=
  match l with
  | [] => true
  | x :: tl => negb (existsb (str_eqb x) tl) && distinct tl
  end.

(** A text that does not begin with white space *)
Definition starts_clean (s : jsstring) : bool :=
  match s with c :: _ => negb (is_white_space c) | [] => true end.

(** No two neighbouring code units are both white space. *)
Fixpoint spaced_out (s : jsstring) : bool :=
  match s with
  | c :: tl =>
      negb (is_white_space c
            && match tl with d :: _ => is_white_space d | [] => false end)
      && spaced_out tl
  | [] => true
  end.

Definition no_adjacent_white_space (s : jsstring) : Prop :=
  forall a c d b,
    s = a ++ c :: d :: b ->
    is_white_space c = true -> is_white_space d = true -> False.

(** The code units of a text that are not white space, in order *)
Definition ink (s : jsstring) : jsstring :=
  filter (fun c => negb (is_white_space c)) s.

(** A pattern without [\b] and without look-behind *)
Fixpoint assertion_free (r : regex) : bool :=
  match r with
  | Empty | Chars _ | AtLeast _ _ => true
  | Cat r1 r2 | Alt r1 r2 => assertion_free r1 && assertion_free r2
  | Opt r1 => assertion_free r1
  | WordBoundary | LookBehind _ => false
  end.

(** The order of the levels: safe, then warning, then danger *)
Definition level_rank (l : level) : nat :=
  match l with safe => 0 | warning => 1 | danger => 2 end.

(** A position with both of its texts put through [canonicalize] *)
Definition fold_state (st : state) : state :=
  (map canonicalize (fst st), map canonicalize (snd st)).

(** What the loop of [findLargestTextNode] has established after the
    elements [seen]: no element chosen and no visible text so far, or a
    chosen element that is the first of greatest visible text. *)
Definition largest_so_far (seen : list ContentScript.Element)
  (acc : option ContentScript.Element * nat) : Prop :=
  match fst acc with
  | None =>
      snd acc = 0
      /\ Forall (fun c => ContentScript.visible c = true ->
                          ContentScript.trimmed_text c = []) seen
  | Some b =>
      snd acc = length (ContentScript.trimmed_text b)
      /\ exists before after,
           seen = before ++ b :: after
           /\ ContentScript.visible b = true
           /\ ContentScript.trimmed_text b <> []
           /\ Forall (fun c => ContentScript.visible c = true ->
                               length (ContentScript.trimmed_text c)
                               < length (ContentScript.trimmed_text b)) before
           /\ Forall (fun c => ContentScript.visible c = true ->
                               length (ContentScript.trimmed_text c)
                               <= length (ContentScript.trimmed_text b)) after
  end.

(** A non-empty text without white space at either end *)
Definition solid (s : jsstring) : Prop :=
  s <> [] /\ starts_clean s = true /\ starts_clean (rev s) = true.

(** A computation of the content script that may change the world but
    leaves [lastProcessed], the messages sent and
    [window.__lastExtractedTerms] as they are. *)
Definition keeps_page {World A : Type}
  (m : Script.M (ContentScript.Page World) A) : Prop :=
  forall st,
    ContentScript.lastProcessed (snd (m st)) = ContentScript.lastProcessed st
    /\ ContentScript.outbox (snd (m st)) = ContentScript.outbox st
    /\ ContentScript.lastExtractedTerms (snd (m st))
       = ContentScript.lastExtractedTerms st.

Ltac frames :=
  unfold set_text, set_summary, set_plain, set_translatedSummary,
    set_translatedPlain, set_classification;
  cbn [world sidebar frame v_text v_summary v_plain v_translatedSummary
       v_translatedPlain v_classification].

Ltac unfold_monad :=
  unfold try_catch, local_summary_and_plain, local_translation,
    bind, ret, var, assign, await, read, write;
  frames.

Example splitSentences_ex :
  splitSentences (lit "  Hello there.  How are you?
Fine!   ") = [lit "Hello there."; lit "How are you?"; lit "Fine!"].
Proof. vm_compute. reflexivity. Qed.

(** Four sentences: the three longest, longest first, which is not their
    order in the text. *)
Example localSummarize_ex :
  localSummarize
    (lit "Short one. A much longer second sentence here. Mid size third. Tiny.") 3
  = lit "A much longer second sentence here." ++ [10; 10]%N
      ++ lit "Mid size third." ++ [10; 10]%N ++ lit "Short one.".
Proof. vm_compute. reflexivity. Qed.

Example localRewrite_ex :
  localRewrite (lit "You hereby agree to auto-renewal of this service.  Third party providers may access your data.")
  = lit "You this means agree to auto-renewal (automatic renewal of service or payment) of this service. other companies may access your data.".
Proof. vm_compute. reflexivity. Qed.

Example localClassify_ex :
  overall (localClassify (lit "This agreement will auto-renew annually and requires binding arbitration.")) = danger
  /\ map Clause.id (items (localClassify (lit "This agreement will auto-renew annually and requires binding arbitration."))) = [lit "auto-renew"; lit "dispute"].
Proof. vm_compute. split; reflexivity. Qed.

Example localTranslate_ex :
  localTranslate (lit "Mentions fees, charges or billing terms") (lit "es")
  = lit "Menciona tarifas, cargos o t" ++ [233%N] ++ lit "rminos de facturaci" ++ [243%N] ++ lit "n".
Proof. vm_compute. reflexivity. Qed.

Example localTranslate_ex2 :
  localTranslate (lit "random uncategorized text") (lit "es")
  = lit "random uncategorized text" ++ [10;10]%N ++ lit "[Translated to es (approx)]".
Proof. vm_compute. reflexivity. Qed.

(** No phrase of [TRANSLATIONS] holds a syntax character, so each is its
    own pattern; and no replacement text of the program holds a dollar
    sign, so each is inserted as it is. *)
Example phrases_are_plain :
  forallb (fun kv => forallb (fun c => negb (syntax_character c)) (fst kv))
          (entries_for (lit "es") TRANSLATIONS) = true
  /\ forallb (fun v => negb (existsb (N.eqb 36) v))
       (lit " " :: map snd LEGAL_MAP
          ++ map snd (entries_for (lit "es") TRANSLATIONS)) = true.
Proof. vm_compute. split; reflexivity. Qed.

(** A textarea gives back CR LF, and a CR alone, as LF. *)
Example normalize_newlines_ex :
  normalize_newlines [97; 13; 10; 98; 13; 99; 10; 13]%N
  = [97; 10; 98; 10; 99; 10; 10]%N.
Proof. reflexivity. Qed.

(** The scenario of section 8, without remote capability, on a page
    where the sidebar is yet to be injected: two sentences, default
    language. *)
Example pipeline_scenario :
  let input :=
    lit "You hereby agree to auto-renewal of this service. Third party providers may access your data." in
  exists m,
    runPipeline (fun _ : unit => false) (fun _ => [])
      (fun _ w => (Throw, w)) (fun _ w => (Throw, w)) (fun _ _ w => (Throw, w))
      input (lit "en") tt None (mkDocument false false true true)
    = (Normal tt, m, mkDocument true true true true)
    /\ option_map cd_summary (sidebar m) = Some input
    /\ option_map cd_plain (sidebar m)
       = Some (lit "You this means agree to auto-renewal (automatic renewal of service or payment) of this service. other companies may access your data.")
    /\ option_map overall (v_classification (frame m)) = Some danger
    /\ option_map (fun c => map Clause.id (items c)) (v_classification (frame m))
       = Some [lit "auto-renew"; lit "data-sharing"].
Proof. eexists. vm_compute. repeat split; reflexivity. Qed.

(* ================================================================== *)
(** * Properties of the string and pattern operations *)
(* ================================================================== *)

Lemma str_eqb_eq (a b : jsstring) : str_eqb a b = true <-> a = b.
Proof.
  revert b; induction a as [|x a IH]; intros [|y b]; simpl;
    try (split; congruence).
  rewrite andb_true_iff, N.eqb_eq, IH. split.
  - intros [-> ->]; reflexivity.
  - intros H; injection H; auto.
Qed.

Lemma str_eqb_refl (a : jsstring) : str_eqb a a = true.
Proof. apply str_eqb_eq; reflexivity. Qed.

Lemma str_eqb_neq (a b : jsstring) : a <> b -> str_eqb a b = false.
Proof.
  intros H. destruct (str_eqb a b) eqn:E; [|reflexivity].
  apply str_eqb_eq in E. contradiction.
Qed.

Lemma white_space_not_terminal (c : code_unit) :
  is_white_space c = true -> Spec.is_terminal c = false.
Proof.
  unfold is_white_space, Spec.is_terminal. intros H.
  destruct (N.eqb_spec c 46) as [->|]; [discriminate H|].
  destruct (N.eqb_spec c 33) as [->|]; [discriminate H|].
  destruct (N.eqb_spec c 63) as [->|]; [discriminate H|].
  reflexivity.
Qed.

Lemma newline_is_white_space (c : code_unit) :
  Spec.is_newline c = true -> is_white_space c = true.
Proof.
  unfold Spec.is_newline. intros H. apply N.eqb_eq in H. subst c. reflexivity.
Qed.

(** The greedy quantifier tries the longest run first. *)
Lemma many_first (ic : bool) (cs : char_set) (suf : jsstring) :
  forall (n : nat) (pre : jsstring),
    (n <= length (take_while (in_set ic cs) suf) ->
     exists rest,
       many ic cs n pre suf
       = (rev (take_while (in_set ic cs) suf) ++ pre,
          drop_while (in_set ic cs) suf) :: rest)
    /\ (length (take_while (in_set ic cs) suf) < n ->
        many ic cs n pre suf = []).
Proof.
  induction suf as [|c tl IH]; intros n pre; simpl.
  - split; intros H.
    + assert (n = 0) by lia. subst n. exists []. reflexivity.
    + destruct n; [lia|reflexivity].
  - destruct (in_set ic cs c) eqn:Hc; simpl.
    + destruct (IH (pred n) (c :: pre)) as [IH1 IH2]. split; intros H.
      * destruct IH1 as [rest Hrest]; [lia|].
        rewrite Hrest. rewrite <- app_assoc. simpl. eexists. reflexivity.
      * rewrite IH2 by lia. destruct n; [lia|reflexivity].
    + split; intros H.
      * assert (n = 0) by lia. subst n. exists []. reflexivity.
      * destruct n; [lia|reflexivity].
Qed.

Lemma take_drop_while (p : code_unit -> bool) (s : jsstring) :
  take_while p s ++ drop_while p s = s.
Proof.
  induction s as [|c tl IH]; simpl; [reflexivity|].
  destruct (p c); simpl; [now rewrite IH|reflexivity].
Qed.

Lemma length_drop_while (p : code_unit -> bool) (s : jsstring) :
  length s - length (drop_while p s) = length (take_while p s).
Proof.
  rewrite <- (take_drop_while p s) at 1. rewrite length_app. lia.
Qed.

(** A pattern [cs{n,}] at a position matches the whole run of [cs] that
    starts there, if that run has [n] code units or more. *)
Lemma exec_at_run (cs : char_set) (n : nat) (g : bool) (pre suf : jsstring) :
  exec_at {| pattern := AtLeast n cs; ignoreCase := false; global := g |}
          pre suf
  = if n <=? length (take_while (in_set false cs) suf)
    then Some (length (take_while (in_set false cs) suf)) else None.
Proof.
  unfold exec_at; simpl.
  destruct (many_first false cs suf n pre) as [H1 H2].
  destruct (Nat.leb_spec n (length (take_while (in_set false cs) suf))) as [H|H].
  - destruct (H1 H) as [rest ->]. simpl. now rewrite length_drop_while.
  - now rewrite (H2 H).
Qed.

Lemma replace_all_from_cons (rx : RegExp) (repl pre tl : jsstring)
  (c : code_unit) :
  replace_all_from rx repl pre (c :: tl) 0
  = match exec_at rx pre (c :: tl) with
    | Some O => repl ++ c :: replace_all_from rx repl (c :: pre) tl 0
    | Some (S n) => repl ++ replace_all_from rx repl (c :: pre) tl n
    | None => c :: replace_all_from rx repl (c :: pre) tl 0
    end.
Proof. reflexivity. Qed.

Lemma split_from_cons (rx : RegExp) (pre tl cur : jsstring) (c : code_unit) :
  split_from rx pre (c :: tl) 0 cur
  = match exec_at rx pre (c :: tl) with
    | Some O =>
        match cur with
        | [] => split_from rx (c :: pre) tl 0 [c]
        | _ :: _ => rev cur :: split_from rx (c :: pre) tl 0 [c]
        end
    | Some (S n) => rev cur :: split_from rx (c :: pre) tl n []
    | None => split_from rx (c :: pre) tl 0 (c :: cur)
    end.
Proof. reflexivity. Qed.

(** [text.replace(/\n+/g, ' ')] collapses each run of newlines. *)
Lemma replace_newlines_run (suf : jsstring) :
  forall pre,
    replace_all_from rx_newlines (lit " ") pre suf
      (length (take_while Spec.is_newline suf))
    = Spec.collapse_newlines true suf
    /\ replace_all_from rx_newlines (lit " ") pre suf 0
       = Spec.collapse_newlines false suf.
Proof.
  unfold rx_newlines.
  induction suf as [|c tl IH]; intros pre.
  - split; reflexivity.
  - destruct (IH (c :: pre)) as [IHa IHb].
    assert (Hb : replace_all_from
                   {| pattern := AtLeast 1 (One 10%N); ignoreCase := false;
                      global := true |} (lit " ") pre (c :: tl) 0
                 = Spec.collapse_newlines false (c :: tl)).
    { rewrite replace_all_from_cons, exec_at_run.
      change (in_set false (One 10%N)) with Spec.is_newline.
      simpl take_while. simpl Spec.collapse_newlines.
      destruct (Spec.is_newline c); simpl.
      - now rewrite IHa.
      - now rewrite IHb. }
    split; [|exact Hb].
    simpl take_while. destruct (Spec.is_newline c) eqn:Hc.
    + simpl. rewrite Hc. exact IHa.
    + simpl length. rewrite Hb. simpl. now rewrite Hc.
Qed.

Lemma replace_newlines_spec (text : jsstring) :
  replace rx_newlines (lit " ") text = Spec.collapse_newlines false text.
Proof. apply (replace_newlines_run text []). Qed.

(** [out.replace(/\s{2,}/g, ' ')] collapses each run of two or more
    white-space code units. *)
Lemma collapse_spaces_in_run_stop (suf : jsstring) :
  length (take_while is_white_space suf) = 0 ->
  Spec.collapse_spaces true suf = Spec.collapse_spaces false suf.
Proof.
  destruct suf as [|c tl]; simpl; [reflexivity|].
  destruct (is_white_space c); [discriminate|reflexivity].
Qed.

Lemma replace_spaces_run (suf : jsstring) :
  forall pre,
    replace_all_from rx_spaces (lit " ") pre suf
      (length (take_while is_white_space suf))
    = Spec.collapse_spaces true suf
    /\ replace_all_from rx_spaces (lit " ") pre suf 0
       = Spec.collapse_spaces false suf.
Proof.
  unfold rx_spaces.
  induction suf as [|c tl IH]; intros pre.
  - split; reflexivity.
  - destruct (IH (c :: pre)) as [IHa IHb].
    assert (Hb : replace_all_from
                   {| pattern := AtLeast 2 WhiteSpace; ignoreCase := false;
                      global := true |} (lit " ") pre (c :: tl) 0
                 = Spec.collapse_spaces false (c :: tl)).
    { rewrite replace_all_from_cons, exec_at_run.
      change (in_set false WhiteSpace) with is_white_space.
      simpl take_while. simpl Spec.collapse_spaces.
      destruct (is_white_space c) eqn:Hw.
      - destruct tl as [|d tl'].
        + reflexivity.
        + simpl take_while in *. destruct (is_white_space d) eqn:Hd.
          * simpl length in *. simpl Nat.leb. cbv iota. rewrite IHa.
            reflexivity.
          * simpl length. simpl Nat.leb. cbv iota. now rewrite IHb.
      - simpl length. simpl Nat.leb. cbv iota. now rewrite IHb. }
    split; [|exact Hb].
    simpl take_while. destruct (is_white_space c) eqn:Hw.
    + simpl length. simpl replace_all_from. simpl Spec.collapse_spaces.
      rewrite Hw. exact IHa.
    + simpl length. rewrite Hb. symmetry.
      apply collapse_spaces_in_run_stop. simpl. now rewrite Hw.
Qed.

Lemma replace_spaces_spec (text : jsstring) :
  replace rx_spaces (lit " ") text = Spec.collapse_spaces false text.
Proof. apply (replace_spaces_run text []). Qed.

Lemma terminal_class (c : code_unit) :
  in_set false (Among (lit ".!?")) c = Spec.is_terminal c.
Proof.
  unfold Spec.is_terminal. simpl. unfold same_char.
  destruct (c =? 46)%N, (c =? 33)%N, (c =? 63)%N; reflexivity.
Qed.

(** [/(?<=[.!?])\s+/] at a position: the run of white space starting
    there, provided the code unit before it is a terminal mark. *)
Lemma exec_at_gap (pre suf : jsstring) :
  exec_at rx_sentence_gap pre suf
  = if Spec.ends_with_terminal pre
    then if 1 <=? length (take_while is_white_space suf)
         then Some (length (take_while is_white_space suf)) else None
    else None.
Proof.
  unfold exec_at, rx_sentence_gap. cbn [pattern ignoreCase matcher].
  destruct pre as [|p pre']; [reflexivity|].
  cbn [Spec.ends_with_terminal]. rewrite <- terminal_class.
  destruct (in_set false (Among (lit ".!?")) p); [|reflexivity].
  cbn [flat_map fst snd]. rewrite app_nil_r.
  exact (exec_at_run WhiteSpace 1 false (p :: pre') suf).
Qed.

(** [split(/(?<=[.!?])\s+/)] cuts at the white space that follows a
    terminal mark. *)
Lemma split_gaps_run (suf : jsstring) :
  forall pre cur,
    (Spec.ends_with_terminal pre = false ->
     split_from rx_sentence_gap pre suf
       (length (take_while is_white_space suf)) []
     = Spec.split_gaps true [] suf)
    /\ (Spec.ends_with_terminal pre = Spec.ends_with_terminal cur ->
        split_from rx_sentence_gap pre suf 0 cur
        = Spec.split_gaps false cur suf).
Proof.
  induction suf as [|c tl IH]; intros pre cur.
  - split; reflexivity.
  - assert (Hb : forall cur',
              Spec.ends_with_terminal pre = Spec.ends_with_terminal cur' ->
              split_from rx_sentence_gap pre (c :: tl) 0 cur'
              = Spec.split_gaps false cur' (c :: tl)).
    { intros cur' Hends.
      rewrite split_from_cons, exec_at_gap, Hends.
      simpl take_while. simpl Spec.split_gaps.
      destruct (is_white_space c) eqn:Hw.
      - destruct (Spec.ends_with_terminal cur').
        + simpl length. simpl Nat.leb. cbv iota.
          destruct (IH (c :: pre) []) as [IHa _].
          rewrite IHa; [reflexivity|].
          simpl. now apply white_space_not_terminal.
        + destruct (IH (c :: pre) (c :: cur')) as [_ IHb].
          now rewrite IHb.
      - destruct (IH (c :: pre) (c :: cur')) as [_ IHb].
        simpl length. simpl Nat.leb.
        destruct (Spec.ends_with_terminal cur'); now rewrite IHb. }
    split; [|apply Hb].
    intros Hpre. simpl take_while. destruct (is_white_space c) eqn:Hw.
    + simpl length. simpl split_from. simpl Spec.split_gaps. rewrite Hw.
      destruct (IH (c :: pre) []) as [IHa _]. apply IHa.
      simpl. now apply white_space_not_terminal.
    + simpl length. rewrite Hb by (rewrite Hpre; reflexivity).
      simpl. now rewrite Hw.
Qed.

Lemma split_gaps_spec (s : jsstring) :
  split rx_sentence_gap s = Spec.split_gaps false [] s.
Proof.
  destruct s as [|c tl]; [reflexivity|].
  unfold split. apply (split_gaps_run (c :: tl) [] []). reflexivity.
Qed.

(** The segmenter of the code is the segmenter of section 4.1. *)
Lemma splitSentences_segment (text : jsstring) :
  splitSentences text = Spec.segment text.
Proof.
  unfold splitSentences, Spec.segment, filter_Boolean.
  now rewrite replace_newlines_spec, split_gaps_spec.
Qed.

Lemma drop_while_nil (p : code_unit -> bool) (s : jsstring) :
  drop_while p s = [] <-> forallb p s = true.
Proof.
  induction s as [|c tl IH]; simpl.
  - split; reflexivity.
  - destruct (p c); simpl; [exact IH|]. split; discriminate.
Qed.

(** [trim] leaves nothing exactly when the text is white space only. *)
Lemma trim_nil (s : jsstring) :
  trim s = [] <-> forallb is_white_space s = true.
Proof.
  unfold trim, trim_end, trim_start. split.
  - intros H. apply drop_while_nil.
    apply (f_equal (@rev code_unit)) in H. rewrite rev_involutive in H.
    simpl in H. apply drop_while_nil in H.
    rewrite forallb_forall in H.
    destruct (drop_while is_white_space s) as [|c d] eqn:Hd; [reflexivity|].
    assert (Hc : is_white_space c = true).
    { apply H. apply in_rev. rewrite rev_involutive. left; reflexivity. }
    clear H. exfalso. revert Hd Hc. clear.
    induction s as [|x tl IH]; simpl; [discriminate|].
    destruct (is_white_space x) eqn:Hx; [exact IH|].
    intros H; injection H as <- _. congruence.
  - intros H. apply drop_while_nil in H. rewrite H. reflexivity.
Qed.

Lemma split_gaps_no_terminal (s : jsstring) :
  forall cur,
    Spec.ends_with_terminal cur = false ->
    forallb (fun c => negb (Spec.is_terminal c)) s = true ->
    Spec.split_gaps false cur s = [rev cur ++ s].
Proof.
  induction s as [|c tl IH]; intros cur Hcur Hs; simpl.
  - now rewrite app_nil_r.
  - simpl in Hs. apply andb_true_iff in Hs as [Hc Htl].
    apply negb_true_iff in Hc. rewrite Hcur.
    assert (Hstep : Spec.split_gaps false (c :: cur) tl
                    = [rev cur ++ c :: tl]).
    { rewrite IH by assumption. simpl. now rewrite <- app_assoc. }
    destruct (is_white_space c); exact Hstep.
Qed.

Lemma collapse_newlines_no_terminal (s : jsstring) :
  forall b,
    forallb (fun c => negb (Spec.is_terminal c)) s = true ->
    forallb (fun c => negb (Spec.is_terminal c))
            (Spec.collapse_newlines b s) = true.
Proof.
  induction s as [|c tl IH]; intros b H; simpl; [reflexivity|].
  simpl in H. apply andb_true_iff in H as [Hc Htl].
  destruct (Spec.is_newline c); [destruct b|]; simpl;
    rewrite ?Hc; simpl; now apply IH.
Qed.

Lemma collapse_newlines_white_space (s : jsstring) :
  forall b,
    forallb is_white_space (Spec.collapse_newlines b s)
    = forallb is_white_space s.
Proof.
  induction s as [|c tl IH]; intros b; simpl; [reflexivity|].
  destruct (Spec.is_newline c) eqn:Hn.
  - rewrite (newline_is_white_space c Hn). simpl.
    destruct b; simpl; apply IH.
  - simpl. now rewrite IH.
Qed.

Lemma collapse_newlines_none (s : jsstring) :
  forall b,
    forallb (fun c => negb (Spec.is_newline c)) s = true ->
    Spec.collapse_newlines b s = s.
Proof.
  induction s as [|c tl IH]; intros b H; simpl; [reflexivity|].
  simpl in H. apply andb_true_iff in H as [Hc Htl].
  apply negb_true_iff in Hc. rewrite Hc. now rewrite IH.
Qed.

Lemma white_space_no_terminal (s : jsstring) :
  forallb is_white_space s = true ->
  forallb (fun c => negb (Spec.is_terminal c)) s = true.
Proof.
  induction s as [|c tl IH]; simpl; [reflexivity|].
  intros H. apply andb_true_iff in H as [Hc Htl].
  rewrite (white_space_not_terminal c Hc). simpl. auto.
Qed.

(** Without a terminal mark the text is one piece. *)
Lemma segment_no_terminal (text : jsstring) :
  forallb (fun c => negb (Spec.is_terminal c)) text = true ->
  Spec.segment text
  = if forallb is_white_space text then []
    else [trim (Spec.collapse_newlines false text)].
Proof.
  intros H. unfold Spec.segment.
  rewrite split_gaps_no_terminal;
    [|reflexivity|now apply collapse_newlines_no_terminal].
  simpl.
  rewrite <- (collapse_newlines_white_space text false).
  destruct (trim (Spec.collapse_newlines false text)) as [|c t] eqn:Ht.
  - apply trim_nil in Ht. now rewrite Ht.
  - simpl.
    destruct (forallb is_white_space (Spec.collapse_newlines false text))
      eqn:Hall; [|reflexivity].
    apply trim_nil in Hall. congruence.
Qed.

(* ================================================================== *)
(** * The matcher finds exactly the matches of a pattern *)
(* ================================================================== *)

Lemma many_sound (ic : bool) (cs : char_set) (suf : jsstring) :
  forall n pre st,
    In st (many ic cs n pre suf) ->
    exists w,
      suf = w ++ snd st /\ fst st = rev w ++ pre
      /\ n <= length w /\ Forall (fun c => in_set ic cs c = true) w.
Proof.
  induction suf as [|c tl IH]; intros n pre st Hin; simpl in Hin.
  - destruct n; [|contradiction]. destruct Hin as [<-|[]].
    exists []. repeat split; auto.
  - apply in_app_or in Hin as [Hin|Hin].
    + destruct (in_set ic cs c) eqn:Hc; [|contradiction].
      destruct (IH _ _ _ Hin) as (w & Hs & Hp & Hn & Hall).
      exists (c :: w). simpl. rewrite <- app_assoc. simpl.
      repeat split; try congruence; [lia|now constructor].
    + destruct n; [|contradiction]. destruct Hin as [<-|[]].
      exists []. repeat split; auto.
Qed.

Lemma many_complete (ic : bool) (cs : char_set) (w : jsstring) :
  forall n pre after,
    n <= length w ->
    Forall (fun c => in_set ic cs c = true) w ->
    In (rev w ++ pre, after) (many ic cs n pre (w ++ after)).
Proof.
  induction w as [|c w IH]; intros n pre after Hn Hall.
  - simpl in Hn. assert (n = 0) by lia. subst n.
    simpl. destruct after; simpl; [now left|].
    apply in_or_app. right. now left.
  - inversion Hall as [|? ? Hc Hw]; subst.
    simpl. rewrite Hc. apply in_or_app. left.
    rewrite <- app_assoc. simpl. apply IH; [simpl in Hn; lia|assumption].
Qed.

Lemma matcher_sound (ic : bool) (r : regex) :
  forall pre suf st,
    In st (matcher ic r pre suf) ->
    exists w,
      suf = w ++ snd st /\ fst st = rev w ++ pre
      /\ Spec.matches ic r pre w (snd st).
Proof.
  induction r as [|cs|r1 IH1 r2 IH2|r1 IH1 r2 IH2|r1 IH1|n cs| |cs];
    intros pre suf st Hin; simpl in Hin.
  - destruct Hin as [<-|[]]. exists []. repeat split; constructor.
  - destruct suf as [|c tl]; [contradiction|].
    destruct (in_set ic cs c) eqn:Hc; [|contradiction].
    destruct Hin as [<-|[]]. exists [c]. repeat split. now constructor.
  - apply in_flat_map in Hin as (st1 & H1 & H2).
    destruct (IH1 _ _ _ H1) as (w1 & Hs1 & Hp1 & Hm1).
    destruct (IH2 _ _ _ H2) as (w2 & Hs2 & Hp2 & Hm2).
    exists (w1 ++ w2). rewrite rev_app_distr, <- !app_assoc.
    repeat split; try congruence.
    constructor; congruence.
  - apply in_app_or in Hin as [Hin|Hin].
    + destruct (IH1 _ _ _ Hin) as (w & Hs & Hp & Hm).
      exists w. repeat split; auto. now apply Spec.M_Alt_l.
    + destruct (IH2 _ _ _ Hin) as (w & Hs & Hp & Hm).
      exists w. repeat split; auto. now apply Spec.M_Alt_r.
  - apply in_app_or in Hin as [Hin|Hin].
    + apply filter_In in Hin as [Hin Hlen].
      destruct (IH1 _ _ _ Hin) as (w & Hs & Hp & Hm).
      exists w. repeat split; auto. apply Spec.M_Opt_some; [assumption|].
      intros ->. simpl in Hs. subst suf. now rewrite Nat.eqb_refl in Hlen.
    + destruct Hin as [<-|[]]. exists []. repeat split. constructor.
  - destruct (many_sound _ _ _ _ _ _ Hin) as (w & Hs & Hp & Hn & Hall).
    exists w. repeat split; auto. now constructor.
  - destruct (xorb (word_before pre) (word_before suf)) eqn:Hx;
      [|contradiction].
    destruct Hin as [<-|[]]. exists []. repeat split. now constructor.
  - destruct pre as [|c pre']; [contradiction|].
    destruct (in_set ic cs c) eqn:Hc; [|contradiction].
    destruct Hin as [<-|[]]. exists []. repeat split. now constructor.
Qed.

Lemma matcher_complete (ic : bool) (r : regex) (pre w after : jsstring) :
  Spec.matches ic r pre w after ->
  In (rev w ++ pre, after) (matcher ic r pre (w ++ after)).
Proof.
  induction 1 as [before after|cs c before after Hc
                 |r1 r2 w1 w2 before after _ IH1 _ IH2
                 |r1 r2 w before after _ IH|r1 r2 w before after _ IH
                 |r before after|r w before after _ IH Hne
                 |n cs w before after Hn Hall|before after Hx
                 |cs c before after Hc]; simpl.
  - now left.
  - rewrite Hc. now left.
  - apply in_flat_map. exists (rev w1 ++ before, w2 ++ after).
    rewrite <- app_assoc. split; [exact IH1|].
    simpl. rewrite rev_app_distr, <- app_assoc. exact IH2.
  - apply in_or_app. now left.
  - apply in_or_app. now right.
  - apply in_or_app. right. now left.
  - apply in_or_app. left. apply filter_In. split; [exact IH|].
    simpl. rewrite length_app. apply negb_true_iff, Nat.eqb_neq.
    destruct w; [contradiction|simpl; lia].
  - now apply many_complete.
  - rewrite Hx. now left.
  - rewrite Hc. now left.
Qed.

(** A match attempt at a position succeeds exactly when the pattern
    matches some code units from that position on. *)
Lemma exec_at_matches (rx : RegExp) (pre suf : jsstring) :
  exec_at rx pre suf <> None
  <-> exists w b,
        suf = w ++ b /\ Spec.matches (ignoreCase rx) (pattern rx) pre w b.
Proof.
  unfold exec_at. split.
  - destruct (matcher (ignoreCase rx) (pattern rx) pre suf) as [|st l] eqn:Hm;
      [congruence|]. intros _.
    destruct (@matcher_sound (ignoreCase rx) (pattern rx) pre suf st)
      as (w & Hs & _ & Hw); [rewrite Hm; now left|].
    now exists w, (snd st).
  - intros (w & b & -> & Hm). apply matcher_complete in Hm.
    destruct (matcher (ignoreCase rx) (pattern rx) pre (w ++ b));
      [contradiction|discriminate].
Qed.

Lemma test_from_contains (rx : RegExp) (suf : jsstring) :
  forall pre,
    test_from rx pre suf = true
    <-> exists a w b,
          suf = a ++ w ++ b
          /\ Spec.matches (ignoreCase rx) (pattern rx) (rev a ++ pre) w b.
Proof.
  induction suf as [|c tl IH]; intros pre; simpl.
  - pose proof (exec_at_matches rx pre []) as He.
    destruct (exec_at rx pre []); split.
    + intros _. destruct (proj1 He ltac:(discriminate)) as (w & b & Hs & Hm).
      now exists [], w, b.
    + reflexivity.
    + discriminate.
    + intros (a & w & b & Hs & Hm).
      destruct a; [|discriminate Hs]. simpl in *.
      assert (None <> (None : option nat)); [|congruence].
      apply He. now exists w, b.
  - pose proof (exec_at_matches rx pre (c :: tl)) as He.
    destruct (exec_at rx pre (c :: tl)); split.
    + intros _. destruct (proj1 He ltac:(discriminate)) as (w & b & Hs & Hm).
      now exists [], w, b.
    + reflexivity.
    + intros H. apply IH in H as (a & w & b & Hs & Hm).
      exists (c :: a), w, b. simpl. rewrite <- app_assoc. simpl.
      split; [now rewrite Hs|exact Hm].
    + intros (a & w & b & Hs & Hm). destruct a as [|c' a].
      * exfalso. assert (None <> (None : option nat)); [|congruence].
        apply He. now exists w, b.
      * apply IH. injection Hs as <- Hs. exists a, w, b.
        split; [exact Hs|]. simpl in Hm. now rewrite <- app_assoc in Hm.
Qed.

(** [rx.test(text)] says whether the text contains a match. *)
Lemma test_contains (rx : RegExp) (text : jsstring) :
  test rx text = true <-> Spec.contains rx text.
Proof.
  unfold test, Spec.contains. rewrite test_from_contains.
  split; intros (a & w & b & Hs & Hm); exists a, w, b;
    rewrite app_nil_r in *; auto.
Qed.

(* ================================================================== *)
(** * The ranking made by [sort] *)
(* ================================================================== *)

Lemma sort_insert_entries (x : jsstring) (l : list jsstring) :
  sort_insert by_len (rank_entry x) (map rank_entry l)
  = map rank_entry (sort_insert longer_first x l).
Proof.
  induction l as [|y tl IH]; simpl; [reflexivity|].
  unfold by_len at 1, longer_first at 1. simpl.
  destruct (Z.of_nat (length y) - Z.of_nat (length x) <=? 0)%Z; simpl;
    [reflexivity|now rewrite IH].
Qed.

Lemma sort_entries (s : list jsstring) :
  map sent (sort by_len (map rank_entry s)) = sort longer_first s.
Proof.
  assert (H : sort by_len (map rank_entry s)
              = map rank_entry (sort longer_first s)).
  { induction s as [|x tl IH]; simpl; [reflexivity|].
    now rewrite IH, sort_insert_entries. }
  rewrite H, map_map. simpl. apply map_id.
Qed.

Lemma sort_insert_perm (x : jsstring) (l : list jsstring) :
  Permutation (sort_insert longer_first x l) (x :: l).
Proof.
  induction l as [|y tl IH]; simpl; [apply Permutation_refl|].
  destruct (longer_first x y <=? 0)%Z; [apply Permutation_refl|].
  eapply perm_trans; [apply perm_skip, IH|apply perm_swap].
Qed.

Lemma sort_perm (s : list jsstring) : Permutation (sort longer_first s) s.
Proof.
  induction s as [|x tl IH]; simpl; [constructor|].
  eapply perm_trans; [apply sort_insert_perm|now apply perm_skip].
Qed.

Lemma sort_insert_sorted (x : jsstring) (l : list jsstring) :
  Spec.by_length_desc l -> Spec.by_length_desc (sort_insert longer_first x l).
Proof.
  unfold Spec.by_length_desc.
  induction 1 as [|y tl Hs IH Hy]; simpl.
  - repeat constructor.
  - unfold longer_first at 1.
    destruct (Z.leb_spec (Z.of_nat (length y) - Z.of_nat (length x)) 0)
      as [Hle|Hgt].
    + constructor; [now constructor|].
      constructor; [lia|].
      rewrite Forall_forall in Hy |- *. intros z Hz.
      specialize (Hy z Hz). lia.
    + constructor; [exact IH|].
      rewrite Forall_forall in Hy |- *. intros z Hz.
      apply (Permutation_in _ (sort_insert_perm x tl)) in Hz.
      destruct Hz as [<-|Hz]; [lia|now apply Hy].
Qed.

Lemma sort_sorted (s : list jsstring) :
  Spec.by_length_desc (sort longer_first s).
Proof.
  induction s as [|x tl IH]; simpl; [constructor|].
  now apply sort_insert_sorted.
Qed.

Lemma sort_insert_ties (k : nat) (x : jsstring) (l : list jsstring) :
  filter (fun z => length z =? k) (sort_insert longer_first x l)
  = filter (fun z => length z =? k) (x :: l).
Proof.
  induction l as [|y tl IH]; simpl; [reflexivity|].
  unfold longer_first at 1.
  destruct (Z.leb_spec (Z.of_nat (length y) - Z.of_nat (length x)) 0)
    as [Hle|Hgt]; [reflexivity|].
  simpl. rewrite IH. simpl.
  destruct (Nat.eqb_spec (length x) k) as [Hx|Hx]; [|reflexivity].
  destruct (Nat.eqb_spec (length y) k) as [Hy|Hy]; [lia|reflexivity].
Qed.

Lemma sort_ties (s : list jsstring) :
  Spec.ties_in_order_of s (sort longer_first s).
Proof.
  intros k. induction s as [|x tl IH]; simpl; [reflexivity|].
  rewrite sort_insert_ties. simpl. now rewrite IH.
Qed.

(** The stable sort produces the ranking of section 4.2 ... *)
Lemma sort_ranking (s : list jsstring) :
  Spec.ranking_of s (sort longer_first s).
Proof.
  split; [apply sort_perm|split; [apply sort_sorted|apply sort_ties]].
Qed.

(** ... and there is no other ranking. *)
Lemma ranking_unique (l1 : list jsstring) :
  forall l2,
    Spec.by_length_desc l1 -> Spec.by_length_desc l2 ->
    (forall k, filter (fun x => length x =? k) l1
               = filter (fun x => length x =? k) l2) ->
    l1 = l2.
Proof.
  induction l1 as [|x l1' IH]; intros l2 H1 H2 Hf.
  - destruct l2 as [|y l2']; [reflexivity|].
    specialize (Hf (length y)). simpl in Hf.
    rewrite Nat.eqb_refl in Hf. discriminate Hf.
  - destruct l2 as [|y l2'].
    + specialize (Hf (length x)). simpl in Hf.
      rewrite Nat.eqb_refl in Hf. discriminate Hf.
    + inversion H1 as [|? ? Hs1 Hx]; subst.
      inversion H2 as [|? ? Hs2 Hy]; subst.
      rewrite Forall_forall in Hx, Hy.
      assert (Hxy : length x = length y).
      { pose proof (Hf (length x)) as Fx. pose proof (Hf (length y)) as Fy.
        simpl in Fx, Fy. rewrite Nat.eqb_refl in Fx, Fy.
        destruct (Nat.eqb_spec (length y) (length x)) as [E|NE];
          [now symmetry|].
        destruct (Nat.eqb_spec (length x) (length y)) as [E'|_];
          [now rewrite E' in NE|].
        assert (In x l2').
        { assert (Hin : In x (filter (fun z => length z =? length x) l2'))
            by (rewrite <- Fx; left; reflexivity).
          apply filter_In in Hin. tauto. }
        assert (In y l1').
        { assert (Hin : In y (filter (fun z => length z =? length y) l1'))
            by (rewrite Fy; left; reflexivity).
          apply filter_In in Hin. tauto. }
        pose proof (Hx y ltac:(assumption)).
        pose proof (Hy x ltac:(assumption)). lia. }
      pose proof (Hf (length x)) as Fx. simpl in Fx.
      rewrite Nat.eqb_refl, <- Hxy, Nat.eqb_refl in Fx.
      injection Fx as <- Fx. f_equal.
      apply IH; try assumption.
      intros k. specialize (Hf k). simpl in Hf.
      destruct (length x =? k); [now injection Hf|exact Hf].
Qed.

(* ================================================================== *)
(** * Phrases as patterns *)
(* ================================================================== *)

Lemma starts_with_split (k s : jsstring) :
  Spec.starts_with k s = true -> s = k ++ skipn (length k) s.
Proof.
  revert s; induction k as [|a k IH]; intros s H; [reflexivity|].
  destruct s as [|b s]; [discriminate H|].
  simpl in H. apply andb_true_iff in H as [Hb Hk].
  apply N.eqb_eq in Hb. subst b. simpl. f_equal. now apply IH.
Qed.

(** The pattern of a phrase without syntax characters matches the phrase
    itself and nothing else. *)
Lemma matcher_literal (k : jsstring) :
  forall pre suf,
    matcher false (literal k) pre suf
    = if Spec.starts_with k suf
      then [(rev k ++ pre, skipn (length k) suf)] else [].
Proof.
  induction k as [|a k IH]; intros pre suf; [reflexivity|].
  simpl. destruct suf as [|c tl]; [reflexivity|].
  unfold same_char. destruct (N.eqb_spec c a) as [->|Hne]; simpl;
    [|reflexivity].
  rewrite IH, app_nil_r. destruct (Spec.starts_with k tl); [|reflexivity].
  now rewrite <- app_assoc.
Qed.

Lemma exec_at_literal (k pre suf : jsstring) :
  exec_at (RegExp_new_g k) pre suf
  = if Spec.starts_with k suf then Some (length k) else None.
Proof.
  unfold exec_at, RegExp_new_g. cbn [pattern ignoreCase].
  rewrite matcher_literal.
  destruct (Spec.starts_with k suf) eqn:H; [|reflexivity].
  cbn [snd]. f_equal. apply starts_with_split in H.
  rewrite H at 1. rewrite length_app. lia.
Qed.

Lemma replace_literal_from (k v : jsstring) :
  k <> [] ->
  forall suf pre skip,
    replace_all_from (RegExp_new_g k) v pre suf skip
    = Spec.replace_phrase_from k v suf skip.
Proof.
  intros Hk. induction suf as [|c tl IH]; intros pre skip.
  - destruct skip; [|reflexivity]. simpl. rewrite exec_at_literal.
    destruct k; [contradiction|reflexivity].
  - destruct skip as [|n]; [|simpl; apply IH].
    rewrite replace_all_from_cons, exec_at_literal.
    cbn [Spec.replace_phrase_from].
    destruct (Spec.starts_with k (c :: tl)).
    + destruct k as [|a k']; [contradiction|].
      replace (length (a :: k') - 1) with (length k') by (simpl; lia).
      simpl length. cbv beta iota. now rewrite IH.
    + now rewrite IH.
Qed.

(** [out.replace(new RegExp(k, 'g'), v)] replaces the occurrences of the
    phrase [k]. *)
Lemma replace_literal (k v text : jsstring) :
  k <> [] ->
  replace (RegExp_new_g k) v text = Spec.replace_phrase k v text.
Proof. intros Hk. apply (replace_literal_from v Hk). Qed.

Lemma fold_replace_literal (ps : list (jsstring * jsstring)) :
  Forall (fun kv => fst kv <> []) ps ->
  forall text,
    fold_left (fun out kv => replace (RegExp_new_g (fst kv)) (snd kv) out)
              ps text
    = Spec.substitute ps text.
Proof.
  unfold Spec.substitute.
  induction 1 as [|kv ps Hkv _ IH]; intros text; simpl; [reflexivity|].
  now rewrite replace_literal, IH.
Qed.

Lemma count_app (d : code_unit) (a b : jsstring) :
  count d (a ++ b) = count d a + count d b.
Proof. apply count_occ_app. Qed.

Lemma replace_phrase_count (d : code_unit) (k v : jsstring) :
  k <> [] ->
  forall s skip,
    skip <= length s ->
    count d (Spec.replace_phrase_from k v s skip)
    + Spec.occurrences_from k s skip * count d k
    = count d (skipn skip s) + Spec.occurrences_from k s skip * count d v.
Proof.
  intros Hk. induction s as [|c tl IH]; intros skip Hskip.
  - simpl in Hskip. assert (skip = 0) by lia. subst. reflexivity.
  - destruct skip as [|n].
    + cbn [Spec.replace_phrase_from Spec.occurrences_from skipn].
      destruct (Spec.starts_with k (c :: tl)) eqn:Hs.
      * pose proof (starts_with_split _ _ Hs) as Hsplit.
        destruct k as [|a k']; [contradiction|].
        assert (Hlen : length (a :: k') - 1 <= length tl).
        { apply (f_equal (@length code_unit)) in Hsplit.
          rewrite length_app in Hsplit. simpl in *. lia. }
        specialize (IH _ Hlen).
        rewrite count_app.
        assert (Hc : count d (c :: tl)
                     = count d (a :: k')
                       + count d (skipn (length (a :: k') - 1) tl)).
        { rewrite Hsplit at 1. rewrite count_app. f_equal.
          simpl. now rewrite Nat.sub_0_r. }
        rewrite Hc, !Nat.mul_succ_l. lia.
      * specialize (IH 0 ltac:(lia)). simpl skipn in IH.
        unfold count in *. simpl count_occ.
        destruct (N.eq_dec c d); lia.
    + simpl. apply IH. simpl in Hskip. lia.
Qed.

Lemma replace_phrase_none (k v : jsstring) :
  forall s skip,
    Spec.occurrences_from k s skip = 0 ->
    Spec.replace_phrase_from k v s skip = skipn skip s.
Proof.
  induction s as [|c tl IH]; intros skip H.
  - destruct skip; reflexivity.
  - destruct skip as [|n]; simpl in *.
    + destruct (Spec.starts_with k (c :: tl)); [discriminate H|].
      now rewrite IH.
    + now apply IH.
Qed.

(** When every translation holds more occurrences of [d] than its phrase,
    each substitution adds at least one [d]. *)
Lemma substitute_count (d : code_unit) (ps : list (jsstring * jsstring)) :
  Forall (fun kv => fst kv <> [] /\ count d (fst kv) < count d (snd kv)) ps ->
  forall text,
    count d text + Spec.substitutions ps text
    <= count d (Spec.substitute ps text).
Proof.
  unfold Spec.substitute.
  induction 1 as [|[k v] ps [Hk Hlt] _ IH]; intros text; simpl in *; [lia|].
  specialize (IH (Spec.replace_phrase k v text)).
  pose proof (@replace_phrase_count d k v Hk text 0 ltac:(lia)) as Hc.
  simpl skipn in Hc. unfold Spec.replace_phrase, Spec.occurrences in *.
  nia.
Qed.

Lemma substitute_none (ps : list (jsstring * jsstring)) :
  forall text,
    Spec.substitutions ps text = 0 -> Spec.substitute ps text = text.
Proof.
  unfold Spec.substitute.
  induction ps as [|[k v] ps IH]; intros text H; simpl in *; [reflexivity|].
  assert (Hocc : Spec.occurrences k text = 0) by lia.
  unfold Spec.replace_phrase, Spec.occurrences in *.
  rewrite (replace_phrase_none k v text 0 Hocc) in *. simpl skipn in *.
  apply IH. lia.
Qed.

(** In the fixed translation map every translation has more letters [d]
    than its phrase, and no phrase is empty. *)
Lemma phrases_gain_d (lang : jsstring) :
  Forall (fun kv => fst kv <> [] /\ count 100%N (fst kv) < count 100%N (snd kv))
         (Spec.phrases lang).
Proof.
  unfold Spec.phrases. destruct (str_eqb lang (lit "es")); [|constructor].
  repeat (constructor; [split; [discriminate|vm_compute; lia]|]).
  constructor.
Qed.

(** A substitution happened exactly when the text changed. *)
Lemma substitutions_zero_iff (lang text : jsstring) :
  Spec.substitutions (Spec.phrases lang) text = 0
  <-> Spec.substitute (Spec.phrases lang) text = text.
Proof.
  split; [apply substitute_none|].
  intros H.
  pose proof (@substitute_count 100%N _ (phrases_gain_d lang) text) as Hc.
  rewrite H in Hc. lia.
Qed.

Lemma entries_for_phrases (lang : jsstring) :
  entries_for lang TRANSLATIONS = Spec.phrases lang.
Proof.
  unfold Spec.phrases, TRANSLATIONS, entries_for.
  destruct (str_eqb lang (lit "es")); reflexivity.
Qed.

(* ================================================================== *)
(** * The summarizer *)
(* ================================================================== *)

Lemma localSummarize_ranked (T : jsstring) (n : nat) :
  localSummarize T n
  = if length (splitSentences T) <=? n
    then join (lit " ") (splitSentences T)
    else join [10%N; 10%N] (firstn n (sort longer_first (splitSentences T))).
Proof.
  destruct T as [|c t]; [reflexivity|].
  unfold localSummarize. cbn [falsy]. cbv zeta.
  destruct (length (splitSentences (c :: t)) <=? n); [reflexivity|].
  f_equal. unfold slice0. rewrite <- firstn_map. f_equal.
  exact (sort_entries (splitSentences (c :: t))).
Qed.

(** C1.  For every text [T], [localSummarize(T, 3)] keeps to the two
    branches of section 4.2.  With at most three sentences the result is
    all sentences of [T], in their order, joined by one space.  With more,
    the result is three sentences joined by a blank line: the first three
    of the ranking of the sentence list, which is a rearrangement of that
    list by descending length in which sentences of equal length keep
    their document order; the ranking is unique, the three are drawn from
    the sentence list and come in rank order. *)
Theorem localSummarize_contract (T : jsstring) :
  if length (splitSentences T) <=? 3
  then localSummarize T 3 = join (lit " ") (splitSentences T)
  else exists ranked,
      Spec.ranking_of (splitSentences T) ranked
      /\ (forall r, Spec.ranking_of (splitSentences T) r -> r = ranked)
      /\ length (firstn 3 ranked) = 3
      /\ incl (firstn 3 ranked) (splitSentences T)
      /\ localSummarize T 3 = join [10%N; 10%N] (firstn 3 ranked).
Proof.
  rewrite localSummarize_ranked.
  destruct (Nat.leb_spec (length (splitSentences T)) 3) as [Hle|Hgt];
    [reflexivity|].
  exists (sort longer_first (splitSentences T)).
  pose proof (sort_ranking (splitSentences T)) as Hrank.
  split; [exact Hrank|].
  destruct Hrank as (Hperm & Hsorted & Hties).
  split; [|split; [|split; [|reflexivity]]].
  - intros r (_ & Hr & Hrt). apply ranking_unique; try assumption.
    intros k. now rewrite Hrt, Hties.
  - apply firstn_length_le. rewrite (Permutation_length Hperm). lia.
  - intros x Hx. apply (Permutation_in _ Hperm).
    rewrite <- (firstn_skipn 3). apply in_or_app. now left.
Qed.

(* ================================================================== *)
(** * The segmenter *)
(* ================================================================== *)

(** C8.  For every text, [splitSentences] is the segmenter of section
    4.1: newline runs collapsed to one space, the text cut at the white
    space that follows a terminal mark, each piece trimmed, empty pieces
    dropped, order kept.  A text without terminal mark that is not white
    space only gives one sentence, the trimmed text (after the newline
    collapse; the trimmed text itself when it has no newline); a text of
    white space only, the empty text included, gives no sentence. *)
Theorem splitSentences_contract (text : jsstring) :
  splitSentences text = Spec.segment text
  /\ (forallb (fun c => negb (Spec.is_terminal c)) text = true ->
      splitSentences text
      = if forallb is_white_space text then []
        else [trim (Spec.collapse_newlines false text)])
  /\ (forallb (fun c => negb (Spec.is_terminal c)) text = true ->
      forallb (fun c => negb (Spec.is_newline c)) text = true ->
      forallb is_white_space text = false ->
      splitSentences text = [trim text])
  /\ (forallb is_white_space text = true -> splitSentences text = []).
Proof.
  rewrite splitSentences_segment.
  split; [reflexivity|]. split; [apply segment_no_terminal|]. split.
  - intros Ht Hn Hw. rewrite segment_no_terminal, Hw by assumption.
    now rewrite collapse_newlines_none.
  - intros Hw.
    rewrite segment_no_terminal by now apply white_space_no_terminal.
    now rewrite Hw.
Qed.

(** The contract at a text without terminal mark and without newline. *)
Lemma splitSentences_contract_witness :
  splitSentences (lit "  plain words  ") = [lit "plain words"].
Proof.
  exact (proj1 (proj2 (proj2 (splitSentences_contract (lit "  plain words  "))))
           eq_refl eq_refl eq_refl).
Defined.

(* ================================================================== *)
(** * The rewriter *)
(* ================================================================== *)

(** C3, as stated, fails: the rules of the code require a word boundary
    on both sides of a match, and rule 7 of the code is
    [auto-?renew(a|al)?].  [hereby] inside [whereby] is rewritten by the
    listed rule 2 and left alone by the code; [autorenewa] is rewritten
    whole by the code and only up to [autorenew] by the listed rule 7. *)
Lemma localRewrite_not_as_listed :
  localRewrite (lit "whereby") = lit "whereby"
  /\ Spec.rewrite (lit "whereby") = lit "wthis means"
  /\ localRewrite (lit "whereby") <> Spec.rewrite (lit "whereby")
  /\ localRewrite (lit "autorenewa") <> Spec.rewrite (lit "autorenewa").
Proof. vm_compute. repeat split; discriminate. Qed.

(** C3, amended.  For every text, [localRewrite] applies the eight rules
    of section 4.3, read with a word boundary required before and after
    each match and with rule 7 as [auto-?renew(a|al)?], case-insensitively
    and in the listed order, each rule on the output of the rules before
    it; then every run of two or more white-space characters becomes one
    space and the result is trimmed. *)
Theorem localRewrite_rules (text : jsstring) :
  localRewrite text
  = Spec.rewrite_with Spec.whole_words Spec.rules_as_coded text.
Proof.
  destruct text as [|c t]; [reflexivity|].
  unfold localRewrite, Spec.rewrite_with. cbn [falsy]. cbv zeta.
  rewrite replace_spaces_spec. reflexivity.
Qed.

(* ================================================================== *)
(** * The classifier *)
(* ================================================================== *)

Lemma distinct_NoDup (l : list jsstring) : distinct l = true -> NoDup l.
Proof.
  induction l as [|x tl IH]; simpl; intros H; constructor.
  - apply andb_true_iff in H as [H _]. apply negb_true_iff in H.
    intros Hin. assert (existsb (str_eqb x) tl = true); [|congruence].
    apply existsb_exists. exists x. split; [exact Hin|apply str_eqb_refl].
  - apply andb_true_iff in H as [_ H]. now apply IH.
Qed.

Lemma count_id_absent (fires : Check.t -> bool) (id : jsstring)
  (l : list Check.t) :
  ~ In id (map Check.key l) ->
  Spec.count_id id (map clause_of (filter fires l)) = 0.
Proof.
  unfold Spec.count_id.
  induction l as [|c tl IH]; simpl; intros Hid; [reflexivity|].
  assert (Hne : str_eqb (Check.key c) id = false).
  { apply str_eqb_neq. intros E. apply Hid. now left. }
  destruct (fires c); simpl; rewrite ?Hne; apply IH; tauto.
Qed.

(** With distinct keys, each check accounts for one finding when it
    fires and for none when it does not. *)
Lemma count_id_checks (fires : Check.t -> bool) (l : list Check.t) :
  NoDup (map Check.key l) ->
  Forall (fun c => Spec.count_id (Check.key c) (map clause_of (filter fires l))
                   = if fires c then 1 else 0) l.
Proof.
  induction l as [|c tl IH]; simpl; intros Hnd; constructor.
  - inversion Hnd as [|? ? Hc _]; subst.
    pose proof (count_id_absent fires _ _ Hc) as H0.
    destruct (fires c); simpl; [|exact H0].
    unfold Spec.count_id in *. simpl. rewrite str_eqb_refl. simpl.
    now rewrite H0.
  - inversion Hnd as [|? ? Hc Htl]; subst.
    specialize (IH Htl). rewrite Forall_forall in IH |- *.
    intros c' Hc'. rewrite <- (IH c' Hc').
    destruct (fires c); [|reflexivity].
    unfold Spec.count_id. simpl.
    rewrite str_eqb_neq; [reflexivity|].
    intros E. apply Hc. rewrite E. now apply in_map.
Qed.

Lemma found_incl (fires : Check.t -> bool) (l : list Check.t) :
  incl (map clause_of (filter fires l)) (map clause_of l).
Proof. apply incl_map. intros c Hc. apply filter_In in Hc. tauto. Qed.

Lemma overall_as_specified (found : list Clause.t) :
  (if existsb (fun c => level_eqb (Clause.level c) danger) found then danger
   else if negb (length found =? 0) then warning else safe)
  = Spec.overall_of found.
Proof.
  unfold Spec.overall_of.
  destruct (existsb _ found); [reflexivity|]. now destruct found.
Qed.

Lemma checks_keys_distinct : NoDup (map Check.key checks).
Proof. apply distinct_NoDup. vm_compute. reflexivity. Qed.

Lemma count_id_tests (text : jsstring) :
  Forall (fun c => Spec.count_id (Check.key c) (items (localClassify text))
                   = if test (Check.rx c) text then 1 else 0) checks.
Proof.
  destruct text as [|c t].
  - vm_compute. repeat constructor.
  - apply (count_id_checks (fun k => test (Check.rx k) (c :: t))).
    exact checks_keys_distinct.
Qed.

(** C4.  For every text, each of the five categories contributes exactly
    one finding if the text contains a match of its pattern and none
    otherwise, however many matches there are; every finding is one of the
    five fixed findings (ids and severities as in section 4.4, each with
    its fixed explanation); and the overall severity is [danger] if a
    finding is [danger], else [warning] if there is a finding, else
    [safe]. *)
Theorem localClassify_findings (text : jsstring) :
  Forall (fun c =>
            (Spec.contains (Check.rx c) text ->
             Spec.count_id (Check.key c) (items (localClassify text)) = 1)
            /\ (~ Spec.contains (Check.rx c) text ->
                Spec.count_id (Check.key c) (items (localClassify text)) = 0))
         checks
  /\ incl (items (localClassify text)) (map clause_of checks)
  /\ map (fun f => (Clause.id f, Clause.level f)) (map clause_of checks)
     = Spec.categories
  /\ overall (localClassify text) = Spec.overall_of (items (localClassify text)).
Proof.
  split; [|split; [|split; [reflexivity|]]].
  - eapply Forall_impl; [|apply count_id_tests].
    intros c Hc. cbv beta in Hc. rewrite Hc.
    pose proof (test_contains (Check.rx c) text) as Ht.
    destruct (test (Check.rx c) text); split; intros H;
      try reflexivity.
    + exfalso. apply H. now apply Ht.
    + apply Ht in H. discriminate H.
  - destruct text as [|c t]; [intros x []|].
    apply (found_incl (fun k => test (Check.rx k) (c :: t))).
  - destruct text as [|c t]; [reflexivity|].
    apply (overall_as_specified
             (map clause_of
                  (filter (fun k => test (Check.rx k) (c :: t)) checks))).
Qed.

(** The contract at a text that mentions a fee. *)
Lemma localClassify_findings_witness :
  Spec.count_id (lit "fees") (items (localClassify (lit "a late fee"))) = 1.
Proof.
  pose proof (localClassify_findings (lit "a late fee")) as [H _].
  apply Forall_inv_tail, Forall_inv in H. apply (proj1 H).
  exists (lit "a late "), (lit "fee"), []. split; [reflexivity|].
  repeat (apply Spec.M_Alt_l || apply Spec.M_Alt_r).
  apply (Spec.M_Cat (w1 := [102%N])); [now apply Spec.M_Chars|].
  apply (Spec.M_Cat (w1 := [101%N])); [now apply Spec.M_Chars|].
  apply (Spec.M_Cat (w1 := [101%N]) (w2 := [])); [now apply Spec.M_Chars|].
  apply Spec.M_Empty.
Defined.

(** C9.  Classifying the empty text gives [safe] and no findings. *)
Theorem localClassify_empty :
  localClassify [] = {| overall := safe; items := [] |}.
Proof. reflexivity. Qed.

(* ================================================================== *)
(** * The translator *)
(* ================================================================== *)

(** C7.  Translation to the default language is the identity. *)
Theorem localTranslate_default (x : jsstring) :
  localTranslate x (lit "en") = x.
Proof. destruct x; reflexivity. Qed.

(** C10.  For the empty text and every target language, known or not,
    [localTranslate] returns the empty text, without marker. *)
Theorem localTranslate_empty (lang : jsstring) :
  localTranslate [] lang = [].
Proof. reflexivity. Qed.

(** C5, as stated, fails for the empty text: nothing is substituted, the
    output equals the input, and yet no marker is appended. *)
Lemma localTranslate_empty_unmarked :
  localTranslate [] (lit "es") = []
  /\ Spec.translate [] (lit "es") = approx_marker (lit "es")
  /\ localTranslate [] (lit "es") <> Spec.translate [] (lit "es").
Proof. vm_compute. repeat split; discriminate. Qed.

(** C5, amended.  For every non-empty text and every target language
    other than the default, [localTranslate] replaces, for each phrase
    registered for the language in turn, all occurrences of the phrase,
    taken as a case-sensitive literal, by its translation; the marker is
    appended if no substitution was made and not appended otherwise, and
    no substitution was made exactly when the output of the substitutions
    equals the input; for a language without registered phrases the text
    comes back unchanged with the marker. *)
Theorem localTranslate_contract (text lang : jsstring) :
  text <> [] ->
  lang <> lit "en" ->
  localTranslate text lang
  = Spec.substitute (Spec.phrases lang) text
      ++ (if Spec.substitutions (Spec.phrases lang) text =? 0
          then approx_marker lang else [])
  /\ localTranslate text lang = Spec.translate text lang
  /\ (Spec.substitutions (Spec.phrases lang) text = 0
      <-> Spec.substitute (Spec.phrases lang) text = text)
  /\ (lang <> lit "es" -> localTranslate text lang = text ++ approx_marker lang).
Proof.
  intros Htext Hlang.
  assert (Hmain : localTranslate text lang
                  = Spec.substitute (Spec.phrases lang) text
                      ++ (if Spec.substitutions (Spec.phrases lang) text =? 0
                          then approx_marker lang else [])).
  { unfold localTranslate. destruct text as [|c t]; [contradiction|].
    cbn [falsy]. rewrite (str_eqb_neq Hlang). cbv zeta.
    rewrite entries_for_phrases, fold_replace_literal.
    - f_equal.
      destruct (Nat.eqb_spec (Spec.substitutions (Spec.phrases lang) (c :: t)) 0)
        as [H0|H0].
      + apply substitutions_zero_iff in H0. rewrite H0.
        now rewrite str_eqb_refl.
      + rewrite str_eqb_neq; [reflexivity|].
        intros E. apply H0. now apply substitutions_zero_iff.
    - eapply Forall_impl; [|apply phrases_gain_d]. simpl. tauto. }
  split; [exact Hmain|]. split; [|split].
  - unfold Spec.translate. now rewrite (str_eqb_neq Hlang).
  - apply substitutions_zero_iff.
  - intros Hes. rewrite Hmain. unfold Spec.phrases.
    now rewrite (str_eqb_neq Hes).
Qed.

(** The contract at a registered phrase followed by a full stop. *)
Lemma localTranslate_contract_witness :
  localTranslate (lit "Mentions fees, charges or billing terms.") (lit "es")
  = Spec.translate (lit "Mentions fees, charges or billing terms.") (lit "es").
Proof.
  refine (proj1 (proj2 (@localTranslate_contract
            (lit "Mentions fees, charges or billing terms.") (lit "es") _ _)));
    vm_compute; discriminate.
Defined.

(* ================================================================== *)
(** * The orchestrator *)
(* ================================================================== *)

Lemma or_else_empty (s : jsstring) : or_else s [] = s.
Proof. now destruct s. Qed.

Section PipelineFacts.

Variable World : Type.
Variable api_configured : World -> bool.
Variable selection : World -> jsstring.
Variable summarizeText : jsstring -> World -> completion jsstring * World.
Variable generateText : jsstring -> World -> completion jsstring * World.
Variable translateText :
  jsstring -> jsstring -> World -> completion jsstring * World.

Local Notation "'step1'" :=
  (summarize_and_explain summarizeText generateText).
Local Notation "'step2'" := (translate_outputs translateText).
Local Notation "'body'" :=
  (runPipeline_body api_configured selection summarizeText generateText
                    translateText).
Local Notation "'run'" :=
  (runPipeline api_configured selection summarizeText generateText
               translateText).

(** The first step always completes; it leaves the sidebar and the text
    as they are. *)
Lemma summarize_and_explain_completes (hasAPI : bool) (m : Machine World) :
  exists w' s p,
    step1 hasAPI m
    = (Normal tt,
       mkMachine w' (sidebar m)
         (mkFrame (v_text (frame m)) s p (v_translatedSummary (frame m))
                  (v_translatedPlain (frame m)) (v_classification (frame m)))).
Proof.
  unfold summarize_and_explain. destruct hasAPI.
  - unfold_monad.
    destruct (summarizeText (v_text (frame m)) (world m)) as [[s|] w1];
      frames; [|repeat eexists].
    destruct (generateText (explain_prompt (v_text (frame m))) w1)
      as [[p|] w2]; frames; repeat eexists.
  - unfold_monad. repeat eexists.
Qed.

(** If either remote call of the first step fails, both outputs are the
    local ones. *)
Lemma summarize_and_explain_fallback (m : Machine World) :
  (fst (summarizeText (v_text (frame m)) (world m)) = Throw
   \/ exists s w1,
       summarizeText (v_text (frame m)) (world m) = (Normal s, w1)
       /\ fst (generateText (explain_prompt (v_text (frame m))) w1) = Throw) ->
  exists w',
    step1 true m
    = (Normal tt,
       mkMachine w' (sidebar m)
         (mkFrame (v_text (frame m))
                  (localSummarize (v_text (frame m)) 3)
                  (localRewrite (v_text (frame m)))
                  (v_translatedSummary (frame m))
                  (v_translatedPlain (frame m)) (v_classification (frame m)))).
Proof.
  unfold summarize_and_explain. unfold_monad.
  intros [H|(s & w1 & Hs & Hg)].
  - destruct (summarizeText (v_text (frame m)) (world m)) as [[s|] w1];
      [discriminate H|]. frames. eexists. reflexivity.
  - rewrite Hs. frames.
    destruct (generateText (explain_prompt (v_text (frame m))) w1)
      as [[p|] w2]; [discriminate Hg|].
    frames. eexists. reflexivity.
Qed.

(** The translation step always completes; it leaves the sidebar, the
    text, the summary and the plain-language text as they are. *)
Lemma translate_outputs_completes (hasAPI : bool) (lang : jsstring)
  (m : Machine World) :
  exists w' ts tp,
    step2 hasAPI lang m
    = (Normal tt,
       mkMachine w' (sidebar m)
         (mkFrame (v_text (frame m)) (v_summary (frame m)) (v_plain (frame m))
                  ts tp (v_classification (frame m)))).
Proof.
  unfold translate_outputs.
  destruct (negb (str_eqb lang (lit "en"))); [destruct hasAPI|].
  - unfold_monad.
    destruct (translateText (v_summary (frame m)) lang (world m))
      as [[ts|] w1]; frames; [|repeat eexists].
    destruct (translateText (v_plain (frame m)) lang w1) as [[tp|] w2];
      frames; repeat eexists.
  - unfold_monad. repeat eexists.
  - unfold_monad. repeat eexists.
Qed.

(** What follows the call of [createSidebar], step by step, when [sb] is
    an element: the text is resolved and shown, the two steps run from the
    machines shown, and the promise is fulfilled with the sidebar written
    from their outputs. *)
Lemma body_shape (text lang : jsstring) (w : World) (bar : Sidebar) :
  exists w1 s p w2 ts tp,
    step1 (api_configured w)
      (mkMachine w (Some (put_input (or_else text (selection w)) bar))
         (mkFrame (or_else text (selection w)) [] [] [] [] None))
    = (Normal tt,
       mkMachine w1 (Some (put_input (or_else text (selection w)) bar))
         (mkFrame (or_else text (selection w)) s p [] [] None))
    /\ step2 (api_configured w) lang
         (mkMachine w1
            (Some (put_input (or_else text (selection w)) bar))
            (mkFrame (or_else text (selection w)) s p [] [] None))
       = (Normal tt,
          mkMachine w2
            (Some (put_input (or_else text (selection w)) bar))
            (mkFrame (or_else text (selection w)) s p ts tp None))
    /\ body lang (mkMachine w (Some bar) (mkFrame text [] [] [] [] None))
       = (Normal tt,
          mkMachine w2
            (Some
               (mkSidebar (normalize_newlines (or_else text (selection w)))
                  (or_else ts dash) (or_else tp dash)
                  (map (render_risk lang)
                       (items (localClassify (or_else text (selection w)))))
                  (confidence_of
                     (overall (localClassify (or_else text (selection w)))))))
            (mkFrame (or_else text (selection w)) s p ts tp
               (Some (localClassify (or_else text (selection w)))))).
Proof.
  set (text' := or_else text (selection w)).
  set (m1 := mkMachine w (Some (put_input text' bar))
               (mkFrame text' [] [] [] [] None)).
  destruct (summarize_and_explain_completes (api_configured w) m1)
    as (w1 & s & p & H1).
  cbn [sidebar frame m1 v_text v_translatedSummary v_translatedPlain
       v_classification] in H1.
  set (m2 := mkMachine w1 (Some (put_input text' bar))
               (mkFrame text' s p [] [] None)) in *.
  destruct (translate_outputs_completes (api_configured w) lang m2)
    as (w2 & ts & tp & H2).
  cbn [sidebar frame m2 v_text v_summary v_plain v_classification] in H2.
  exists w1, s, p, w2, ts, tp.
  split; [exact H1|]. split; [exact H2|].
  assert (Hstart :
    forall k : jsstring -> bool -> M World unit,
      bind (var v_text)
        (fun text0 =>
           bind (if falsy text0
                 then bind (read selection)
                        (fun sel => assign (set_text (or_else sel [])))
                 else ret tt)
             (fun _ =>
                bind (var v_text)
                  (fun text1 =>
                     bind (write (put_input text1))
                       (fun _ => bind (read api_configured)
                                   (fun hasAPI => k text1 hasAPI)))))
        (mkMachine w (Some bar) (mkFrame text [] [] [] [] None))
      = k text' (api_configured w) m1).
  { intros k. unfold m1, text'.
    destruct text as [|c t]; unfold_monad; cbn [falsy or_else];
      frames; rewrite ?or_else_empty; reflexivity. }
  unfold runPipeline_body.
  etransitivity; [exact (Hstart _)|]. clear Hstart.
  unfold bind at 1. rewrite H1.
  unfold bind at 1. rewrite H2.
  unfold_monad. unfold put_input, put_summary, put_plain,
    put_risks, put_confidence.
  cbn [cd_input cd_summary cd_plain cd_risks cd_confidence].
  reflexivity.
Qed.

(** When [sb] is null the write of the input field throws: the text has
    been resolved, nothing else has happened. *)
Lemma body_without_sidebar (text lang : jsstring) (w : World) :
  body lang (mkMachine w None (mkFrame text [] [] [] [] None))
  = (Throw,
     mkMachine w None (mkFrame (or_else text (selection w)) [] [] [] [] None)).
Proof.
  unfold runPipeline_body.
  destruct text as [|c t]; unfold_monad; cbn [falsy or_else];
    frames; rewrite ?or_else_empty; reflexivity.
Qed.

(** C2.  When the remote capability is configured and a remote call of
    the summarize-and-explain step fails, be it the summary call or, after
    a successful summary call, the explanation call, then in a call that
    has its sidebar element both the summary and the plain-language text
    are the local ones ([localSummarize], then [localRewrite], of the
    input text), the remote summary that may have arrived is not kept, and
    the call completes normally; with the default language these local
    texts are what the sidebar shows.  The input text is the text passed
    in or, if that is empty, the window selection.  A call that
    [createSidebar] leaves without an element (it returned null or threw)
    is rejected before the step: no remote call has been made, the world
    is as it was. *)
Theorem runPipeline_remote_failure (text lang : jsstring) (w : World)
  (found : option Sidebar) (d : Document) :
  api_configured w = true ->
  (fst (summarizeText (or_else text (selection w)) w) = Throw
   \/ exists s w1,
       summarizeText (or_else text (selection w)) w = (Normal s, w1)
       /\ fst (generateText (explain_prompt (or_else text (selection w))) w1)
          = Throw) ->
  match createSidebar found d with
  | (Normal (Some _), d') =>
      exists m,
        run text lang w found d = (Normal tt, m, d')
        /\ v_summary (frame m) = localSummarize (or_else text (selection w)) 3
        /\ v_plain (frame m) = localRewrite (or_else text (selection w))
        /\ (lang = lit "en" ->
            option_map cd_summary (sidebar m)
            = Some (or_else (localSummarize (or_else text (selection w)) 3)
                            dash)
            /\ option_map cd_plain (sidebar m)
               = Some (or_else (localRewrite (or_else text (selection w)))
                               dash))
  | (Normal None, d') | (Throw, d') =>
      exists m,
        run text lang w found d = (Throw, m, d')
        /\ world m = w
        /\ v_summary (frame m) = [] /\ v_plain (frame m) = []
  end.
Proof.
  intros Hapi Hfail. unfold runPipeline.
  destruct (createSidebar found d) as [[[bar|]|] d'].
  - destruct (body_shape text lang w bar)
      as (w1 & s & p & w2 & ts & tp & H1 & H2 & Hrun).
    rewrite Hapi in H1, H2.
    destruct (@summarize_and_explain_fallback
                (mkMachine w
                   (Some (put_input (or_else text (selection w)) bar))
                   (mkFrame (or_else text (selection w)) [] [] [] [] None))
                Hfail) as (w1' & Hlocal).
    cbn [sidebar frame v_text v_translatedSummary v_translatedPlain
         v_classification] in Hlocal.
    rewrite Hlocal in H1. injection H1 as Hw Hs Hp. subst w1' s p.
    eexists. split; [rewrite Hrun; reflexivity|].
    cbn [frame sidebar v_summary v_plain option_map cd_summary cd_plain].
    split; [reflexivity|]. split; [reflexivity|].
    intros ->. unfold translate_outputs in H2.
    cbn [str_eqb lit negb] in H2.
    change (negb (str_eqb (lit "en") (lit "en"))) with false in H2.
    cbv iota in H2. unfold_monad. revert H2. unfold_monad. intros H2.
    injection H2 as _ Hts Htp. subst ts tp. split; reflexivity.
  - rewrite body_without_sidebar. eexists. repeat split; reflexivity.
  - eexists. repeat split; reflexivity.
Qed.

(** C6, as stated, fails for an empty text: the pipeline then takes the
    window selection, and the classification is that of the selection,
    not that of the text passed in. *)
Lemma runPipeline_classifies_selection :
  let call :=
    runPipeline (fun _ : unit => false)
      (fun _ => lit "The plan will auto-renew.")
      (fun _ w => (Throw, w)) (fun _ w => (Throw, w))
      (fun _ _ w => (Throw, w))
      [] (lit "en") tt None (mkDocument false false true true) in
  fst (fst call) = Normal tt
  /\ v_classification (frame (snd (fst call)))
     = Some (localClassify (lit "The plan will auto-renew."))
  /\ overall (localClassify (lit "The plan will auto-renew.")) = danger
  /\ localClassify [] = mkClassification safe []
  /\ v_classification (frame (snd (fst call))) <> Some (localClassify []).
Proof. vm_compute. repeat split; discriminate. Qed.

(** C6, amended.  For every input text, target language and world (remote
    capability configured or not, remote calls succeeding or failing), a
    call that has its sidebar element completes normally, and its
    classification is [localClassify] of the effective input text, which
    is the text passed in or, if that is empty, the window selection: no
    language, no remote result and no summary or explanation enters it.
    The confidence line and the risk rows are written from that
    classification; the target language only decides how the fixed
    explanation of a row is displayed.  A call that [createSidebar]
    leaves without an element is rejected and classifies nothing. *)
Theorem runPipeline_classification (text lang : jsstring) (w : World)
  (found : option Sidebar) (d : Document) :
  match createSidebar found d with
  | (Normal (Some _), d') =>
      exists m bar,
        run text lang w found d = (Normal tt, m, d')
        /\ sidebar m = Some bar
        /\ v_text (frame m) = or_else text (selection w)
        /\ (text <> [] -> v_text (frame m) = text)
        /\ v_classification (frame m)
           = Some (localClassify (v_text (frame m)))
        /\ cd_confidence bar
           = confidence_of (overall (localClassify (v_text (frame m))))
        /\ cd_risks bar
           = map (render_risk lang) (items (localClassify (v_text (frame m))))
        /\ map badge_text (cd_risks bar)
           = map (fun it => level_upper (Clause.level it))
                 (items (localClassify (v_text (frame m))))
  | (Normal None, d') | (Throw, d') =>
      exists m,
        run text lang w found d = (Throw, m, d')
        /\ v_classification (frame m) = None
  end.
Proof.
  unfold runPipeline.
  destruct (createSidebar found d) as [[[bar0|]|] d'].
  - destruct (body_shape text lang w bar0)
      as (w1 & s & p & w2 & ts & tp & _ & _ & Hrun).
    do 2 eexists. split; [rewrite Hrun; reflexivity|].
    cbn [sidebar frame v_text v_classification cd_confidence cd_risks].
    split; [reflexivity|]. split; [reflexivity|].
    split; [now destruct text|].
    repeat (split; [reflexivity|]).
    cbn [cd_risks frame v_text]. rewrite map_map. reflexivity.
  - rewrite body_without_sidebar. eexists. split; reflexivity.
  - eexists. split; reflexivity.
Qed.

End PipelineFacts.

(** The page has no sidebar yet and one is injected; the remote summary
    arrives, the remote explanation fails: both texts are the local
    ones. *)
Lemma runPipeline_remote_failure_witness :
  exists m,
    runPipeline (fun _ : unit => true) (fun _ => [])
      (fun _ w => (Normal (lit "a remote summary"), w))
      (fun _ w => (Throw, w)) (fun _ _ w => (Throw, w))
      (lit "You hereby agree.") (lit "en") tt None
      (mkDocument false false true true)
    = (Normal tt, m, mkDocument true true true true)
    /\ v_summary (frame m) = lit "You hereby agree."
    /\ v_plain (frame m) = lit "You this means agree.".
Proof.
  destruct (@runPipeline_remote_failure unit (fun _ => true) (fun _ => [])
              (fun _ w => (Normal (lit "a remote summary"), w))
              (fun _ w => (Throw, w)) (fun _ _ w => (Throw, w))
              (lit "You hereby agree.") (lit "en") tt None
              (mkDocument false false true true) eq_refl
              (or_intror
                 (ex_intro _ (lit "a remote summary")
                    (ex_intro _ tt (conj eq_refl eq_refl)))))
    as (m & Hrun & Hs & Hp & _).
  exists m. split; [exact Hrun|]. split; [exact Hs|exact Hp].
Defined.

(* ================================================================== *)
(** * Further properties of the text functions *)
(* ================================================================== *)

Lemma drop_while_clean (s : jsstring) :
  starts_clean s = true -> drop_while is_white_space s = s.
Proof.
  destruct s as [|c tl]; simpl; [reflexivity|].
  now destruct (is_white_space c).
Qed.

Lemma drop_while_starts_clean (s : jsstring) :
  starts_clean (drop_while is_white_space s) = true.
Proof.
  induction s as [|c tl IH]; simpl; [reflexivity|].
  destruct (is_white_space c) eqn:Hc; [exact IH|]. simpl. now rewrite Hc.
Qed.

(** [trim] cuts a piece out of the text: something before, something
    after, and in between a text that neither begins nor ends with white
    space. *)
Lemma trim_infix (s : jsstring) :
  exists a b,
    s = a ++ trim s ++ b
    /\ starts_clean (trim s) = true
    /\ starts_clean (rev (trim s)) = true.
Proof.
  unfold trim, trim_end, trim_start.
  set (d := drop_while is_white_space s).
  set (e := drop_while is_white_space (rev d)).
  pose proof (take_drop_while is_white_space s) as Hs. fold d in Hs.
  pose proof (take_drop_while is_white_space (rev d)) as Hd. fold e in Hd.
  assert (Hd' : d = rev e ++ rev (take_while is_white_space (rev d))).
  { rewrite <- rev_app_distr, Hd. now rewrite rev_involutive. }
  exists (take_while is_white_space s),
    (rev (take_while is_white_space (rev d))).
  split; [now rewrite <- Hd'|]. split.
  - pose proof (drop_while_starts_clean s) as Hc. fold d in Hc.
    rewrite Hd' in Hc. destruct (rev e); [reflexivity|exact Hc].
  - rewrite rev_involutive. apply drop_while_starts_clean.
Qed.

Lemma trim_idempotent (s : jsstring) : trim (trim s) = trim s.
Proof.
  destruct (trim_infix s) as (a & b & _ & H1 & H2).
  unfold trim at 1. unfold trim_end, trim_start.
  rewrite (drop_while_clean _ H1), (drop_while_clean _ H2).
  apply rev_involutive.
Qed.

Lemma trim_subset (s : jsstring) (c : code_unit) : In c (trim s) -> In c s.
Proof.
  destruct (trim_infix s) as (a & b & Hs & _). intros H.
  rewrite Hs. apply in_or_app. right. apply in_or_app. now left.
Qed.

Lemma collapse_newlines_no_newline (s : jsstring) :
  forall b, ~ In 10%N (Spec.collapse_newlines b s).
Proof.
  induction s as [|c tl IH]; intros b; simpl; [tauto|].
  unfold Spec.is_newline. destruct (N.eqb_spec c 10) as [->|Hne].
  - destruct b; [apply IH|]. intros [H|H]; [discriminate H|now apply IH in H].
  - intros [H|H]; [congruence|now apply IH in H].
Qed.

Lemma split_gaps_subset (s : jsstring) :
  forall g cur piece c,
    In piece (Spec.split_gaps g cur s) -> In c piece -> In c cur \/ In c s.
Proof.
  induction s as [|x tl IH]; intros g cur piece c Hp Hc; simpl in Hp.
  - destruct Hp as [<-|[]]. left. now apply in_rev.
  - assert (Hkeep : In piece (Spec.split_gaps false (x :: cur) tl) ->
                    In c cur \/ In c (x :: tl)).
    { intros H. destruct (IH _ _ _ _ H Hc) as [[<-|H']|H'];
        [right; now left|now left|right; now right]. }
    assert (Hgap : In piece (Spec.split_gaps true [] tl) ->
                   In c cur \/ In c (x :: tl)).
    { intros H. destruct (IH _ _ _ _ H Hc) as [[]|H']. right; now right. }
    destruct (is_white_space x); [|now apply Hkeep].
    destruct g; [now apply Hgap|].
    destruct (Spec.ends_with_terminal cur); [|now apply Hkeep].
    destruct Hp as [<-|Hp]; [left; now apply in_rev|now apply Hgap].
Qed.

(** X1.  Every sentence that [splitSentences] returns is non-empty, has
    no white space at either end, and holds no newline. *)
Theorem splitSentences_sentences (text : jsstring) :
  Forall (fun x => x <> [] /\ trim x = x /\ ~ In 10%N x)
         (splitSentences text).
Proof.
  rewrite splitSentences_segment. unfold Spec.segment.
  apply Forall_forall. intros x Hx.
  apply filter_In in Hx as [Hx Hne].
  apply in_map_iff in Hx as (p & <- & Hp).
  split; [|split].
  - intros E. rewrite E in Hne. discriminate Hne.
  - apply trim_idempotent.
  - intros H. apply trim_subset in H.
    destruct (split_gaps_subset _ _ _ _ _ Hp H) as [[]|H'].
    now apply collapse_newlines_no_newline in H'.
Qed.

Lemma ink_app (a b : jsstring) : ink (a ++ b) = ink a ++ ink b.
Proof. apply filter_app. Qed.

Lemma ink_rev (s : jsstring) : ink (rev s) = rev (ink s).
Proof.
  unfold ink. induction s as [|c tl IH]; simpl; [reflexivity|].
  rewrite filter_app, IH. simpl.
  destruct (is_white_space c); simpl; [now rewrite app_nil_r|reflexivity].
Qed.

Lemma ink_drop_while (s : jsstring) : ink (drop_while is_white_space s) = ink s.
Proof.
  induction s as [|c tl IH]; [reflexivity|].
  cbn [drop_while]. destruct (is_white_space c) eqn:Hc; [|reflexivity].
  rewrite IH. unfold ink. cbn [filter]. now rewrite Hc.
Qed.

Lemma ink_trim (s : jsstring) : ink (trim s) = ink s.
Proof.
  unfold trim, trim_end, trim_start.
  now rewrite ink_rev, ink_drop_while, ink_rev, rev_involutive, ink_drop_while.
Qed.

Lemma ink_collapse_newlines (s : jsstring) :
  forall b, ink (Spec.collapse_newlines b s) = ink s.
Proof.
  induction s as [|c tl IH]; intros b; simpl; [reflexivity|].
  destruct (Spec.is_newline c) eqn:Hn.
  - rewrite (newline_is_white_space c Hn). simpl.
    destruct b; simpl; apply IH.
  - simpl. now rewrite IH.
Qed.

Lemma ink_split_gaps (s : jsstring) :
  forall g cur,
    (g = true -> cur = []) ->
    ink (concat (Spec.split_gaps g cur s)) = ink (rev cur ++ s).
Proof.
  induction s as [|c tl IH]; intros g cur Hg; simpl.
  - now rewrite !app_nil_r.
  - assert (Hkeep : ink (concat (Spec.split_gaps false (c :: cur) tl))
                    = ink (rev cur ++ c :: tl)).
    { rewrite IH by discriminate. simpl. now rewrite <- app_assoc. }
    destruct (is_white_space c) eqn:Hc; [|exact Hkeep].
    assert (Hgap : ink (rev cur ++ concat (Spec.split_gaps true [] tl))
                   = ink (rev cur ++ c :: tl)).
    { rewrite !ink_app, IH by reflexivity. unfold ink at 4. simpl.
      now rewrite Hc. }
    destruct g.
    + rewrite (Hg eq_refl) in *. exact Hgap.
    + destruct (Spec.ends_with_terminal cur); [exact Hgap|exact Hkeep].
Qed.

(** X2.  Segmentation loses nothing but white space: the sentences, one
    after the other, hold the code units of the text that are not white
    space, all of them and in the same order. *)
Theorem splitSentences_keeps_ink (text : jsstring) :
  ink (concat (splitSentences text)) = ink text.
Proof.
  rewrite splitSentences_segment. unfold Spec.segment.
  transitivity
    (ink (concat (Spec.split_gaps false []
                    (Spec.collapse_newlines false text)))).
  2: { rewrite ink_split_gaps by discriminate. simpl.
       apply ink_collapse_newlines. }
  generalize (Spec.split_gaps false [] (Spec.collapse_newlines false text)).
  intros pieces. induction pieces as [|p tl IH]; [reflexivity|].
  cbn [map filter concat]. rewrite ink_app, <- IH, <- (ink_trim p).
  destruct (trim p) as [|c t]; cbn [falsy negb concat]; [reflexivity|].
  apply ink_app.
Qed.

Lemma collapse_spaces_run_clean (s : jsstring) :
  starts_clean (Spec.collapse_spaces true s) = true.
Proof.
  induction s as [|c tl IH]; simpl; [reflexivity|].
  destruct (is_white_space c) eqn:Hc; [exact IH|]. simpl. now rewrite Hc.
Qed.

Lemma collapse_spaces_spaced (s : jsstring) :
  forall b, spaced_out (Spec.collapse_spaces b s) = true.
Proof.
  induction s as [|c tl IH]; intros b; [reflexivity|].
  cbn [Spec.collapse_spaces].
  assert (Hrun : spaced_out (32%N :: Spec.collapse_spaces true tl) = true).
  { cbn [spaced_out]. rewrite IH, andb_true_r.
    pose proof (collapse_spaces_run_clean tl) as Hcl.
    destruct (Spec.collapse_spaces true tl) as [|d r]; [reflexivity|].
    simpl in Hcl. apply negb_true_iff in Hcl. now rewrite Hcl, andb_false_r. }
  destruct (is_white_space c) eqn:Hc.
  - destruct b; [apply IH|].
    destruct tl as [|d tl']; [simpl; now rewrite andb_false_r|].
    destruct (is_white_space d) eqn:Hd; [exact Hrun|].
    cbn [spaced_out]. rewrite IH, andb_true_r.
    simpl. rewrite Hd. simpl. now rewrite Hd, andb_false_r.
  - cbn [spaced_out]. now rewrite IH, Hc.
Qed.

Lemma spaced_out_no_adjacent (s : jsstring) :
  spaced_out s = true -> no_adjacent_white_space s.
Proof.
  intros Hs a. revert s Hs.
  induction a as [|x a IH]; intros s Hs c d b E Hc Hd; subst s.
  - simpl in Hs. rewrite Hc, Hd in Hs. discriminate Hs.
  - simpl app in Hs. cbn [spaced_out] in Hs.
    apply andb_true_iff in Hs as [_ Hs]. exact (IH _ Hs c d b eq_refl Hc Hd).
Qed.

Lemma no_adjacent_infix (a x b : jsstring) :
  no_adjacent_white_space (a ++ x ++ b) -> no_adjacent_white_space x.
Proof.
  intros H a' c d b' E. apply (H (a ++ a') c d (b' ++ b)).
  rewrite E, <- !app_assoc. reflexivity.
Qed.

(** X3.  The output of [localRewrite] is tidy: trimming it changes
    nothing (no white space at either end) and nowhere in it do two
    white-space characters stand side by side. *)
Theorem localRewrite_tidy (text : jsstring) :
  trim (localRewrite text) = localRewrite text
  /\ no_adjacent_white_space (localRewrite text).
Proof.
  destruct text as [|c t].
  - split; [reflexivity|]. intros [|x a] c d b E; discriminate E.
  - unfold localRewrite. cbn [falsy]. cbv zeta. rewrite replace_spaces_spec.
    split; [apply trim_idempotent|].
    match goal with |- context [Spec.collapse_spaces false ?o] =>
      destruct (trim_infix (Spec.collapse_spaces false o)) as (a & b & E & _);
      pose proof (@spaced_out_no_adjacent _ (collapse_spaces_spaced o false)) as H
    end.
    rewrite E in H. exact (@no_adjacent_infix _ _ _ H).
Qed.

(* ================================================================== *)
(** * Further properties of the classifier *)
(* ================================================================== *)

Lemma localClassify_nonempty (text : jsstring) :
  text <> [] ->
  localClassify text
  = {| overall :=
         Spec.overall_of
           (map clause_of (filter (fun k => test (Check.rx k) text) checks));
       items := map clause_of (filter (fun k => test (Check.rx k) text) checks) |}.
Proof.
  destruct text as [|c t]; [contradiction|]. intros _.
  unfold localClassify. cbn [falsy]. cbv zeta. f_equal.
  apply overall_as_specified.
Qed.

(** A pattern without assertions matches the same code units whatever
    stands before and after them. *)
Lemma matches_context (ic : bool) (r : regex) (before w after : jsstring) :
  Spec.matches ic r before w after ->
  assertion_free r = true ->
  forall before' after', Spec.matches ic r before' w after'.
Proof.
  induction 1 as [before after|cs c before after Hc
                 |r1 r2 w1 w2 before after _ IH1 _ IH2
                 |r1 r2 w before after _ IH|r1 r2 w before after _ IH
                 |r before after|r w before after _ IH Hne
                 |n cs w before after Hn Hall|before after Hx
                 |cs c before after Hc]; simpl; intros Haf before' after';
    try discriminate Haf.
  - constructor.
  - now constructor.
  - apply andb_true_iff in Haf as [H1 H2]. constructor; auto.
  - apply andb_true_iff in Haf as [H1 H2]. apply Spec.M_Alt_l; auto.
  - apply andb_true_iff in Haf as [H1 H2]. apply Spec.M_Alt_r; auto.
  - constructor.
  - apply Spec.M_Opt_some; auto.
  - now constructor.
Qed.

Lemma contains_embed (rx : RegExp) (a t b : jsstring) :
  assertion_free (pattern rx) = true ->
  Spec.contains rx t -> Spec.contains rx (a ++ t ++ b).
Proof.
  intros Haf (x & w & y & -> & Hm).
  exists (a ++ x), w, (y ++ b). split; [now rewrite <- !app_assoc|].
  exact (matches_context Hm Haf _ _).
Qed.

Lemma checks_assertion_free :
  Forall (fun c => assertion_free (pattern (Check.rx c)) = true) checks.
Proof. repeat constructor. Qed.

Lemma overall_of_monotone (l1 l2 : list Clause.t) :
  incl l1 l2 ->
  level_rank (Spec.overall_of l1) <= level_rank (Spec.overall_of l2).
Proof.
  intros Hincl. unfold Spec.overall_of.
  destruct (existsb (fun f => level_eqb (Clause.level f) danger) l1) eqn:H1.
  - apply existsb_exists in H1 as (f & Hf & Hd).
    assert (H2 : existsb (fun f => level_eqb (Clause.level f) danger) l2 = true).
    { apply existsb_exists. exists f. split; [now apply Hincl|exact Hd]. }
    now rewrite H2.
  - destruct l1 as [|f l1']; [simpl; lia|].
    assert (Hin : In f l2) by (apply Hincl; now left).
    destruct (existsb _ l2); [simpl; lia|].
    destruct l2; [contradiction|simpl; lia].
Qed.

(** X4.  Text around a text never hides a risk: every finding of [t] is
    a finding of any text that contains [t], and the overall severity of
    the larger text is at least that of [t]. *)
Theorem localClassify_monotone (a t b : jsstring) :
  incl (items (localClassify t)) (items (localClassify (a ++ t ++ b)))
  /\ level_rank (overall (localClassify t))
     <= level_rank (overall (localClassify (a ++ t ++ b))).
Proof.
  destruct t as [|c t'].
  - split; [intros x []|simpl; lia].
  - assert (Hne : a ++ (c :: t') ++ b <> []) by (destruct a; discriminate).
    rewrite (localClassify_nonempty Hne).
    rewrite (@localClassify_nonempty (c :: t')) by discriminate.
    cbn [items overall].
    assert (Hincl :
      incl (map clause_of
              (filter (fun k => test (Check.rx k) (c :: t')) checks))
           (map clause_of
              (filter (fun k => test (Check.rx k) (a ++ (c :: t') ++ b)) checks))).
    { apply incl_map. intros k Hk. apply filter_In in Hk as [Hk Ht].
      apply filter_In. split; [exact Hk|].
      apply test_contains. apply contains_embed; [|now apply test_contains].
      pose proof checks_assertion_free as Haf.
      rewrite Forall_forall in Haf. now apply Haf. }
    split; [exact Hincl|now apply overall_of_monotone].
Qed.

Lemma canonicalize_cases (c : code_unit) :
  (97 <= c <= 122 /\ canonicalize c = c - 32)%N
  \/ (~ (97 <= c <= 122)%N /\ canonicalize c = c).
Proof.
  unfold canonicalize.
  destruct (N.leb_spec 97 c), (N.leb_spec c 122); simpl;
    solve [left; split; [lia|reflexivity] | right; split; [lia|reflexivity]].
Qed.

Lemma canonicalize_idempotent (c : code_unit) :
  canonicalize (canonicalize c) = canonicalize c.
Proof.
  destruct (canonicalize_cases c) as [[Hr E]|[Hr E]]; rewrite E.
  - destruct (canonicalize_cases (c - 32)%N) as [[Hr' _]|[_ E']]; [lia|exact E'].
  - rewrite E. reflexivity.
Qed.

Lemma not_white_space_between (c : code_unit) :
  (33 <= c <= 159)%N -> is_white_space c = false.
Proof.
  intros H. unfold is_white_space.
  rewrite (proj2 (N.leb_gt c 13)) by lia.
  rewrite (proj2 (N.eqb_neq c 32)) by lia.
  rewrite (proj2 (N.eqb_neq c 160)) by lia.
  rewrite (proj2 (N.eqb_neq c 5760)) by lia.
  rewrite (proj2 (N.leb_gt 8192 c)) by lia.
  rewrite (proj2 (N.eqb_neq c 8232)) by lia.
  rewrite (proj2 (N.eqb_neq c 8233)) by lia.
  rewrite (proj2 (N.eqb_neq c 8239)) by lia.
  rewrite (proj2 (N.eqb_neq c 8287)) by lia.
  rewrite (proj2 (N.eqb_neq c 12288)) by lia.
  rewrite (proj2 (N.eqb_neq c 65279)) by lia.
  now rewrite andb_false_r.
Qed.

Lemma white_space_canonicalize (c : code_unit) :
  is_white_space (canonicalize c) = is_white_space c.
Proof.
  destruct (canonicalize_cases c) as [[Hr E]|[Hr E]]; rewrite E;
    [|reflexivity].
  now rewrite !not_white_space_between by lia.
Qed.

Lemma word_char_canonicalize (c : code_unit) :
  is_word_char (canonicalize c) = is_word_char c.
Proof.
  destruct (canonicalize_cases c) as [[Hr E]|[Hr E]]; rewrite E;
    [|reflexivity].
  unfold is_word_char.
  rewrite (proj2 (N.leb_le 65 (c - 32))) by lia.
  rewrite (proj2 (N.leb_le (c - 32) 90)) by lia.
  rewrite (proj2 (N.leb_le 97 c)) by lia.
  rewrite (proj2 (N.leb_le c 122)) by lia.
  simpl. now rewrite !orb_true_r.
Qed.

Lemma in_set_canonicalize (cs : char_set) (c : code_unit) :
  in_set true cs (canonicalize c) = in_set true cs c.
Proof.
  destruct cs as [p|l|]; simpl.
  - unfold same_char. now rewrite canonicalize_idempotent.
  - induction l as [|p l IH]; simpl; [reflexivity|].
    rewrite IH. f_equal. unfold same_char.
    now rewrite canonicalize_idempotent.
  - apply white_space_canonicalize.
Qed.

Lemma word_before_canonicalize (s : jsstring) :
  word_before (map canonicalize s) = word_before s.
Proof. destruct s; simpl; [reflexivity|apply word_char_canonicalize]. Qed.

Lemma many_canonicalize (cs : char_set) (suf : jsstring) :
  forall n pre,
    many true cs n (map canonicalize pre) (map canonicalize suf)
    = map fold_state (many true cs n pre suf).
Proof.
  induction suf as [|c tl IH]; intros n pre; simpl.
  - now destruct n.
  - rewrite in_set_canonicalize, map_app.
    f_equal; [|now destruct n].
    destruct (in_set true cs c); [|reflexivity].
    exact (IH (pred n) (c :: pre)).
Qed.

Lemma filter_fold_state (n : nat) (l : list state) :
  filter (fun st => negb (length (snd st) =? n)) (map fold_state l)
  = map fold_state (filter (fun st => negb (length (snd st) =? n)) l).
Proof.
  induction l as [|st l IH]; [reflexivity|].
  cbn [map filter]. rewrite IH. unfold fold_state at 1. cbn [snd].
  rewrite length_map.
  match goal with
  | |- (if ?b then _ else _) = map _ (if ?b' then _ else _) =>
      change b' with b; destruct b
  end; reflexivity.
Qed.

Lemma matcher_canonicalize (r : regex) :
  forall pre suf,
    matcher true r (map canonicalize pre) (map canonicalize suf)
    = map fold_state (matcher true r pre suf).
Proof.
  induction r as [|cs|r1 IH1 r2 IH2|r1 IH1 r2 IH2|r1 IH1|n cs| |cs];
    intros pre suf; simpl.
  - reflexivity.
  - destruct suf as [|c tl]; simpl; [reflexivity|].
    rewrite in_set_canonicalize. now destruct (in_set true cs c).
  - rewrite IH1. generalize (matcher true r1 pre suf). intros l.
    induction l as [|st l IHl]; simpl; [reflexivity|].
    rewrite map_app, <- IHl. f_equal. apply IH2.
  - now rewrite map_app, IH1, IH2.
  - rewrite map_app, IH1, length_map. f_equal.
    apply filter_fold_state.
  - apply many_canonicalize.
  - rewrite !word_before_canonicalize.
    now destruct (xorb (word_before pre) (word_before suf)).
  - destruct pre as [|c pre']; simpl; [reflexivity|].
    rewrite in_set_canonicalize. now destruct (in_set true cs c).
Qed.

Lemma exec_at_canonicalize (rx : RegExp) (pre suf : jsstring) :
  ignoreCase rx = true ->
  exec_at rx (map canonicalize pre) (map canonicalize suf)
  = exec_at rx pre suf.
Proof.
  intros Hi. unfold exec_at. rewrite Hi, matcher_canonicalize.
  destruct (matcher true (pattern rx) pre suf) as [|st l]; simpl;
    [reflexivity|].
  now rewrite !length_map.
Qed.

Lemma test_from_canonicalize (rx : RegExp) (suf : jsstring) :
  ignoreCase rx = true ->
  forall pre,
    test_from rx (map canonicalize pre) (map canonicalize suf)
    = test_from rx pre suf.
Proof.
  intros Hi. induction suf as [|c tl IH]; intros pre.
  - pose proof (@exec_at_canonicalize rx pre [] Hi) as H.
    cbn [map] in H. cbn [map test_from]. now rewrite H.
  - pose proof (@exec_at_canonicalize rx pre (c :: tl) Hi) as H.
    cbn [map] in H. cbn [map test_from]. rewrite H.
    destruct (exec_at rx pre (c :: tl)); [reflexivity|].
    exact (IH (c :: pre)).
Qed.

(** A case-insensitive pattern cannot tell two texts apart that differ
    only in the case of their ASCII letters. *)
Lemma test_same_letters (rx : RegExp) (t t' : jsstring) :
  ignoreCase rx = true ->
  map canonicalize t = map canonicalize t' ->
  test rx t = test rx t'.
Proof.
  intros Hi E. unfold test.
  rewrite <- (@test_from_canonicalize rx t Hi []).
  rewrite <- (@test_from_canonicalize rx t' Hi []).
  now rewrite E.
Qed.

Lemma checks_ignore_case :
  Forall (fun c => ignoreCase (Check.rx c) = true) checks.
Proof. repeat constructor. Qed.

(** X5.  The classifier does not look at the case of ASCII letters: two
    texts that are equal once their lower-case ASCII letters are put in
    upper case have the same classification. *)
Theorem localClassify_ignores_case (t t' : jsstring) :
  map canonicalize t = map canonicalize t' ->
  localClassify t = localClassify t'.
Proof.
  intros E. destruct t as [|c t0], t' as [|c' t0']; try discriminate E;
    [reflexivity|].
  rewrite !localClassify_nonempty by discriminate.
  assert (Hf : filter (fun k => test (Check.rx k) (c :: t0)) checks
               = filter (fun k => test (Check.rx k) (c' :: t0')) checks).
  { apply filter_ext_in. intros k Hk. apply test_same_letters; [|exact E].
    pose proof checks_ignore_case as Hi. rewrite Forall_forall in Hi.
    now apply Hi. }
  now rewrite Hf.
Qed.

(** Upper and lower case of the same words classify alike. *)
Lemma localClassify_ignores_case_witness :
  localClassify (lit "A LATE FEE applies") = localClassify (lit "a late fee APPLIES").
Proof. apply localClassify_ignores_case. reflexivity. Defined.

Lemma fixed_labels_spanish :
  Forall (fun it =>
            In (Clause.explain it, label (render_risk (lit "es") it))
               (entries_for (lit "es") TRANSLATIONS))
         (map clause_of checks).
Proof.
  repeat (apply Forall_cons; [vm_compute; auto 6|]). apply Forall_nil.
Qed.

(** X6.  In Spanish every risk row is fully translated: whatever the
    text, the explanation shown for a finding is the translation that
    [TRANSLATIONS] registers for it, never the English explanation with
    the approximation marker. *)
Theorem risk_rows_spanish (text : jsstring) :
  Forall (fun it =>
            In (Clause.explain it, label (render_risk (lit "es") it))
               (entries_for (lit "es") TRANSLATIONS))
         (items (localClassify text)).
Proof.
  apply Forall_forall. intros it Hit.
  pose proof fixed_labels_spanish as H. rewrite Forall_forall in H.
  apply H. destruct text as [|c t]; [destruct Hit|].
  exact (@found_incl (fun k => test (Check.rx k) (c :: t)) checks it Hit).
Qed.

(* ================================================================== *)
(** * Further properties of the orchestrator *)
(* ================================================================== *)

Lemma localTranslate_en (x : jsstring) : localTranslate x (lit "en") = x.
Proof. destruct x; reflexivity. Qed.

Section PipelineMore.

Variable World : Type.
Variable api_configured : World -> bool.
Variable selection : World -> jsstring.
Variable summarizeText : jsstring -> World -> completion jsstring * World.
Variable generateText : jsstring -> World -> completion jsstring * World.
Variable translateText :
  jsstring -> jsstring -> World -> completion jsstring * World.

Local Notation "'run'" :=
  (runPipeline api_configured selection summarizeText generateText
               translateText).

(** X7.  Without a configured remote capability the pipeline is local
    from end to end: a call that has its sidebar element completes, the
    world is the one it started in, and the machine it ends in is made of
    the local functions alone, whatever the three remote operations would
    do.  The input field reads as the input text with its newlines
    normalised. *)
Theorem runPipeline_offline (text lang : jsstring) (w : World)
  (found : option Sidebar) (d d' : Document) (bar : Sidebar) :
  api_configured w = false ->
  createSidebar found d = (Normal (Some bar), d') ->
  run text lang w found d
  = (Normal tt,
     mkMachine w
       (Some
          (mkSidebar (normalize_newlines (or_else text (selection w)))
             (or_else
                (localTranslate
                   (localSummarize (or_else text (selection w)) 3) lang) dash)
             (or_else
                (localTranslate (localRewrite (or_else text (selection w))) lang)
                dash)
             (map (render_risk lang)
                  (items (localClassify (or_else text (selection w)))))
             (confidence_of
                (overall (localClassify (or_else text (selection w)))))))
       (mkFrame (or_else text (selection w))
          (localSummarize (or_else text (selection w)) 3)
          (localRewrite (or_else text (selection w)))
          (localTranslate (localSummarize (or_else text (selection w)) 3) lang)
          (localTranslate (localRewrite (or_else text (selection w))) lang)
          (Some (localClassify (or_else text (selection w))))),
     d').
Proof.
  intros Hapi Hsb. unfold runPipeline. rewrite Hsb.
  destruct (body_shape api_configured selection summarizeText generateText
              translateText text lang w bar)
    as (w1 & s & p & w2 & ts & tp & H1 & H2 & Hrun).
  rewrite Hrun. clear Hrun.
  rewrite Hapi in H1, H2.
  unfold summarize_and_explain in H1. revert H1. unfold_monad. intros H1.
  injection H1 as <- <- <-.
  unfold translate_outputs in H2.
  destruct (str_eqb lang (lit "en")) eqn:Hen; cbn [negb] in H2;
    revert H2; unfold_monad; intros H2; injection H2 as <- <- <-.
  - apply str_eqb_eq in Hen. subst lang.
    rewrite !localTranslate_en. reflexivity.
  - reflexivity.
Qed.

(** X22.  Once the sidebar element is gone while [sidebarInjected] is
    still set, [runPipeline] is of no use: every call is rejected, before
    any remote call and before anything is classified, and it leaves the
    flag and the rest of the page as they are, so that the next call
    fails in the same way. *)
Theorem runPipeline_sidebar_gone (text lang : jsstring) (w : World)
  (d : Document) :
  sidebarInjected d = true ->
  run text lang w None d
  = (Throw,
     mkMachine w None (mkFrame (or_else text (selection w)) [] [] [] [] None),
     d).
Proof.
  intros Hflag. unfold runPipeline, createSidebar. rewrite Hflag.
  now rewrite (body_without_sidebar api_configured selection summarizeText
                 generateText translateText text lang w).
Qed.

(** X9.  In the translation step, with the remote capability in use and a
    target language other than the default: if the remote translation of
    the summary fails, or that one succeeds and the remote translation of
    the plain-language text fails, both translated texts are the local
    translations; a remote translation of the summary that did arrive is
    not kept, and the step completes. *)
Theorem translate_outputs_fallback (lang : jsstring) (m : Machine World) :
  lang <> lit "en" ->
  (fst (translateText (v_summary (frame m)) lang (world m)) = Throw
   \/ exists ts w1,
       translateText (v_summary (frame m)) lang (world m) = (Normal ts, w1)
       /\ fst (translateText (v_plain (frame m)) lang w1) = Throw) ->
  exists w',
    translate_outputs translateText true lang m
    = (Normal tt,
       mkMachine w' (sidebar m)
         (mkFrame (v_text (frame m)) (v_summary (frame m)) (v_plain (frame m))
            (localTranslate (v_summary (frame m)) lang)
            (localTranslate (v_plain (frame m)) lang)
            (v_classification (frame m)))).
Proof.
  intros Hlang Hfail. unfold translate_outputs.
  rewrite (str_eqb_neq Hlang). cbn [negb]. unfold_monad.
  destruct Hfail as [H|(ts & w1 & Hs & Hp)].
  - destruct (translateText (v_summary (frame m)) lang (world m))
      as [[ts|] w1]; [discriminate H|]. frames. eexists. reflexivity.
  - rewrite Hs. frames.
    destruct (translateText (v_plain (frame m)) lang w1) as [[tp|] w2];
      [discriminate Hp|]. frames. eexists. reflexivity.
Qed.

End PipelineMore.

(** No API key configured, a sidebar injected before and still there:
    the Spanish pipeline on a one-sentence text. *)
Lemma runPipeline_offline_witness :
  fst (runPipeline (fun _ : unit => false) (fun _ => [])
         (fun _ w => (Normal (lit "remote"), w))
         (fun _ w => (Normal (lit "remote"), w))
         (fun _ _ w => (Normal (lit "remote"), w))
         (lit "You hereby agree.") (lit "es") tt (Some fresh_sidebar)
         (mkDocument true true true true))
  = (Normal tt,
     mkMachine tt
       (Some
          (mkSidebar (lit "You hereby agree.")
             (lit "You hereby agree." ++ approx_marker (lit "es"))
             (lit "You this means agree." ++ approx_marker (lit "es"))
             [] (lit "Looks safe")))
       (mkFrame (lit "You hereby agree.") (lit "You hereby agree.")
          (lit "You this means agree.")
          (lit "You hereby agree." ++ approx_marker (lit "es"))
          (lit "You this means agree." ++ approx_marker (lit "es"))
          (Some (mkClassification safe [])))).
Proof.
  rewrite (@runPipeline_offline unit (fun _ => false) (fun _ => [])
             (fun _ w => (Normal (lit "remote"), w))
             (fun _ w => (Normal (lit "remote"), w))
             (fun _ _ w => (Normal (lit "remote"), w))
             (lit "You hereby agree.") (lit "es") tt (Some fresh_sidebar)
             (mkDocument true true true true) (mkDocument true true true true)
             fresh_sidebar eq_refl eq_refl).
  vm_compute. reflexivity.
Defined.

(** The element was removed by the page, the flag is still set. *)
Lemma runPipeline_sidebar_gone_witness :
  runPipeline (fun _ : unit => true) (fun _ => [])
    (fun _ w => (Normal (lit "remote"), w))
    (fun _ w => (Normal (lit "remote"), w))
    (fun _ _ w => (Normal (lit "remote"), w))
    (lit "You hereby agree.") (lit "en") tt None
    (mkDocument true true true true)
  = (Throw,
     mkMachine tt None (mkFrame (lit "You hereby agree.") [] [] [] [] None),
     mkDocument true true true true).
Proof.
  apply (@runPipeline_sidebar_gone unit (fun _ => true) (fun _ => [])
           (fun _ w => (Normal (lit "remote"), w))
           (fun _ w => (Normal (lit "remote"), w))
           (fun _ _ w => (Normal (lit "remote"), w))
           (lit "You hereby agree.") (lit "en") tt
           (mkDocument true true true true) eq_refl).
Defined.

(** The remote translation of the summary arrives, that of the plain
    text fails: both are translated locally. *)
Lemma translate_outputs_fallback_witness :
  exists w',
    translate_outputs
      (fun x _ (w : bool) => (if w then Normal (lit "remoto") else Throw, false))
      true (lit "es")
      (mkMachine true None
         (mkFrame (lit "t") (lit "Mentions fees, charges or billing terms")
                  (lit "plain") [] [] None))
    = (Normal tt,
       mkMachine w' None
         (mkFrame (lit "t") (lit "Mentions fees, charges or billing terms")
            (lit "plain")
            (localTranslate (lit "Mentions fees, charges or billing terms")
                            (lit "es"))
            (localTranslate (lit "plain") (lit "es")) None)).
Proof.
  apply (@translate_outputs_fallback bool
           (fun x _ (w : bool) =>
              (if w then Normal (lit "remoto") else Throw, false))
           (lit "es")
           (mkMachine true None
              (mkFrame (lit "t") (lit "Mentions fees, charges or billing terms")
                       (lit "plain") [] [] None))).
  - vm_compute. discriminate.
  - right. exists (lit "remoto"), false. split; reflexivity.
Defined.

(* ================================================================== *)
(** * The extraction half of the content script *)
(* ================================================================== *)

Lemma largest_step_keeps (seen : list ContentScript.Element)
  (acc : option ContentScript.Element * nat) (c : ContentScript.Element) :
  largest_so_far seen acc ->
  largest_so_far (seen ++ [c]) (ContentScript.largest_step acc c).
Proof.
  destruct acc as [best n]. unfold largest_so_far, ContentScript.largest_step.
  cbn [fst snd]. intros Inv.
  destruct (ContentScript.visible c) eqn:Hv; cbn [negb].
  - destruct (Nat.ltb_spec n (length (ContentScript.trimmed_text c)))
      as [Hlt|Hge]; cbn [fst snd].
    + split; [reflexivity|]. exists seen, []. split; [reflexivity|].
      split; [exact Hv|]. split.
      { intros E. rewrite E in Hlt. simpl in Hlt. lia. }
      split; [|constructor].
      destruct best as [b|].
      * destruct Inv as (Hn & before & after & -> & _ & _ & Hb & Ha).
        apply Forall_app. split; [|constructor].
        -- eapply Forall_impl; [|exact Hb]. cbv beta. intros a H Ha'.
           specialize (H Ha'). lia.
        -- intros _. lia.
        -- eapply Forall_impl; [|exact Ha]. cbv beta. intros a H Ha'.
           specialize (H Ha'). lia.
      * destruct Inv as [Hn Hall].
        eapply Forall_impl; [|exact Hall]. cbv beta. intros a H Ha'.
        rewrite (H Ha'). simpl. lia.
    + destruct best as [b|].
      * destruct Inv as (Hn & before & after & -> & Hvb & Hne & Hb & Ha).
        split; [exact Hn|]. exists before, (after ++ [c]).
        rewrite <- app_assoc. split; [reflexivity|].
        repeat (split; [assumption|]).
        apply Forall_app. split; [exact Ha|].
        constructor; [|constructor]. intros _. lia.
      * destruct Inv as [Hn Hall]. split; [exact Hn|].
        apply Forall_app. split; [exact Hall|].
        constructor; [|constructor]. intros _.
        destruct (ContentScript.trimmed_text c); [reflexivity|simpl in Hge; lia].
  - destruct best as [b|].
    + destruct Inv as (Hn & before & after & -> & Hvb & Hne & Hb & Ha).
      split; [exact Hn|]. exists before, (after ++ [c]).
      rewrite <- app_assoc. split; [reflexivity|].
      repeat (split; [assumption|]).
      apply Forall_app. split; [exact Ha|].
      constructor; [|constructor]. intros H. congruence.
    + destruct Inv as [Hn Hall]. split; [exact Hn|].
      apply Forall_app. split; [exact Hall|].
      constructor; [|constructor]. intros H. congruence.
Qed.

Lemma largest_fold (rest : list ContentScript.Element) :
  forall seen acc,
    largest_so_far seen acc ->
    largest_so_far (seen ++ rest)
                   (fold_left ContentScript.largest_step rest acc).
Proof.
  induction rest as [|c rest IH]; intros seen acc Inv; simpl.
  - now rewrite app_nil_r.
  - replace (seen ++ c :: rest) with ((seen ++ [c]) ++ rest)
      by now rewrite <- app_assoc.
    apply IH. now apply largest_step_keeps.
Qed.

(** X10.  [findLargestTextNode] returns null exactly when no visible
    candidate has text left after trimming; otherwise it returns a visible
    candidate whose trimmed text is non-empty and at least as long as that
    of every visible candidate, and strictly longer than that of every
    visible candidate before it: the first of the longest. *)
Theorem findLargestTextNode_first_longest
  (candidates : list ContentScript.Element) :
  match ContentScript.findLargestTextNode candidates with
  | None =>
      Forall (fun c => ContentScript.visible c = true ->
                       ContentScript.trimmed_text c = []) candidates
  | Some b =>
      exists before after,
        candidates = before ++ b :: after
        /\ ContentScript.visible b = true
        /\ ContentScript.trimmed_text b <> []
        /\ Forall (fun c => ContentScript.visible c = true ->
                            length (ContentScript.trimmed_text c)
                            < length (ContentScript.trimmed_text b)) before
        /\ Forall (fun c => ContentScript.visible c = true ->
                            length (ContentScript.trimmed_text c)
                            <= length (ContentScript.trimmed_text b)) after
  end.
Proof.
  unfold ContentScript.findLargestTextNode.
  pose proof (@largest_fold candidates [] (None, 0)) as H.
  cbn [app] in H. unfold largest_so_far at 2 in H.
  specialize (H (conj eq_refl (Forall_nil _))).
  unfold largest_so_far in H.
  destruct (fst (fold_left ContentScript.largest_step candidates (None, 0)));
    tauto.
Qed.

Lemma clean_ends_trimmed (s : jsstring) :
  starts_clean s = true -> starts_clean (rev s) = true -> trim s = s.
Proof.
  intros H1 H2. unfold trim, trim_end, trim_start.
  rewrite (drop_while_clean _ H1), (drop_while_clean _ H2).
  apply rev_involutive.
Qed.

Lemma trim_solid (s : jsstring) : trim s <> [] -> solid (trim s).
Proof.
  intros Hne. destruct (trim_infix s) as (a & b & _ & H1 & H2).
  repeat split; assumption.
Qed.

Lemma starts_clean_app (a b : jsstring) :
  a <> [] -> starts_clean (a ++ b) = starts_clean a.
Proof. destruct a; [contradiction|reflexivity]. Qed.

Lemma join_solid (sep : jsstring) (l : list jsstring) :
  l <> [] -> Forall solid l -> solid (join sep l).
Proof.
  induction l as [|x l IH]; [contradiction|]. intros _ Hall.
  inversion Hall as [|? ? Hx Hl]; subst.
  destruct l as [|y l']; [exact Hx|].
  destruct (IH ltac:(discriminate) Hl) as (Hne & Hs & He).
  destruct Hx as (Hxne & Hxs & Hxe).
  change (join sep (x :: y :: l')) with (x ++ sep ++ join sep (y :: l')).
  repeat split.
  - destruct x; [contradiction|discriminate].
  - now rewrite starts_clean_app.
  - rewrite !rev_app_distr, <- app_assoc, starts_clean_app; [exact He|].
    intros E. apply Hne. apply (f_equal (@rev code_unit)) in E.
    now rewrite rev_involutive in E.
Qed.

Lemma ink_nil (s : jsstring) : ink s = [] <-> forallb is_white_space s = true.
Proof.
  unfold ink. induction s as [|c tl IH]; simpl; [tauto|].
  destruct (is_white_space c); simpl; [exact IH|]. split; discriminate.
Qed.

Lemma paragraph_texts_solid (ps : list (option jsstring)) :
  Forall solid
    (map ContentScript.text_or_empty
         (filter ContentScript.truthy_text
                 (map ContentScript.paragraph_text ps))).
Proof.
  induction ps as [|p ps IH]; simpl; [constructor|].
  destruct p as [s|]; simpl; [|exact IH].
  destruct s as [|c s']; simpl; [exact IH|].
  destruct (trim (c :: s')) as [|d t] eqn:Ht; simpl; [exact IH|].
  constructor; [|exact IH]. rewrite <- Ht. apply trim_solid.
  rewrite Ht. discriminate.
Qed.

Lemma paragraph_texts_nil (ps : list (option jsstring)) :
  map ContentScript.text_or_empty
      (filter ContentScript.truthy_text (map ContentScript.paragraph_text ps))
  = []
  <-> Forall (fun p => ink (ContentScript.text_or_empty p) = []) ps.
Proof.
  induction ps as [|p ps IH]; simpl; [split; constructor|].
  destruct p as [s|]; simpl.
  - destruct s as [|c s']; simpl.
    + rewrite IH. split; [now constructor|now inversion 1].
    + destruct (trim (c :: s')) as [|d t] eqn:Ht; simpl.
      * rewrite IH. apply trim_nil, ink_nil in Ht.
        split; [now constructor|now inversion 1].
      * split; [discriminate|]. inversion 1 as [|? ? Hi _]; subst.
        apply ink_nil, trim_nil in Hi. simpl ContentScript.text_or_empty in Hi.
        congruence.
  - rewrite IH. split; [now constructor|now inversion 1].
Qed.

Lemma extract_trimmed (n : ContentScript.Element) :
  trim (ContentScript.extractParagraphsFromNode (Some n))
  = ContentScript.extractParagraphsFromNode (Some n).
Proof.
  unfold ContentScript.extractParagraphsFromNode. cbv zeta.
  pose proof (paragraph_texts_solid (ContentScript.paragraphs n)) as Hsolid.
  destruct (map ContentScript.text_or_empty
              (filter ContentScript.truthy_text
                 (map ContentScript.paragraph_text (ContentScript.paragraphs n))))
    as [|x l]; cbn [length Nat.eqb negb]; [apply trim_idempotent|].
  destruct (@join_solid [10%N; 10%N] (x :: l) ltac:(discriminate) Hsolid)
    as (Hne & Hs & He).
  now apply clean_ends_trimmed.
Qed.

(** X11.  The text that [extractParagraphsFromNode] returns has no white
    space at either end, and it is empty only when there is nothing to
    read: no paragraph of the node and not the node itself has a
    character that is not white space. *)
Theorem extractParagraphsFromNode_text (n : ContentScript.Element) :
  trim (ContentScript.extractParagraphsFromNode (Some n))
  = ContentScript.extractParagraphsFromNode (Some n)
  /\ (ContentScript.extractParagraphsFromNode (Some n) = []
      <-> Forall (fun p => ink (ContentScript.text_or_empty p) = [])
                 (ContentScript.paragraphs n)
          /\ ink (ContentScript.text_or_empty (ContentScript.innerText n)) = []).
Proof.
  unfold ContentScript.extractParagraphsFromNode. cbv zeta.
  pose proof (paragraph_texts_solid (ContentScript.paragraphs n)) as Hsolid.
  pose proof (paragraph_texts_nil (ContentScript.paragraphs n)) as Hnil.
  destruct (map ContentScript.text_or_empty
              (filter ContentScript.truthy_text
                 (map ContentScript.paragraph_text (ContentScript.paragraphs n))))
    as [|x l] eqn:Hp.
  - cbn [length Nat.eqb negb]. split; [apply trim_idempotent|].
    rewrite ink_nil, <- trim_nil. split.
    + intros H. split; [now apply Hnil|exact H].
    + tauto.
  - cbn [length Nat.eqb negb].
    destruct (@join_solid [10%N; 10%N] (x :: l) ltac:(discriminate) Hsolid)
      as (Hne & Hs & He).
    split; [now apply clean_ends_trimmed|].
    split; [contradiction|]. intros [H _]. apply Hnil in H. discriminate H.
Qed.

(** Under the flag [i] the pattern of a phrase matches the code units
    that equal the phrase up to the case of ASCII letters. *)
Lemma matches_literal_i (k : jsstring) :
  forall before w after,
    Spec.matches true (literal k) before w after
    <-> map canonicalize w = map canonicalize k.
Proof.
  induction k as [|p k IH]; intros before w after; simpl.
  - split.
    + inversion 1. reflexivity.
    + destruct w; [constructor|discriminate].
  - split.
    + inversion 1 as [| |r1 r2 w1 w2 b a H1 H2| | | | | | |]; subst.
      inversion H1 as [|cs c b a Hc| | | | | | | |]; subst.
      apply IH in H2. simpl in Hc. unfold same_char in Hc.
      apply N.eqb_eq in Hc. simpl. now rewrite Hc, H2.
    + destruct w as [|c w']; [discriminate|]. simpl. intros E.
      injection E as Hc Hw.
      apply (Spec.M_Cat (w1 := [c]) (w2 := w')).
      * constructor. simpl. unfold same_char. now apply N.eqb_eq.
      * now apply IH.
Qed.

Lemma canonicalize_slash (c : code_unit) :
  canonicalize c = 47%N <-> c = 47%N.
Proof.
  destruct (canonicalize_cases c) as [[Hr E]|[Hr E]]; rewrite E; lia.
Qed.

(** [(?:\/|$)] at a position: a slash follows, or nothing does. *)
Lemma slash_or_end (pre suf : jsstring) :
  (exists st,
     In st (ContentScript.amatcher true
              (ContentScript.Either (ContentScript.Plain (word "/"))
                                    ContentScript.AtEnd) pre suf))
  <-> suf = [] \/ exists r, suf = 47%N :: r.
Proof.
  destruct suf as [|c tl]; simpl.
  - split; [now left|]. intros _. eexists. now left.
  - unfold same_char. change (canonicalize 47%N) with 47%N.
    destruct (N.eqb_spec (canonicalize c) 47) as [E|NE]; simpl.
    + pose proof (proj1 (canonicalize_slash c) E) as Hc.
      split; [right; exists tl; now rewrite Hc|]. intros _. eexists. now left.
    + split; [now intros [st []]|].
      intros [H|[r H]]; [discriminate H|].
      injection H as -> _. exfalso. now apply NE.
Qed.

Lemma atest_anchored (a : ContentScript.anchored) (suf : jsstring) :
  forall pre,
    pre <> [] ->
    ContentScript.atest_from (ContentScript.Then ContentScript.AtStart a)
                             pre suf = false.
Proof.
  induction suf as [|c tl IH]; intros pre Hpre;
    destruct pre as [|x pre']; try contradiction; simpl.
  - reflexivity.
  - apply IH. discriminate.
Qed.

(** The path pattern accepts the paths that begin, in any letter case,
    with [/legal] or [/legal-and-conditions] and then end or go on with a
    slash. *)
Lemma path_pattern_accepts (pathname : jsstring) :
  existsb (fun rx => ContentScript.atest rx pathname)
          ContentScript.PATH_PATTERNS = true
  <-> exists head rest,
        pathname = head ++ rest
        /\ (map canonicalize head = lit "/LEGAL"
            \/ map canonicalize head = lit "/LEGAL-AND-CONDITIONS")
        /\ (rest = [] \/ exists r, rest = 47%N :: r).
Proof.
  unfold ContentScript.PATH_PATTERNS, ContentScript.atest.
  cbn [existsb]. rewrite orb_false_r.
  set (A := seq [word "/legal"; Opt (word "-and-conditions")]).
  set (E := ContentScript.Either (ContentScript.Plain (word "/"))
                                 ContentScript.AtEnd).
  assert (Hnonempty :
    ContentScript.atest_from
      (ContentScript.Then ContentScript.AtStart
         (ContentScript.Then (ContentScript.Plain A) E)) [] pathname = true
    <-> exists st x,
          In st (matcher true A [] pathname)
          /\ In x (ContentScript.amatcher true E (fst st) (snd st))).
  { assert (Hm :
      ContentScript.amatcher true
        (ContentScript.Then ContentScript.AtStart
           (ContentScript.Then (ContentScript.Plain A) E)) [] pathname
      = flat_map (fun st => ContentScript.amatcher true E (fst st) (snd st))
                 (matcher true A [] pathname)).
    { simpl. now rewrite app_nil_r. }
    destruct pathname as [|c tl]; cbn [ContentScript.atest_from]; rewrite Hm;
      destruct (flat_map _ _) as [|x l] eqn:Hfm.
    - split; [discriminate|]. intros (st & x & Hst & Hx).
      assert (Hin : In x []); [|destruct Hin].
      rewrite <- Hfm. apply in_flat_map. now exists st.
    - split; [|reflexivity]. intros _.
      assert (Hin : In x (x :: l)) by now left.
      rewrite <- Hfm in Hin. apply in_flat_map in Hin as (st & Hst & Hx).
      now exists st, x.
    - rewrite atest_anchored by discriminate.
      split; [discriminate|]. intros (st & x & Hst & Hx).
      assert (Hin : In x []); [|destruct Hin].
      rewrite <- Hfm. apply in_flat_map. now exists st.
    - split; [|reflexivity]. intros _.
      assert (Hin : In x (x :: l)) by now left.
      rewrite <- Hfm in Hin. apply in_flat_map in Hin as (st & Hst & Hx).
      now exists st, x. }
  rewrite Hnonempty. clear Hnonempty. split.
  - intros (st & x & Hst & Hx).
    apply matcher_sound in Hst as (w & Hp & _ & Hw).
    assert (Hrest : snd st = [] \/ exists r, snd st = 47%N :: r)
      by (apply (slash_or_end (fst st)); now exists x).
    exists w, (snd st). split; [exact Hp|]. split; [|exact Hrest].
    unfold A in Hw. cbn [seq] in Hw.
    inversion Hw as [| |r1 r2 w1 w2 b a H1 H2| | | | | | |]; subst.
    apply matches_literal_i in H1. rewrite map_app, H1.
    inversion H2 as [| | | | |r b a|r w0 b a H3 _| | |]; subst.
    + left. now rewrite app_nil_r.
    + right. apply matches_literal_i in H3. now rewrite H3.
  - intros (head & rest & -> & Hhead & Hrest).
    assert (Hw : Spec.matches true A [] head rest).
    { unfold A. cbn [seq]. destruct Hhead as [Hh|Hh].
      - rewrite <- (app_nil_r head).
        apply Spec.M_Cat; [now apply matches_literal_i|constructor].
      - change (lit "/LEGAL-AND-CONDITIONS")
          with (lit "/LEGAL" ++ lit "-AND-CONDITIONS") in Hh.
        apply map_eq_app in Hh as (h1 & h2 & -> & Ha & Hb).
        apply Spec.M_Cat; [now apply matches_literal_i|].
        apply Spec.M_Opt_some; [now apply matches_literal_i|].
        intros E0. rewrite E0 in Hb. discriminate Hb. }
    apply matcher_complete in Hw. rewrite app_nil_r in Hw.
    destruct (proj2 (slash_or_end (rev head) rest) Hrest) as [x Hx].
    now exists (rev head, rest), x.
Qed.

(** X12.  [pathMatches] accepts a URL exactly when it parses and its path
    begins, in any letter case, with [/legal] or [/legal-and-conditions]
    and then either ends or goes on with a slash. *)
Theorem pathMatches_accepts (URL_pathname : jsstring -> option jsstring)
  (href : jsstring) :
  ContentScript.pathMatches URL_pathname href = true
  <-> exists pathname head rest,
        URL_pathname href = Some pathname
        /\ pathname = head ++ rest
        /\ (map canonicalize head = lit "/LEGAL"
            \/ map canonicalize head = lit "/LEGAL-AND-CONDITIONS")
        /\ (rest = [] \/ exists r, rest = 47%N :: r).
Proof.
  unfold ContentScript.pathMatches.
  destruct (URL_pathname href) as [pathname|].
  - rewrite path_pattern_accepts. split.
    + intros (head & rest & H). now exists pathname, head, rest.
    + intros (p & head & rest & E & H). injection E as <-.
      now exists head, rest.
  - split; [discriminate|]. intros (p & _ & _ & E & _). discriminate E.
Qed.

Section ExtractionFacts.

Variable World : Type.
Variable URL_pathname : jsstring -> option jsstring.
Variable waitForSelector :
  jsstring -> World -> completion (option ContentScript.Element) * World.
Variable googleAI_loaded : World -> bool.
Variable summarizeText : jsstring -> World -> completion jsstring * World.
Variable generateText : jsstring -> World -> completion jsstring * World.
Variable candidates : World -> list ContentScript.Element.
Variable body : World -> option ContentScript.Element.
Variable runtime_available : World -> bool.
Variable tick : World -> World.

Local Notation "'Page'" := (ContentScript.Page World).
Local Notation "'processText'" :=
  (ContentScript.processText googleAI_loaded summarizeText generateText).
Local Notation "'try_selectors'" :=
  (ContentScript.try_selectors waitForSelector googleAI_loaded summarizeText
                               generateText).
Local Notation "'findAndExtract'" :=
  (ContentScript.findAndExtract waitForSelector googleAI_loaded summarizeText
                                generateText candidates body).
Local Notation "'handleIfTarget'" :=
  (ContentScript.handleIfTarget URL_pathname waitForSelector googleAI_loaded
     summarizeText generateText candidates body runtime_available tick).

Lemma keeps_ret {A} (a : A) : keeps_page (Script.ret (S:=Page) a).
Proof. intros st. repeat split. Qed.

Lemma keeps_throw {A} : keeps_page (Script.throw (S:=Page) (A:=A)).
Proof. intros st. repeat split. Qed.

Lemma keeps_await {A} (call : World -> completion A * World) :
  keeps_page (ContentScript.await call).
Proof.
  intros st. unfold ContentScript.await.
  destruct (call (ContentScript.pg_world st)). repeat split.
Qed.

Lemma keeps_get {A} (f : Page -> A) : keeps_page (Script.get f).
Proof. intros st. repeat split. Qed.

Lemma keeps_bind {A B} (c : Script.M Page A) (k : A -> Script.M Page B) :
  keeps_page c -> (forall a, keeps_page (k a)) -> keeps_page (Script.bind c k).
Proof.
  intros Hc Hk st. unfold Script.bind.
  destruct (Hc st) as (H1 & H2 & H3).
  destruct (c st) as [[a|] st1]; cbn [snd] in *; [|now repeat split].
  destruct (Hk a st1) as (K1 & K2 & K3).
  repeat split; congruence.
Qed.

Lemma keeps_try_catch {A} (b h : Script.M Page A) :
  keeps_page b -> keeps_page h -> keeps_page (Script.try_catch b h).
Proof.
  intros Hb Hh st. unfold Script.try_catch.
  destruct (Hb st) as (H1 & H2 & H3).
  destruct (b st) as [[a|] st1]; cbn [snd] in *; [now repeat split|].
  destruct (Hh st1) as (K1 & K2 & K3).
  repeat split; congruence.
Qed.

Lemma keeps_if_loaded (op : World -> completion jsstring * World) :
  keeps_page (ContentScript.if_loaded googleAI_loaded op).
Proof.
  unfold ContentScript.if_loaded. apply keeps_bind; [apply keeps_get|].
  intros [|]; [apply keeps_await|apply keeps_throw].
Qed.

Lemma keeps_processText (text : jsstring) : keeps_page (processText text).
Proof.
  unfold ContentScript.processText.
  apply keeps_try_catch; [|apply keeps_throw].
  apply keeps_bind; [apply keeps_if_loaded|]. intros s.
  apply keeps_bind; [apply keeps_if_loaded|]. intros e. apply keeps_ret.
Qed.

Lemma keeps_try_selectors (sels : list jsstring) :
  keeps_page (try_selectors sels).
Proof.
  induction sels as [|sel rest IH]; cbn [ContentScript.try_selectors].
  - apply keeps_ret.
  - apply keeps_bind.
    + apply keeps_try_catch; [apply keeps_await|apply keeps_ret].
    + intros [n|]; [|exact IH].
      apply keeps_bind; [apply keeps_processText|]. intros p. apply keeps_ret.
Qed.

Lemma keeps_findAndExtract : keeps_page findAndExtract.
Proof.
  unfold ContentScript.findAndExtract.
  apply keeps_bind; [apply keeps_try_selectors|].
  intros [e|]; [apply keeps_ret|].
  apply keeps_bind; [apply keeps_get|].
  intros [l|]; [apply keeps_ret|].
  apply keeps_bind; [apply keeps_get|]. intros b. apply keeps_ret.
Qed.

(** A call that gets past the two checks: the URL is recorded, the wait
    passes, [findAndExtract] runs; if it fails the call fails, otherwise
    the payload is sent if the runtime lets it and stored on the window. *)
Lemma handleIfTarget_shape (url : jsstring) (st : Page) :
  ContentScript.pathMatches URL_pathname url = true ->
  ContentScript.same_url (ContentScript.lastProcessed st) url = false ->
  handleIfTarget url st
  = match findAndExtract
            (ContentScript.mkPage (tick (ContentScript.pg_world st))
               (Some url) (ContentScript.outbox st)
               (ContentScript.lastExtractedTerms st)) with
    | (Throw, st3) => (Throw, st3)
    | (Normal e, st3) =>
        match URL_pathname url with
        | None => (Throw, st3)
        | Some path =>
            (Normal tt,
             ContentScript.mkPage (ContentScript.pg_world st3)
               (ContentScript.lastProcessed st3)
               (if runtime_available (ContentScript.pg_world st3)
                then ContentScript.outbox st3
                       ++ [ContentScript.mkMessage (lit "extractedContent")
                             (ContentScript.mkPayload url path e)]
                else ContentScript.outbox st3)
               (Some (ContentScript.mkPayload url path e)))
        end
    end.
Proof.
  intros Hpath Hnew. unfold ContentScript.handleIfTarget.
  rewrite Hpath. cbn [negb].
  unfold Script.bind at 1. unfold Script.get at 1. rewrite Hnew.
  unfold Script.bind at 1. unfold Script.modify at 1.
  unfold Script.bind at 1. unfold Script.modify at 1.
  unfold Script.bind at 1.
  cbn [ContentScript.pg_world ContentScript.lastProcessed ContentScript.outbox
       ContentScript.lastExtractedTerms].
  destruct (findAndExtract _) as [[e|] st3]; [|reflexivity].
  destruct (URL_pathname url) as [path|]; [|reflexivity].
  unfold Script.bind, ContentScript.sendExtracted, Script.try_catch,
    ContentScript.chrome_runtime_sendMessage, Script.modify, Script.ret.
  destruct (runtime_available (ContentScript.pg_world st3)); reflexivity.
Qed.

Lemma same_url_true (lp : option jsstring) (url : jsstring) :
  ContentScript.same_url lp url = true <-> lp = Some url.
Proof.
  destruct lp as [u|]; simpl; [|split; discriminate].
  rewrite str_eqb_eq. split; congruence.
Qed.

Lemma handleIfTarget_skip (url : jsstring) (st : Page) :
  ContentScript.pathMatches URL_pathname url = false
  \/ ContentScript.lastProcessed st = Some url ->
  handleIfTarget url st = (Normal tt, st).
Proof.
  unfold ContentScript.handleIfTarget.
  destruct (ContentScript.pathMatches URL_pathname url); cbn [negb];
    [|reflexivity].
  intros [H|H]; [discriminate H|].
  unfold Script.bind at 1. unfold Script.get at 1.
  now rewrite (proj2 (same_url_true _ _) H).
Qed.

(** X13.  The script handles a URL once.  After a call for a URL that
    [pathMatches] accepts, [lastProcessed] is that URL whether the call
    completed or failed, and as long as it is, a call for the same URL
    does nothing at all; so a call repeated right away does nothing, and a
    URL whose extraction failed is not tried again. *)
Theorem handleIfTarget_once (url : jsstring) (st : Page) :
  handleIfTarget url (snd (handleIfTarget url st))
  = (Normal tt, snd (handleIfTarget url st))
  /\ (ContentScript.pathMatches URL_pathname url = true ->
      ContentScript.lastProcessed (snd (handleIfTarget url st)) = Some url)
  /\ (forall st2,
        ContentScript.lastProcessed st2 = Some url ->
        handleIfTarget url st2 = (Normal tt, st2)).
Proof.
  assert (Hmark : ContentScript.pathMatches URL_pathname url = true ->
            ContentScript.lastProcessed (snd (handleIfTarget url st))
            = Some url).
  { intros Hpath.
    destruct (ContentScript.same_url (ContentScript.lastProcessed st) url)
      eqn:Hsame.
    - apply same_url_true in Hsame.
      rewrite handleIfTarget_skip by (now right). exact Hsame.
    - rewrite (handleIfTarget_shape url st Hpath Hsame).
      match goal with |- context [findAndExtract ?s] =>
        destruct (keeps_findAndExtract s) as (Hlp & _ & _);
        destruct (findAndExtract s) as [[e|] st3]
      end; cbn [snd ContentScript.lastProcessed] in *; [|exact Hlp].
      destruct (URL_pathname url); exact Hlp. }
  split; [|split; [exact Hmark|]].
  - destruct (ContentScript.pathMatches URL_pathname url) eqn:Hpath.
    + apply handleIfTarget_skip. right. now apply Hmark.
    + apply handleIfTarget_skip. now left.
  - intros st2 H. apply handleIfTarget_skip. now right.
Qed.

(** X14.  A call of [handleIfTarget] sends at most one message, and only
    when it completes: if the call fails, the messages sent are the ones
    sent before; if it completes, either nothing was sent, or one message
    [extractedContent] for that URL was added, whose payload is also the
    one stored in [window.__lastExtractedTerms]. *)
Theorem handleIfTarget_sends (url : jsstring) (st : Page) :
  match handleIfTarget url st with
  | (Throw, st') => ContentScript.outbox st' = ContentScript.outbox st
  | (Normal _, st') =>
      ContentScript.outbox st' = ContentScript.outbox st
      \/ exists payload,
           ContentScript.outbox st'
           = ContentScript.outbox st
               ++ [ContentScript.mkMessage (lit "extractedContent") payload]
           /\ ContentScript.p_url payload = url
           /\ URL_pathname url = Some (ContentScript.p_path payload)
           /\ ContentScript.lastExtractedTerms st' = Some payload
  end.
Proof.
  destruct (ContentScript.pathMatches URL_pathname url) eqn:Hpath;
    [|rewrite handleIfTarget_skip by (now left); cbv beta iota; now left].
  destruct (ContentScript.same_url (ContentScript.lastProcessed st) url)
    eqn:Hsame.
  { apply same_url_true in Hsame.
    rewrite handleIfTarget_skip by (now right). cbv beta iota. now left. }
  rewrite (handleIfTarget_shape url st Hpath Hsame).
  match goal with |- context [findAndExtract ?s] =>
    destruct (keeps_findAndExtract s) as (_ & Hout & _);
    destruct (findAndExtract s) as [[e|] st3]
  end; cbn [snd ContentScript.outbox] in *; [|exact Hout].
  destruct (URL_pathname url) as [path|]; [|exact Hout].
  cbn [ContentScript.outbox ContentScript.lastExtractedTerms].
  destruct (runtime_available (ContentScript.pg_world st3)); [|now left].
  right. eexists. rewrite Hout. repeat split.
Qed.

Lemma processText_original (text : jsstring) (st : Page) :
  forall p st',
    processText text st = (Normal p, st') ->
    ContentScript.originalText p = text.
Proof.
  intros p st'. unfold ContentScript.processText, Script.try_catch, Script.bind.
  destruct (ContentScript.if_loaded googleAI_loaded (summarizeText text) st)
    as [[s|] st1]; [|discriminate].
  destruct (ContentScript.if_loaded googleAI_loaded
              (generateText (explain_prompt text)) st1) as [[e|] st2];
    [|discriminate].
  unfold Script.ret. intros H. injection H as <- _. reflexivity.
Qed.

Lemma try_selectors_result (sels : list jsstring) :
  forall st,
    match try_selectors sels st with
    | (Normal (Some e), _) =>
        In (ContentScript.sourceSelector e) sels
        /\ ContentScript.x_text e = None
        /\ ContentScript.x_summary e <> None
        /\ ContentScript.x_explanation e <> None
        /\ (exists t, ContentScript.x_originalText e = Some t /\ trim t = t)
    | _ => True
    end.
Proof.
  induction sels as [|sel rest IH]; intros st;
    cbn [ContentScript.try_selectors]; [exact I|].
  unfold Script.bind at 1.
  destruct (Script.try_catch _ _ st) as [[[n|]|] st1]; [| |exact I].
  - unfold Script.bind.
    destruct (processText _ st1) as [[p|] st2] eqn:Hp; [|exact I].
    unfold Script.ret. cbn [ContentScript.sourceSelector ContentScript.x_text
      ContentScript.x_summary ContentScript.x_explanation
      ContentScript.x_originalText].
    rewrite (processText_original _ _ Hp).
    repeat split; try discriminate; [now left|].
    eexists. split; [reflexivity|apply extract_trimmed].
  - specialize (IH st1).
    destruct (try_selectors rest st1) as [[[e|]|] st2]; try exact I.
    destruct IH as (Hin & H). split; [now right|exact H].
Qed.

Lemma body_text_trimmed (b : option ContentScript.Element) :
  trim (ContentScript.body_text b) = ContentScript.body_text b.
Proof.
  destruct b as [e|]; [|reflexivity]. unfold ContentScript.body_text.
  destruct (ContentScript.innerText e) as [s|]; [|reflexivity].
  destruct (falsy s); [reflexivity|apply trim_idempotent].
Qed.

(** X15.  What [findAndExtract] returns has one of two shapes.  Found
    through a selector of [SELECTOR_CANDIDATES], it carries the summary,
    the explanation and the original text of the remote processing and no
    [text]; found through the largest block or the body, it carries
    [text] and nothing of the remote processing.  The text it carries has
    no white space at either end. *)
Theorem findAndExtract_result (st : Page) :
  match findAndExtract st with
  | (Normal e, _) =>
      (In (ContentScript.sourceSelector e) ContentScript.SELECTOR_CANDIDATES
       /\ ContentScript.x_text e = None
       /\ ContentScript.x_summary e <> None
       /\ ContentScript.x_explanation e <> None
       /\ exists t, ContentScript.x_originalText e = Some t /\ trim t = t)
      \/ ((ContentScript.sourceSelector e = lit "largest-block"
           \/ ContentScript.sourceSelector e = lit "body-fallback")
          /\ (exists t, ContentScript.x_text e = Some t /\ trim t = t)
          /\ ContentScript.x_summary e = None
          /\ ContentScript.x_explanation e = None
          /\ ContentScript.x_originalText e = None)
  | (Throw, _) => True
  end.
Proof.
  unfold ContentScript.findAndExtract. unfold Script.bind at 1.
  pose proof (try_selectors_result ContentScript.SELECTOR_CANDIDATES st) as Hsel.
  destruct (try_selectors ContentScript.SELECTOR_CANDIDATES st)
    as [[[e|]|] st1]; [now left| |exact I].
  unfold Script.bind, Script.get, Script.ret.
  destruct (ContentScript.findLargestTextNode
              (candidates (ContentScript.pg_world st1))) as [l|];
    right; cbn [ContentScript.sourceSelector ContentScript.x_text
                ContentScript.x_summary ContentScript.x_explanation
                ContentScript.x_originalText].
  - split; [now left|]. split; [|now repeat split].
    eexists. split; [reflexivity|apply extract_trimmed].
  - split; [now right|]. split; [|now repeat split].
    eexists. split; [reflexivity|apply body_text_trimmed].
Qed.

Lemma processed_has_no_text (st : Page) :
  match findAndExtract st with
  | (Normal e, _) =>
      ContentScript.x_summary e <> None -> ContentScript.x_text e = None
  | (Throw, _) => True
  end.
Proof.
  unfold ContentScript.findAndExtract. unfold Script.bind at 1.
  pose proof (try_selectors_result ContentScript.SELECTOR_CANDIDATES st) as Hsel.
  destruct (try_selectors ContentScript.SELECTOR_CANDIDATES st)
    as [[[e|]|] st1]; [cbv beta iota; intros _; apply Hsel| |exact I].
  unfold Script.bind, Script.get, Script.ret.
  destruct (ContentScript.findLargestTextNode
              (candidates (ContentScript.pg_world st1))) as [l|];
    cbn [ContentScript.x_summary]; congruence.
Qed.

(** X16.  The text of a page found through a selector never reaches the
    popup: a message whose payload carries a summary has no [text], and
    the popup's listener then leaves its input field as it is. *)
Theorem popup_ignores_processed (st : Page) (url path input : jsstring) :
  match findAndExtract st with
  | (Normal e, _) =>
      ContentScript.x_summary e <> None ->
      Popup.onMessage
        (ContentScript.mkMessage (lit "extractedContent")
           (ContentScript.mkPayload url path e)) input
      = input
  | (Throw, _) => True
  end.
Proof.
  pose proof (processed_has_no_text st) as H.
  destruct (findAndExtract st) as [[e|] st']; [|exact I].
  intros Hs. unfold Popup.onMessage.
  cbn [ContentScript.action ContentScript.data ContentScript.p_extracted].
  rewrite (H Hs). now rewrite str_eqb_refl.
Qed.

Lemma if_loaded_unloaded (op : World -> completion jsstring * World)
  (st : Page) :
  googleAI_loaded (ContentScript.pg_world st) = false ->
  ContentScript.if_loaded googleAI_loaded op st = (Throw, st).
Proof.
  intros H. unfold ContentScript.if_loaded, Script.bind, Script.get.
  now rewrite H.
Qed.

Lemma processText_unloaded (text : jsstring) (st : Page) :
  googleAI_loaded (ContentScript.pg_world st) = false ->
  processText text st = (Throw, st).
Proof.
  intros H. unfold ContentScript.processText, Script.try_catch, Script.bind.
  now rewrite if_loaded_unloaded.
Qed.

Lemma try_selectors_unloaded (sels : list jsstring) :
  (forall w, googleAI_loaded w = false) ->
  (forall w, exists n w',
      waitForSelector (lit "body") w = (Normal (Some n), w')) ->
  In (lit "body") sels ->
  forall st, fst (try_selectors sels st) = Throw.
Proof.
  intros Hoff Hbody. induction sels as [|sel rest IH]; [intros []|].
  intros Hin st. cbn [ContentScript.try_selectors].
  unfold Script.bind at 1. unfold Script.try_catch, ContentScript.await.
  destruct (waitForSelector sel (ContentScript.pg_world st)) as [[[n|]|] w1]
    eqn:Hw.
  - unfold Script.bind. now rewrite processText_unloaded.
  - destruct Hin as [->|Hin]; [|now apply IH].
    destruct (Hbody (ContentScript.pg_world st)) as (n & w' & E). congruence.
  - unfold Script.ret.
    destruct Hin as [->|Hin]; [|now apply IH].
    destruct (Hbody (ContentScript.pg_world st)) as (n & w' & E). congruence.
Qed.

(** X17.  Without the remote module nothing is ever sent: if
    [window.__contractDecoder_googleAI] is not there and the page has a
    body for [waitForSelector('body')] to find, every call of
    [handleIfTarget] leaves the messages sent as they are, and a call
    that gets past the two checks fails. *)
Theorem handleIfTarget_needs_googleAI (url : jsstring) (st : Page) :
  (forall w, googleAI_loaded w = false) ->
  (forall w, exists n w',
      waitForSelector (lit "body") w = (Normal (Some n), w')) ->
  ContentScript.outbox (snd (handleIfTarget url st)) = ContentScript.outbox st
  /\ (ContentScript.pathMatches URL_pathname url = true ->
      ContentScript.lastProcessed st <> Some url ->
      fst (handleIfTarget url st) = Throw).
Proof.
  intros Hoff Hbody.
  destruct (ContentScript.pathMatches URL_pathname url) eqn:Hpath;
    [|rewrite handleIfTarget_skip by (now left); split;
      [reflexivity|discriminate]].
  destruct (ContentScript.same_url (ContentScript.lastProcessed st) url)
    eqn:Hsame.
  { apply same_url_true in Hsame.
    rewrite handleIfTarget_skip by (now right). split; [reflexivity|].
    intros _ H. contradiction. }
  rewrite (handleIfTarget_shape url st Hpath Hsame).
  match goal with |- context [findAndExtract ?s] =>
    destruct (keeps_findAndExtract s) as (_ & Hout & _);
    assert (Hthrow : fst (findAndExtract s) = Throw)
  end.
  { unfold ContentScript.findAndExtract. unfold Script.bind at 1.
    match goal with |- context [try_selectors ?l ?s] =>
      pose proof (@try_selectors_unloaded l Hoff Hbody
                    ltac:(cbn; tauto) s) as Ht;
      destruct (try_selectors l s) as [[f|] s1]
    end; [discriminate Ht|reflexivity]. }
  match goal with |- context [findAndExtract ?s] =>
    destruct (findAndExtract s) as [[e|] st3]
  end; [discriminate Hthrow|].
  split; [exact Hout|reflexivity].
Qed.

End ExtractionFacts.

(** The remote module is missing, the page has a body: the call for a
    matching URL fails and sends nothing. *)
Lemma handleIfTarget_needs_googleAI_witness :
  fst (ContentScript.handleIfTarget (fun _ => Some (lit "/legal"))
         (fun _ (w : unit) =>
            (Normal (Some (ContentScript.mkElement None None 1
                             (Some (lit "Terms")) (lit "<p>Terms</p>") [])),
             w))
         (fun _ => false) (fun _ w => (Throw, w)) (fun _ w => (Throw, w))
         (fun _ => []) (fun _ => None) (fun _ => true) (fun w => w)
         (lit "https://example.com/legal")
         (ContentScript.mkPage tt None [] None)) = Throw.
Proof.
  apply (@handleIfTarget_needs_googleAI unit (fun _ => Some (lit "/legal"))
           (fun _ (w : unit) =>
              (Normal (Some (ContentScript.mkElement None None 1
                               (Some (lit "Terms")) (lit "<p>Terms</p>") [])),
               w))
           (fun _ => false) (fun _ w => (Throw, w)) (fun _ w => (Throw, w))
           (fun _ => []) (fun _ => None) (fun _ => true) (fun w => w)
           (lit "https://example.com/legal")
           (ContentScript.mkPage tt None [] None)).
  - reflexivity.
  - intros w. eexists. eexists. reflexivity.
  - reflexivity.
  - discriminate.
Defined.

(** A page whose [main] is found and processed by the remote module: the
    payload carries a summary, and the popup keeps what was typed. *)
Lemma popup_ignores_processed_witness :
  exists e st',
    ContentScript.findAndExtract
      (fun _ (w : unit) =>
         (Normal (Some (ContentScript.mkElement None None 1
                          (Some (lit " Terms ")) (lit "<p>Terms</p>") [])),
          w))
      (fun _ => true)
      (fun _ w => (Normal (lit "short"), w))
      (fun _ w => (Normal (lit "plain"), w))
      (fun _ => []) (fun _ => None)
      (ContentScript.mkPage tt None [] None)
    = (Normal e, st')
    /\ ContentScript.x_summary e <> None
    /\ Popup.onMessage
         (ContentScript.mkMessage (lit "extractedContent")
            (ContentScript.mkPayload (lit "https://example.com/legal")
               (lit "/legal") e))
         (lit "typed")
       = lit "typed".
Proof.
  pose proof
    (@popup_ignores_processed unit
       (fun _ (w : unit) =>
          (Normal (Some (ContentScript.mkElement None None 1
                           (Some (lit " Terms ")) (lit "<p>Terms</p>") [])),
           w))
       (fun _ => true)
       (fun _ w => (Normal (lit "short"), w))
       (fun _ w => (Normal (lit "plain"), w))
       (fun _ => []) (fun _ => None)
       (ContentScript.mkPage tt None [] None)
       (lit "https://example.com/legal") (lit "/legal") (lit "typed")) as H.
  match type of H with
  | match ?r with _ => _ end =>
      destruct r as [[e|] st'] eqn:E
  end.
  - exists e, st'. split; [reflexivity|].
    assert (Hs : ContentScript.x_summary e <> None)
      by (vm_compute in E; injection E as <- _; discriminate).
    split; [exact Hs|exact (H Hs)].
  - vm_compute in E. discriminate E.
Defined.

(* ================================================================== *)
(** * Reading the response of the remote service *)
(* ================================================================== *)

Section ResponseFacts.

Variable number : Type.
Variable number_truthy : number -> bool.
Variable JSON_stringify : GoogleAI.value number -> jsstring.

Local Notation "'value'" := (GoogleAI.value number).
Local Notation "'truthy'" := (GoogleAI.truthy number_truthy).
Local Notation "'chain'" := (GoogleAI.chain number_truthy).
Local Notation "'extract'" :=
  (GoogleAI._extractTextFromResponse number_truthy JSON_stringify).

(** A truthy value can be read from without an exception. *)
Lemma read_truthy (v : value) (a : GoogleAI.access) :
  truthy v = true -> exists x, GoogleAI.read v a = Normal x.
Proof. destruct v; simpl; try discriminate; eauto. Qed.

(** What a chain yields is truthy, if the chain has a link. *)
Lemma chain_some (path : list GoogleAI.access) :
  forall v x,
    path <> [] -> chain v path = Normal (Some x) -> truthy x = true.
Proof.
  induction path as [|a rest IH]; intros v x Hne H; [contradiction|].
  simpl in H. destruct (GoogleAI.read v a) as [v'|]; [|discriminate H].
  destruct (truthy v') eqn:Hv; [|discriminate H].
  destruct rest as [|b rest'].
  - simpl in H. injection H as <-. exact Hv.
  - apply (IH v' x); [discriminate|exact H].
Qed.

(** From a truthy start a chain does not throw. *)
Lemma chain_no_throw (path : list GoogleAI.access) :
  forall v, truthy v = true -> chain v path <> Throw.
Proof.
  induction path as [|a rest IH]; intros v Hv; simpl; [discriminate|].
  destruct (read_truthy v a Hv) as [x ->].
  destruct (truthy x) eqn:Hx; [now apply IH|discriminate].
Qed.

Lemma content_items_some (items : list value) (x : value) :
  GoogleAI.content_items number_truthy items = Normal (Some x) ->
  truthy x = true.
Proof.
  induction items as [|item rest IH]; cbn [GoogleAI.content_items];
    [discriminate|].
  destruct (chain item GoogleAI.parts_text) as [[y|]|] eqn:H1;
    [|destruct (chain item [GoogleAI.Prop_ (lit "text")]) as [[y|]|] eqn:H2|];
    try discriminate.
  - intros H. injection H as <-. eapply chain_some; [|exact H1]. discriminate.
  - intros H. injection H as <-. eapply chain_some; [|exact H2]. discriminate.
  - exact IH.
Qed.

Lemma clip_length (s : jsstring) : length (GoogleAI.clip s) <= 1003.
Proof.
  unfold GoogleAI.clip.
  destruct (Nat.ltb_spec 1000 (length s)) as [H|H]; [|lia].
  rewrite length_app, length_firstn.
  change (length (lit "...")) with 3. lia.
Qed.

Lemma after_candidates_usable (d x : value) :
  GoogleAI.after_candidates number_truthy JSON_stringify d = Normal x ->
  (exists s, x = GoogleAI.Str s) \/ truthy x = true.
Proof.
  unfold GoogleAI.after_candidates, GoogleAI.or_next.
  destruct (chain d GoogleAI.output_text) as [[y|]|] eqn:H1; try discriminate.
  - intros H. injection H as <-. right.
    eapply chain_some; [|exact H1]. discriminate.
  - destruct (GoogleAI.read d _) as [[| | | |s| |]|]; cbv beta iota;
      try discriminate; intros H; injection H as <-; left; eauto.
Qed.

(** X18.  What [_extractTextFromResponse] returns is always usable as a
    text: a string, or else a truthy value found under one of the [text]
    keys; never undefined, null, false or zero, whatever the response. *)
Theorem extractText_usable (d : value) :
  (exists s, extract d = GoogleAI.Str s) \/ truthy (extract d) = true.
Proof.
  unfold GoogleAI._extractTextFromResponse.
  destruct (GoogleAI.extract_body number_truthy JSON_stringify d) as [x|] eqn:H;
    [|left; eauto].
  unfold GoogleAI.extract_body in H.
  destruct (truthy d); cbn [negb] in H; [|injection H as <-; left; eauto].
  destruct (chain d _) as [[c|]|]; [| |discriminate H].
  2: now apply after_candidates_usable in H.
  unfold GoogleAI.or_next in H.
  destruct (GoogleAI.read c _) as [content|]; [|discriminate H].
  assert (Hrest :
    match chain c GoogleAI.output_text with
    | Normal (Some x0) => Normal x0
    | Normal None =>
        GoogleAI.after_candidates number_truthy JSON_stringify d
    | Throw => Throw
    end = Normal x ->
    (exists s, x = GoogleAI.Str s) \/ truthy x = true).
  { destruct (chain c GoogleAI.output_text) as [[y|]|] eqn:H2;
      [|apply after_candidates_usable|discriminate].
    intros E. injection E as <-. right.
    eapply chain_some; [|exact H2]. discriminate. }
  destruct (truthy content); [|now apply Hrest].
  destruct content as [| | | | |items|props];
    try (destruct (chain _ GoogleAI.parts_text) as [[y|]|] eqn:H3;
         [injection H as <-; right; eapply chain_some; [|exact H3];
          discriminate
         |now apply Hrest|discriminate H]).
  destruct (GoogleAI.content_items number_truthy items) as [[y|]|] eqn:H3;
    [|now apply Hrest|discriminate H].
  injection H as <-. right. now apply content_items_some in H3.
Qed.

(** Only an object has a truthy property under a name. *)
Lemma read_prop_truthy (v x : value) (k : jsstring) :
  GoogleAI.read v (GoogleAI.Prop_ k) = Normal x -> truthy x = true ->
  truthy v = true.
Proof.
  destruct v; simpl; intros H Hx; try discriminate H;
    try (injection H as <-; discriminate Hx); reflexivity.
Qed.

Lemma chain_start_truthy (v x : value) (k : jsstring)
  (rest : list GoogleAI.access) :
  chain v (GoogleAI.Prop_ k :: rest) = Normal (Some x) -> truthy v = true.
Proof.
  cbn [GoogleAI.chain].
  destruct (GoogleAI.read v (GoogleAI.Prop_ k)) as [v'|] eqn:Hr;
    [|discriminate].
  destruct (truthy v') eqn:Hv; [|discriminate].
  intros _. exact (@read_prop_truthy _ _ _ Hr Hv).
Qed.

(** A chain splits at any link. *)
Lemma chain_app (p q : list GoogleAI.access) :
  forall v x,
    chain v (p ++ q) = Normal (Some x) ->
    exists y, chain v p = Normal (Some y) /\ chain y q = Normal (Some x).
Proof.
  induction p as [|a p IH]; intros v x H.
  - exists v. split; [reflexivity|exact H].
  - cbn [app GoogleAI.chain] in *.
    destruct (GoogleAI.read v a) as [v'|]; [|discriminate H].
    destruct (truthy v'); [|discriminate H].
    now apply IH.
Qed.

(** The items that return nothing are passed over. *)
Lemma content_items_app (before rest : list value) :
  GoogleAI.content_items number_truthy before = Normal None ->
  GoogleAI.content_items number_truthy (before ++ rest)
  = GoogleAI.content_items number_truthy rest.
Proof.
  induction before as [|item tl IH]; [reflexivity|].
  cbn [app GoogleAI.content_items].
  destruct (chain item GoogleAI.parts_text) as [[y|]|]; try discriminate.
  destruct (chain item [GoogleAI.Prop_ (lit "text")]) as [[y|]|];
    try discriminate.
  exact IH.
Qed.

Lemma clip_prefix (s : jsstring) :
  firstn 1000 (GoogleAI.clip s) = firstn 1000 s.
Proof.
  unfold GoogleAI.clip.
  destruct (Nat.ltb_spec 1000 (length s)) as [H|H]; [|reflexivity].
  rewrite firstn_app, firstn_firstn, length_firstn.
  replace (1000 - Nat.min 1000 (length s)) with 0 by lia.
  rewrite Nat.min_id. cbn [firstn]. now rewrite app_nil_r.
Qed.

(** X19.  The text under [candidates[0].content.parts[0].text] has
    priority: when every link of that chain is truthy, the function
    returns that text, whatever else the response holds. *)
Theorem extractText_first_shape (d t : value) :
  chain d (GoogleAI.Prop_ (lit "candidates") :: GoogleAI.First
           :: GoogleAI.Prop_ (lit "content") :: GoogleAI.parts_text)
  = Normal (Some t) ->
  extract d = t.
Proof.
  intros H.
  pose proof (@chain_start_truthy _ _ _ _ H) as Hd.
  apply (@chain_app [GoogleAI.Prop_ (lit "candidates"); GoogleAI.First]
           (GoogleAI.Prop_ (lit "content") :: GoogleAI.parts_text) d t)
    in H as (c & Hc & H).
  cbn [GoogleAI.chain] in H.
  destruct (GoogleAI.read c (GoogleAI.Prop_ (lit "content")))
    as [content|] eqn:Hr; [|discriminate H].
  destruct (truthy content) eqn:Ht; [|discriminate H].
  unfold GoogleAI._extractTextFromResponse, GoogleAI.extract_body.
  rewrite Hd. cbn [negb]. rewrite Hc, Hr, Ht.
  change (match GoogleAI.read content (GoogleAI.Prop_ (lit "parts")) with
          | Normal v' =>
              if truthy v'
              then chain v' [GoogleAI.First; GoogleAI.Prop_ (lit "text")]
              else Normal None
          | Throw => Throw
          end) with (chain content GoogleAI.parts_text) in H.
  destruct content; try (rewrite H; reflexivity).
  discriminate H.
Qed.

(** X20.  One [null] among the items of [candidates[0].content] spoils
    the response: if no item before it yields a text, the function
    returns the empty string, whatever the later items, [output] or
    [text] hold. *)
Theorem extractText_null_item (d c : value) (before rest : list value) :
  chain d [GoogleAI.Prop_ (lit "candidates"); GoogleAI.First]
  = Normal (Some c) ->
  GoogleAI.read c (GoogleAI.Prop_ (lit "content"))
  = Normal (GoogleAI.Arr (before ++ GoogleAI.Null :: rest)) ->
  GoogleAI.content_items number_truthy before = Normal None ->
  extract d = GoogleAI.Str [].
Proof.
  intros Hc Hr Hb.
  pose proof (@chain_start_truthy _ _ _ _ Hc) as Hd.
  unfold GoogleAI._extractTextFromResponse, GoogleAI.extract_body.
  rewrite Hd. cbn [negb]. rewrite Hc, Hr.
  cbn [GoogleAI.truthy]. rewrite (@content_items_app _ _ Hb).
  reflexivity.
Qed.

(** X21.  A truthy response with nothing truthy under [candidates] and
    [output] and no string under [text] is returned as its JSON text:
    a string of at most 1003 code units that agrees with the JSON text
    on the first 1000. *)
Theorem extractText_fallback (d : value) :
  truthy d = true ->
  (forall k, In k [lit "candidates"; lit "output"] ->
     exists v, GoogleAI.read d (GoogleAI.Prop_ k) = Normal v
               /\ truthy v = false) ->
  (forall s, GoogleAI.read d (GoogleAI.Prop_ (lit "text"))
             <> Normal (GoogleAI.Str s)) ->
  exists s,
    extract d = GoogleAI.Str s
    /\ length s <= 1003
    /\ firstn 1000 s = firstn 1000 (JSON_stringify d)
    /\ (length (JSON_stringify d) <= 1000 -> s = JSON_stringify d).
Proof.
  intros Hd Hk Ht.
  destruct (Hk (lit "candidates")) as (v1 & H1 & F1); [now left|].
  destruct (Hk (lit "output")) as (v2 & H2 & F2); [now right; left|].
  exists (GoogleAI.clip (JSON_stringify d)).
  split; [|split; [apply clip_length|split; [apply clip_prefix|]]].
  - unfold GoogleAI._extractTextFromResponse, GoogleAI.extract_body.
    rewrite Hd. cbn [negb GoogleAI.chain]. rewrite H1, F1.
    unfold GoogleAI.after_candidates, GoogleAI.output_text.
    cbn [GoogleAI.chain GoogleAI.or_next]. rewrite H2, F2.
    destruct (read_truthy d (GoogleAI.Prop_ (lit "text")) Hd) as [x Hx].
    rewrite Hx. destruct x; try reflexivity.
    now elim (Ht s).
  - intros Hl. unfold GoogleAI.clip.
    destruct (Nat.ltb_spec 1000 (length (JSON_stringify d))); [lia|reflexivity].
Qed.

End ResponseFacts.

Lemma extractText_first_shape_witness :
  let number_truthy := fun n : N => negb (n =? 0)%N in
  let d := GoogleAI.Obj
    [(lit "candidates",
      GoogleAI.Arr
        [GoogleAI.Obj
           [(lit "content",
             GoogleAI.Obj
               [(lit "parts",
                 GoogleAI.Arr
                   [GoogleAI.Obj [(lit "text", GoogleAI.Str (lit "Hi"))]])])]]);
     (lit "text", GoogleAI.Str (lit "other"))] in
  GoogleAI._extractTextFromResponse number_truthy (fun _ => lit "{}") d
  = GoogleAI.Str (lit "Hi").
Proof.
  intros number_truthy d.
  apply (@extractText_first_shape N number_truthy (fun _ => lit "{}") d).
  reflexivity.
Defined.

Lemma extractText_null_item_witness :
  let number_truthy := fun n : N => negb (n =? 0)%N in
  let c := GoogleAI.Obj
    [(lit "content",
      GoogleAI.Arr
        [GoogleAI.Num 7%N; GoogleAI.Null;
         GoogleAI.Obj [(lit "text", GoogleAI.Str (lit "Hi"))]])] in
  let d := GoogleAI.Obj
    [(lit "candidates", GoogleAI.Arr [c]);
     (lit "text", GoogleAI.Str (lit "other"))] in
  GoogleAI._extractTextFromResponse number_truthy (fun _ => lit "{}") d
  = GoogleAI.Str [].
Proof.
  intros number_truthy c d.
  apply (@extractText_null_item N number_truthy (fun _ => lit "{}") d c
           [GoogleAI.Num 7%N]
           [GoogleAI.Obj [(lit "text", GoogleAI.Str (lit "Hi"))]]);
    reflexivity.
Defined.

Lemma extractText_fallback_witness :
  let number_truthy := fun n : N => negb (n =? 0)%N in
  let d : GoogleAI.value N :=
    GoogleAI.Obj [(lit "error", GoogleAI.Num 403%N)] in
  exists s,
    GoogleAI._extractTextFromResponse number_truthy
      (fun _ => lit "{$error$:403}") d = GoogleAI.Str s
    /\ length s <= 1003
    /\ firstn 1000 s = firstn 1000 (lit "{$error$:403}")
    /\ (length (lit "{$error$:403}") <= 1000 -> s = lit "{$error$:403}").
Proof.
  intros number_truthy d.
  apply (@extractText_fallback N number_truthy
           (fun _ => lit "{$error$:403}") d).
  - reflexivity.
  - intros k [<-|[<-|[]]]; exists GoogleAI.Undefined; split; reflexivity.
  - intros s. discriminate.
Defined.
